(** * warc2zim: the URL rewriting set-up of the replay page

    A shallow embedding of [src/warc2zim/statics/wombat_setup.js]:
    the fuzzy rule engine [reduce] and the [urlRewriteFunction] closure
    built by [getWombatInfo], with the JavaScript built-ins they call
    ([String.prototype.replace] on a regular expression, [startsWith],
    [substring], [encodeURIComponent] and the [URL] class).

    JavaScript strings are modelled as [string] (sequences of 8-bit
    characters); the regular expression engine and the URL parser work
    on the underlying [list ascii]. *)

From Stdlib Require Import String Ascii List Bool Arith NArith Lia.
Import ListNotations.

Local Open Scope string_scope.
Local Open Scope list_scope.
Local Open Scope nat_scope.

(** ** Characters and character lists *)

Definition chars := list ascii.

Definition code (c : ascii) : nat := nat_of_ascii c.

Definition between (lo hi : nat) (c : ascii) : bool :=
  (lo <=? code c) && (code c <=? hi).

Definition is_digit (c : ascii) : bool := between 48 57 c.
Definition is_upper (c : ascii) : bool := between 65 90 c.
Definition is_lower (c : ascii) : bool := between 97 122 c.
Definition is_alpha (c : ascii) : bool := is_upper c || is_lower c.
Definition is_alnum (c : ascii) : bool := is_alpha c || is_digit c.

(** [\w] of a regular expression: letters, digits and the underscore. *)
Definition is_word (c : ascii) : bool := is_alnum c || Ascii.eqb c "_".

(** Line terminators, which [.] does not match (LF and CR among the
    8-bit characters). *)
Definition is_line_terminator (c : ascii) : bool :=
  Ascii.eqb c "010" || Ascii.eqb c "013".

Fixpoint mem (c : ascii) (l : chars) : bool :=
  match l with
  | [] => false
  | x :: l' => Ascii.eqb c x || mem c l'
  end.

Definition oneof (s : string) (c : ascii) : bool :=
  mem c (list_ascii_of_string s).

Definition noneof (s : string) (c : ascii) : bool := negb (oneof s c).

Fixpoint starts_with (p s : chars) : bool :=
  match p, s with
  | [], _ => true
  | _ :: _, [] => false
  | x :: p', y :: s' => Ascii.eqb x y && starts_with p' s'
  end.

Definition orelse {A : Type} (a b : option A) : option A :=
  match a with
  | Some _ => a
  | None => b
  end.

(** ** Regular expressions

    The fragment of ECMAScript regular expressions the program uses:
    literal characters and classes, concatenation, alternation, greedy
    and lazy repetition, capturing groups, the one-character lookbehind
    [(?<=[...])] and the anchors [^] and [$] (no [m] flag).  The matcher
    is the backtracking matcher of the language definition, in
    continuation-passing style: alternatives are tried in priority order
    and the first complete match is the result. *)

Module RegExp.

Inductive regex : Type :=
| Eps
| Chr (p : ascii -> bool)
| Seq (r1 r2 : regex)
| Alt (r1 r2 : regex)
| Star (greedy : bool) (r : regex)
| Group (n : nat) (r : regex)
| Behind (p : ascii -> bool)
| Bol
| Eol.

(** A position in the subject string, as a zipper, with the captures
    recorded so far (most recent first). *)
Record mstate : Type := MState {
  before : chars;   (* the characters to the left, nearest first *)
  after : chars;    (* the characters to the right *)
  caps : list (nat * chars)
}.

Definition consumed (st st' : mstate) : chars :=
  firstn (length (after st) - length (after st')) (after st).

Definition set_cap (n : nat) (w : chars) (st : mstate) : mstate :=
  MState (before st) (after st) ((n, w) :: caps st).

Fixpoint get_cap (n : nat) (cs : list (nat * chars)) : option chars :=
  match cs with
  | [] => None
  | (i, w) :: cs' => if Nat.eqb i n then Some w else get_cap n cs'
  end.

Definition progress (st st' : mstate) : bool :=
  length (after st') <? length (after st).

(** The loop of a quantifier [r*] or [r*?]: an iteration that consumes
    nothing is rejected, so the length of the remaining subject bounds
    the number of iterations. *)
Fixpoint star_loop (body : mstate -> (mstate -> option mstate) -> option mstate)
  (g : bool) (k : mstate -> option mstate) (fuel : nat) (st : mstate)
  {struct fuel} : option mstate :=
  match fuel with
  | 0 => k st
  | S fuel' =>
      let again :=
        body st (fun st1 =>
                   if progress st st1 then star_loop body g k fuel' st1
                   else None) in
      if g then orelse again (k st) else orelse (k st) again
  end.

Fixpoint m (r : regex) (st : mstate) (k : mstate -> option mstate)
  {struct r} : option mstate :=
  match r with
  | Eps => k st
  | Chr p =>
      match after st with
      | c :: rest =>
          if p c then k (MState (c :: before st) rest (caps st)) else None
      | [] => None
      end
  | Seq r1 r2 => m r1 st (fun st1 => m r2 st1 k)
  | Alt r1 r2 => orelse (m r1 st k) (m r2 st k)
  | Star g r1 => star_loop (m r1) g k (length (after st)) st
  | Group n r1 => m r1 st (fun st1 => k (set_cap n (consumed st st1) st1))
  | Behind p =>
      match before st with
      | c :: _ => if p c then k st else None
      | [] => None
      end
  | Bol => match before st with [] => k st | _ :: _ => None end
  | Eol => match after st with [] => k st | _ :: _ => None end
  end.

(** Derived forms. *)
Definition Lit (c : ascii) : regex := Chr (Ascii.eqb c).
Definition Dot : regex := Chr (fun c => negb (is_line_terminator c)).
Definition Plus (g : bool) (r : regex) : regex := Seq r (Star g r).
Definition Opt (r : regex) : regex := Alt r Eps.

Fixpoint Str (s : string) : regex :=
  match s with
  | EmptyString => Eps
  | String c s' => Seq (Lit c) (Str s')
  end.

Fixpoint ngroups (r : regex) : nat :=
  match r with
  | Seq r1 r2 | Alt r1 r2 => Nat.max (ngroups r1) (ngroups r2)
  | Star _ r1 => ngroups r1
  | Group n r1 => Nat.max n (ngroups r1)
  | _ => 0
  end.

(** The result of a successful [exec]: the subject split around the
    match, and the captures. *)
Record match_result : Type := MatchResult {
  mr_pre : chars;       (* the text to the left of the match, nearest first *)
  mr_matched : chars;
  mr_post : chars;
  mr_caps : list (nat * chars)
}.

(** [RegExp.prototype.exec] without the [g] and [y] flags: the match is
    attempted at index 0, 1, ..., up to the end of the subject. *)
Fixpoint exec_from (r : regex) (pre : chars) (rest : chars)
  {struct rest} : option match_result :=
  match m r (MState pre rest []) Some with
  | Some st =>
      Some (MatchResult pre (consumed (MState pre rest []) st)
                        (after st) (caps st))
  | None =>
      match rest with
      | [] => None
      | c :: rest' => exec_from r (c :: pre) rest'
      end
  end.

Definition exec (r : regex) (s : chars) : option match_result :=
  exec_from r [] s.

(** [GetSubstitution]: the expansion of a replacement template
    ([$$], [$&], [$`], [$'], [$n] and [$nn]; there are no named groups). *)
Definition digit_val (c : ascii) : nat := code c - 48.

Definition cap_or_empty (n : nat) (res : match_result) : chars :=
  match get_cap n (mr_caps res) with
  | Some w => w
  | None => []
  end.

Fixpoint get_substitution (ng : nat) (res : match_result) (t : chars)
  {struct t} : chars :=
  match t with
  | [] => []
  | c :: t1 =>
      if Ascii.eqb c "$" then
        match t1 with
        | [] => [c]
        | d :: t2 =>
            if Ascii.eqb d "$" then d :: get_substitution ng res t2
            else if Ascii.eqb d "&" then
              mr_matched res ++ get_substitution ng res t2
            else if Ascii.eqb d "`" then
              rev (mr_pre res) ++ get_substitution ng res t2
            else if Ascii.eqb d "'" then
              mr_post res ++ get_substitution ng res t2
            else if is_digit d then
              match t2 with
              | e :: t3 =>
                  let two := 10 * digit_val d + digit_val e in
                  if is_digit e && (1 <=? two) && (two <=? ng) then
                    cap_or_empty two res ++ get_substitution ng res t3
                  else if (1 <=? digit_val d) && (digit_val d <=? ng) then
                    cap_or_empty (digit_val d) res
                      ++ get_substitution ng res t2
                  else c :: d :: get_substitution ng res t2
              | [] =>
                  if (1 <=? digit_val d) && (digit_val d <=? ng) then
                    cap_or_empty (digit_val d) res
                  else [c; d]
              end
            else c :: get_substitution ng res t1
        end
      else c :: get_substitution ng res t1
  end.

(** [String.prototype.replace] with a regular expression without the
    [g] flag and a string template: only the first match is replaced. *)
Definition replace_chars (r : regex) (template : chars) (s : chars) : chars :=
  match exec r s with
  | None => s
  | Some res =>
      rev (mr_pre res) ++ get_substitution (ngroups r) res template
        ++ mr_post res
  end.

Definition replace (r : regex) (template : string) (s : string) : string :=
  string_of_list_ascii
    (replace_chars r (list_ascii_of_string template) (list_ascii_of_string s)).

End RegExp.

Import RegExp.

Declare Scope regex_scope.
Delimit Scope regex_scope with re.
Infix ";;" := Seq (at level 61, right associativity) : regex_scope.
Local Open Scope regex_scope.

(** ** The fuzzy rules *)

Record rule : Type := Rule { rmatch : regex; rreplace : string }.

(** [.*googlevideo.com/(videoplayback\?).*((?<=[?&])id=[^&]+).*] *)
Definition rule1 : rule :=
  Rule (Star true Dot ;; Str "googlevideo" ;; Dot ;; Str "com/" ;;
        Group 1 (Str "videoplayback" ;; Lit "?") ;;
        Star true Dot ;;
        Group 2 (Behind (oneof "?&") ;; Str "id=" ;;
                 Plus true (Chr (noneof "&"))) ;;
        Star true Dot)
       "youtube.fuzzy.replayweb.page/$1$2".

(** [(?:www\.)?youtube(?:-nocookie)?\.com/(get_video_info\?).*(video_id=[^&]+).*] *)
Definition rule2 : rule :=
  Rule (Opt (Str "www.") ;; Str "youtube" ;; Opt (Str "-nocookie") ;;
        Str ".com/" ;;
        Group 1 (Str "get_video_info" ;; Lit "?") ;;
        Star true Dot ;;
        Group 2 (Str "video_id=" ;; Plus true (Chr (noneof "&"))) ;;
        Star true Dot)
       "youtube.fuzzy.replayweb.page/$1$2".

(** [(\.[^?]+\?)[\d]+$] *)
Definition rule3 : rule :=
  Rule (Group 1 (Lit "." ;; Plus true (Chr (noneof "?")) ;; Lit "?") ;;
        Plus true (Chr is_digit) ;; Eol)
       "$1".

(** [(?:www\.)?youtube(?:-nocookie)?\.com\/(youtubei/[^?]+).*(videoId[^&]+).*] *)
Definition rule4 : rule :=
  Rule (Opt (Str "www.") ;; Str "youtube" ;; Opt (Str "-nocookie") ;;
        Str ".com/" ;;
        Group 1 (Str "youtubei/" ;; Plus true (Chr (noneof "?"))) ;;
        Star true Dot ;;
        Group 2 (Str "videoId" ;; Plus true (Chr (noneof "&"))) ;;
        Star true Dot)
       "youtube.fuzzy.replayweb.page/$1?$2".

(** [(?:www\.)?youtube(?:-nocookie)?\.com/embed/([^?]+).*] *)
Definition rule5 : rule :=
  Rule (Opt (Str "www.") ;; Str "youtube" ;; Opt (Str "-nocookie") ;;
        Str ".com/embed/" ;;
        Group 1 (Plus true (Chr (noneof "?"))) ;;
        Star true Dot)
       "youtube.fuzzy.replayweb.page/embed/$1".

(** [youtube.fuzzy.replayweb.page/embed/([^?&]+).*] *)
Definition rule6 : rule :=
  Rule (Str "youtube" ;; Dot ;; Str "fuzzy" ;; Dot ;; Str "replayweb" ;;
        Dot ;; Str "page/embed/" ;;
        Group 1 (Plus true (Chr (noneof "?&"))) ;;
        Star true Dot)
       "youtube.fuzzy.replayweb.page/embed/$1".

(** [.*(?:gcs-vimeo|vod|vod-progressive)\.akamaized\.net.*?/([\d/]+.mp4)$] *)
Definition rule7 : rule :=
  Rule (Star true Dot ;;
        Alt (Str "gcs-vimeo") (Alt (Str "vod") (Str "vod-progressive")) ;;
        Str ".akamaized.net" ;;
        Star false Dot ;; Lit "/" ;;
        Group 1 (Plus true (Chr (fun c => is_digit c || Ascii.eqb c "/")) ;;
                 Dot ;; Str "mp4") ;;
        Eol)
       "vimeo-cdn.fuzzy.replayweb.page/$1".

(** [.*player.vimeo.com/(video/[\d]+)\?.*] *)
Definition rule8 : rule :=
  Rule (Star true Dot ;; Str "player" ;; Dot ;; Str "vimeo" ;; Dot ;;
        Str "com/" ;;
        Group 1 (Str "video/" ;; Plus true (Chr is_digit)) ;;
        Lit "?" ;; Star true Dot)
       "vimeo.fuzzy.replayweb.page/$1".

Definition fuzzy_rules : list rule :=
  [rule1; rule2; rule3; rule4; rule5; rule6; rule7; rule8].

Definition apply_rule (r : rule) (path : string) : string :=
  replace (rmatch r) (rreplace r) path.

(** The loop of [reduce]: the first rule whose replacement differs from
    the path gives the result. *)
Fixpoint reduce_with (rules : list rule) (path : string) : string :=
  match rules with
  | [] => path
  | r :: rules' =>
      let new_path := apply_rule r path in
      if negb (String.eqb new_path path) then new_path
      else reduce_with rules' path
  end.

Definition reduce (path : string) : string := reduce_with fuzzy_rules path.

(** ** The [URL] class

    A model of the URL parser and serialiser of the URL standard, which
    the program reaches through [new URL(url, base)], [toString],
    [search] and [pathname].  The model follows the states of the
    standard's basic URL parser for hierarchical and opaque-path URLs:
    scheme, special-scheme slashes, authority with credentials and port,
    path segments with dot-segment removal, query and fragment, the
    percent-encode sets of each component, and relative resolution
    against a base.  Outside the model: [file:] URLs (rejected), and the
    host forms that need more than lower-casing, namely IPv6 literals,
    percent-escaped or non-ASCII domains (rejected), numeric hosts,
    which the standard reads as IPv4 addresses and rewrites or rejects
    (kept as written), and the validity of punycode labels ([xn--]
    labels are accepted as written). *)

Module URL.

Inductive url_path : Type :=
| Opaque (s : chars)
| Segments (l : list chars).

Record t : Type := mk {
  scheme : chars;
  username : chars;
  password : chars;
  host : option chars;
  port : option N;
  path : url_path;
  query : option chars;
  fragment : option chars
}.

Definition lit (s : string) : chars := list_ascii_of_string s.

(** *** Percent-encoding *)

Definition hexdig (n : nat) : ascii := nth n (lit "0123456789ABCDEF") "0"%char.

Definition pct_byte (n : nat) : chars :=
  ["%"%char; hexdig (n / 16); hexdig (n mod 16)].

(** The UTF-8 bytes of a character, percent-encoded. *)
Definition utf8_pct (c : ascii) : chars :=
  if code c <? 128 then pct_byte (code c)
  else pct_byte (192 + code c / 64) ++ pct_byte (128 + code c mod 64).

Definition encode (set : ascii -> bool) (s : chars) : chars :=
  flat_map (fun c => if set c then utf8_pct c else [c]) s.

Definition c0_set (c : ascii) : bool := (code c <=? 31) || (126 <? code c).
Definition fragment_set (c : ascii) : bool :=
  c0_set c || mem c ("034"%char :: lit " <>`").
Definition query_set (c : ascii) : bool :=
  c0_set c || mem c ("034"%char :: lit " #<>").
Definition special_query_set (c : ascii) : bool :=
  query_set c || Ascii.eqb c "'".
Definition path_set (c : ascii) : bool :=
  query_set c || mem c (lit "?^`{}").
Definition userinfo_set (c : ascii) : bool :=
  path_set c || mem c (lit "/:;=@[\]|").

(** [encodeURIComponent]: everything but the unreserved characters is
    escaped. *)
Definition uri_unreserved (c : ascii) : bool :=
  is_alnum c || mem c (lit "-_.!~*'()").

Definition encodeURIComponent_chars (s : chars) : chars :=
  encode (fun c => negb (uri_unreserved c)) s.

(** *** Schemes *)

Definition lower (c : ascii) : ascii :=
  if is_upper c then ascii_of_nat (code c + 32) else c.

Definition chars_eqb (a b : chars) : bool :=
  String.eqb (string_of_list_ascii a) (string_of_list_ascii b).

Definition default_port (sch : chars) : option N :=
  if chars_eqb sch (lit "ftp") then Some 21%N
  else if chars_eqb sch (lit "http") then Some 80%N
  else if chars_eqb sch (lit "https") then Some 443%N
  else if chars_eqb sch (lit "ws") then Some 80%N
  else if chars_eqb sch (lit "wss") then Some 443%N
  else None.

Definition is_file (sch : chars) : bool := chars_eqb sch (lit "file").

Definition is_special (sch : chars) : bool :=
  match default_port sch with
  | Some _ => true
  | None => is_file sch
  end.

Definition is_scheme_char (c : ascii) : bool :=
  is_alnum c || mem c (lit "+-.").

(** The scheme state: letters, digits, [+], [-], [.] up to a [:]. *)
Fixpoint scheme_rest (s : chars) : option (chars * chars) :=
  match s with
  | [] => None
  | c :: s' =>
      if Ascii.eqb c ":" then Some ([], s')
      else if is_scheme_char c then
        match scheme_rest s' with
        | Some (sch, rest) => Some (lower c :: sch, rest)
        | None => None
        end
      else None
  end.

Definition split_scheme (s : chars) : option (chars * chars) :=
  match s with
  | c :: _ => if is_alpha c then scheme_rest s else None
  | [] => None
  end.

(** *** Cutting the input *)

Definition is_c0_or_space (c : ascii) : bool := code c <=? 32.

Fixpoint drop_while (p : ascii -> bool) (s : chars) : chars :=
  match s with
  | c :: s' => if p c then drop_while p s' else s
  | [] => []
  end.

Definition trim (s : chars) : chars :=
  rev (drop_while is_c0_or_space (rev (drop_while is_c0_or_space s))).

Definition is_tab_or_newline (c : ascii) : bool :=
  mem c ["009"%char; "010"%char; "013"%char].

(** The text before the first character satisfying [d], and the text
    after it when there is one. *)
Fixpoint split_first (d : ascii -> bool) (s : chars) : chars * option chars :=
  match s with
  | [] => ([], None)
  | c :: s' =>
      if d c then ([], Some s')
      else let (a, b) := split_first d s' in (c :: a, b)
  end.

(** The text before the first character satisfying [d], and the text
    from that character on. *)
Fixpoint break (d : ascii -> bool) (s : chars) : chars * chars :=
  match s with
  | [] => ([], [])
  | c :: s' =>
      if d c then ([], s)
      else let (a, b) := break d s' in (c :: a, b)
  end.

(** The pieces between the characters satisfying [d] (at least one). *)
Fixpoint split_on (d : ascii -> bool) (s : chars) : list chars :=
  match s with
  | [] => [[]]
  | c :: s' =>
      if d c then [] :: split_on d s'
      else match split_on d s' with
           | seg :: segs => (c :: seg) :: segs
           | [] => [[c]]
           end
  end.

Definition is_slash (special : bool) (c : ascii) : bool :=
  Ascii.eqb c "/" || (special && Ascii.eqb c "\").

(** *** Paths *)

Definition is_single_dot (seg : chars) : bool :=
  let l := map lower seg in
  chars_eqb l (lit ".") || chars_eqb l (lit "%2e").

Definition is_double_dot (seg : chars) : bool :=
  let l := map lower seg in
  chars_eqb l (lit "..") || chars_eqb l (lit ".%2e")
  || chars_eqb l (lit "%2e.") || chars_eqb l (lit "%2e%2e").

(** The path state, one segment at a time; the last segment is the one
    that ends at the end of the input. *)
Fixpoint path_state (acc : list chars) (segs : list chars) : list chars :=
  match segs with
  | [] => acc
  | seg :: rest =>
      let buf := encode path_set seg in
      let last := match rest with [] => true | _ :: _ => false end in
      let acc' :=
        if is_double_dot buf then
          (if last then removelast acc ++ [[]] else removelast acc)
        else if is_single_dot buf then
          (if last then acc ++ [[]] else acc)
        else acc ++ [buf] in
      path_state acc' rest
  end.

Definition parse_path (special : bool) (acc : list chars) (s : chars)
  : list chars :=
  path_state acc (split_on (is_slash special) s).

(** The path start state: one leading slash is skipped. *)
Definition path_start (special : bool) (s : chars) : list chars :=
  match s with
  | [] => if special then [[]] else []
  | c :: s' =>
      if is_slash special c then parse_path special [] s'
      else parse_path special [] s
  end.

(** *** Authority *)

Definition forbidden_host (c : ascii) : bool :=
  mem c ("000"%char :: "009"%char :: "010"%char :: "013"%char
           :: lit " #/:<>?@[\]^|").

Definition forbidden_domain (c : ascii) : bool :=
  forbidden_host c || (code c <=? 31) || Ascii.eqb c "%"
  || Ascii.eqb c "127".

Definition parse_host (special : bool) (h : chars) : option chars :=
  if special then
    match h with
    | [] => None
    | _ :: _ =>
        if existsb forbidden_domain h || existsb (fun c => 127 <? code c) h
        then None
        else Some (map lower h)
    end
  else if existsb forbidden_host h then None
  else Some (encode c0_set h).

Fixpoint digits_value (acc : N) (s : chars) : N :=
  match s with
  | [] => acc
  | c :: s' => digits_value (10 * acc + N.of_nat (digit_val c))%N s'
  end.

Definition parse_port (sch : chars) (p : option chars)
  : option (option N) :=
  match p with
  | None | Some [] => Some None
  | Some ds =>
      if forallb is_digit ds then
        let v := digits_value 0%N ds in
        if (65535 <? v)%N then None
        else match default_port sch with
             | Some d => if (d =? v)%N then Some None else Some (Some v)
             | None => Some (Some v)
             end
      else None
  end.

(** The credentials are what precedes the last [@]. *)
Definition split_credentials (auth : chars) : option chars * chars :=
  let (h, u) := split_first (Ascii.eqb "@") (rev auth) in
  match u with
  | Some u' => (Some (rev u'), rev h)
  | None => (None, auth)
  end.

Record authority : Type := Authority {
  a_username : chars;
  a_password : chars;
  a_host : chars;
  a_port : option N
}.

Definition parse_authority (sch : chars) (auth : chars) : option authority :=
  let special := is_special sch in
  let (cred, hostport) := split_credentials auth in
  let (h, p) := split_first (Ascii.eqb ":") hostport in
  let (user, pass) :=
    match cred with
    | None => ([], [])
    | Some c =>
        let (u, pw) := split_first (Ascii.eqb ":") c in
        (encode userinfo_set u,
         match pw with Some w => encode userinfo_set w | None => [] end)
    end in
  match cred, hostport with
  | Some _, [] => None
  | _, _ =>
      match h, p with
      | [], Some _ => None
      | _, _ =>
          match parse_host special h, parse_port sch p with
          | Some h', Some p' => Some (Authority user pass h' p')
          | _, _ => None
          end
      end
  end.

Definition encode_query (sch : chars) (q : option chars) : option chars :=
  option_map
    (encode (if is_special sch then special_query_set else query_set)) q.

Definition encode_fragment (f : option chars) : option chars :=
  option_map (encode fragment_set) f.

(** The authority state and what follows it: [s] starts at the
    authority. *)
Definition parse_from_authority (sch : chars) (s : chars)
  (q f : option chars) : option t :=
  let special := is_special sch in
  let (auth, rest) := break (is_slash special) s in
  match parse_authority sch auth with
  | None => None
  | Some a =>
      Some (mk sch (a_username a) (a_password a) (Some (a_host a))
               (a_port a) (Segments (path_start special rest))
               (encode_query sch q) (encode_fragment f))
  end.

(** The relative state and the relative slash state: [s] is a
    reference without scheme, [b] the base. *)
Definition parse_relative (b : t) (s : chars) (q f : option chars)
  : option t :=
  let sch := scheme b in
  let special := is_special sch in
  match path b with
  | Opaque o =>
      match s, q, f with
      | [], None, Some _ =>
          Some (mk sch (username b) (password b) (host b) (port b)
                   (path b) (query b) (encode_fragment f))
      | _, _, _ => None
      end
  | Segments bp =>
      match s with
      | [] =>
          Some (mk sch (username b) (password b) (host b) (port b)
                   (path b)
                   (match q with
                    | Some _ => encode_query sch q
                    | None => query b
                    end)
                   (encode_fragment f))
      | c :: s1 =>
          if is_slash special c then
            match s1 with
            | c2 :: s2 =>
                if is_slash special c2 then
                  parse_from_authority sch
                    (if special then drop_while (is_slash true) s2 else s2)
                    q f
                else
                  Some (mk sch (username b) (password b) (host b) (port b)
                           (Segments (parse_path special [] s1))
                           (encode_query sch q) (encode_fragment f))
            | [] =>
                Some (mk sch (username b) (password b) (host b) (port b)
                         (Segments (parse_path special [] s1))
                         (encode_query sch q) (encode_fragment f))
            end
          else
            Some (mk sch (username b) (password b) (host b) (port b)
                     (Segments (parse_path special (removelast bp) s))
                     (encode_query sch q) (encode_fragment f))
      end
  end.

(** The input without its surrounding blanks and without tabs and
    newlines, cut into the part before the query, the query and the
    fragment. *)
Definition cut (input : chars) : chars * option chars * option chars :=
  let s := filter (fun c => negb (is_tab_or_newline c)) (trim input) in
  let (s1, f) := split_first (Ascii.eqb "#") s in
  let (s2, q) := split_first (Ascii.eqb "?") s1 in
  (s2, q, f).

(** A scheme followed by [//]. *)
Definition has_scheme_and_slashes (input : chars) : bool :=
  match split_scheme (fst (fst (cut input))) with
  | Some (_, rest) => starts_with (lit "//") rest
  | None => false
  end.

(** The basic URL parser. *)
Definition basic_parse (input : chars) (base : option t) : option t :=
  let '(s2, q, f) := cut input in
  match split_scheme s2 with
  | Some (sch, rest) =>
      if is_file sch then None
      else if is_special sch then
        match base with
        | Some b =>
            if chars_eqb (scheme b) sch
               && negb (starts_with (lit "//") rest)
            then parse_relative b rest q f
            else parse_from_authority sch
                   (drop_while (is_slash true) rest) q f
        | None =>
            parse_from_authority sch (drop_while (is_slash true) rest) q f
        end
      else
        match rest with
        | c :: r1 =>
            if Ascii.eqb c "/" then
              match r1 with
              | c2 :: r2 =>
                  if Ascii.eqb c2 "/" then parse_from_authority sch r2 q f
                  else Some (mk sch [] [] None None
                                (Segments (parse_path false [] r1))
                                (encode_query sch q) (encode_fragment f))
              | [] => Some (mk sch [] [] None None
                               (Segments (parse_path false [] r1))
                               (encode_query sch q) (encode_fragment f))
              end
            else Some (mk sch [] [] None None (Opaque (encode c0_set rest))
                          (encode_query sch q) (encode_fragment f))
        | [] => Some (mk sch [] [] None None (Opaque [])
                         (encode_query sch q) (encode_fragment f))
        end
  | None =>
      match base with
      | Some b => if is_file (scheme b) then None else parse_relative b s2 q f
      | None => None
      end
  end.

(** *** Serialisation and the accessors the program uses *)

Fixpoint N_digits (fuel : nat) (n : N) (acc : chars) : chars :=
  match fuel with
  | 0 => acc
  | S fuel' =>
      let d := ascii_of_nat (48 + N.to_nat (n mod 10)%N) in
      if (n <? 10)%N then d :: acc
      else N_digits fuel' (n / 10)%N (d :: acc)
  end.

Definition serialize_port (n : N) : chars := N_digits 20 n [].

Definition serialize_path (p : url_path) : chars :=
  match p with
  | Opaque s => s
  | Segments l => flat_map (fun seg => "/"%char :: seg) l
  end.

Definition pathname_chars (u : t) : chars := serialize_path (path u).

Definition search_chars (u : t) : chars :=
  match query u with
  | None | Some [] => []
  | Some q => "?"%char :: q
  end.

Definition serialize_authority (u : t) : chars :=
  match host u with
  | None => []
  | Some h =>
      lit "//"
        ++ (match username u, password u with
            | [], [] => []
            | user, [] => user ++ lit "@"
            | user, pw => user ++ lit ":" ++ pw ++ lit "@"
            end)
        ++ h
        ++ (match port u with
            | Some p => ":"%char :: serialize_port p
            | None => []
            end)
  end.

Definition href_chars (u : t) : chars :=
  scheme u ++ lit ":"
    ++ serialize_authority u
    ++ (match host u, path u with
        | None, Segments ([] :: _ :: _) => lit "/."
        | _, _ => []
        end)
    ++ serialize_path (path u)
    ++ (match query u with Some q => "?"%char :: q | None => [] end)
    ++ (match fragment u with Some f => "#"%char :: f | None => [] end).

(** The [pathname] setter: nothing happens on an opaque path; otherwise
    the path is emptied and the value parsed from the path start state
    (where [?] and [#] are ordinary characters, escaped like the
    rest). *)
Definition set_pathname_chars (v : chars) (u : t) : t :=
  match path u with
  | Opaque _ => u
  | Segments _ =>
      let special := is_special (scheme u) in
      let p :=
        match v with
        | [] =>
            if special then [[]]
            else match host u with None => [[]] | Some _ => [] end
        | _ :: _ => path_start special v
        end in
      mk (scheme u) (username u) (password u) (host u) (port u)
         (Segments p) (query u) (fragment u)
  end.

(** The [search] setter with the empty string: the query becomes null,
    and an opaque path loses its trailing spaces when the url has no
    fragment either. *)
Definition strip_trailing_spaces (s : chars) : chars :=
  rev (drop_while (Ascii.eqb " ") (rev s)).

Definition clear_search (u : t) : t :=
  mk (scheme u) (username u) (password u) (host u) (port u)
     (match path u, fragment u with
      | Opaque o, None => Opaque (strip_trailing_spaces o)
      | p, _ => p
      end)
     None (fragment u).

End URL.

(** ** JavaScript values and completions *)

Inductive js_value : Type :=
| JNull
| JUndefined
| JString (s : string).

Inductive js_error : Type :=
| TypeError (msg : string).

Inductive completion (A : Type) : Type :=
| Return (v : A)
| Throw (e : js_error).

Arguments Return {A} v.
Arguments Throw {A} e.

Definition bind {A B : Type} (c : completion A) (f : A -> completion B)
  : completion B :=
  match c with
  | Return v => f v
  | Throw e => Throw e
  end.

Notation "'let*' x ':=' c 'in' k" := (bind c (fun x => k))
  (at level 10, x name, c at level 100, k at level 200).

(** [new URL(url)] and [new URL(url, base)]: a [TypeError] when the base
    or the URL does not parse. *)
Definition new_URL (url : string) (base : option string)
  : completion URL.t :=
  match base with
  | None =>
      match URL.basic_parse (list_ascii_of_string url) None with
      | Some u => Return u
      | None => Throw (TypeError "Invalid URL")
      end
  | Some b =>
      match URL.basic_parse (list_ascii_of_string b) None with
      | None => Throw (TypeError "Invalid base URL")
      | Some bu =>
          match URL.basic_parse (list_ascii_of_string url) (Some bu) with
          | Some u => Return u
          | None => Throw (TypeError "Invalid URL")
          end
      end
  end.

Definition toString (u : URL.t) : string :=
  string_of_list_ascii (URL.href_chars u).

Definition search (u : URL.t) : string :=
  string_of_list_ascii (URL.search_chars u).

Definition pathname (u : URL.t) : string :=
  string_of_list_ascii (URL.pathname_chars u).

Definition set_pathname (v : string) (u : URL.t) : URL.t :=
  URL.set_pathname_chars (list_ascii_of_string v) u.

Definition encodeURIComponent (s : string) : string :=
  string_of_list_ascii (URL.encodeURIComponent_chars (list_ascii_of_string s)).

Definition startsWith (s p : string) : bool := String.prefix p s.

(** [s.substring(n)] *)
Definition substring_from (n : nat) (s : string) : string :=
  String.substring n (String.length s - n) s.

(** ** The rewrite function *)

Record context : Type := Context {
  current_url : string;
  orig_host : string;
  orig_scheme : string;
  orig_url : string;
  prefix : string
}.

Definition passthrough_prefixes : list string :=
  ["#"; "about:"; "data:"; "blob:"; "mailto:"; "javascript:"; "{"; "*"].

(** [/^\w+:?\/\//i]; the [i] flag changes nothing for [\w], [:] and
    [/]. *)
Definition scheme_re : regex :=
  Bol ;; Plus true (Chr is_word) ;; Opt (Lit ":") ;; Str "//".

(** The early returns of [urlRewriteFunction]: the url is handed back
    untouched. *)
Definition passthrough (ctx : context) (url : string) : bool :=
  String.eqb url ""
  || startsWith url (orig_host ctx)
  || existsb (startsWith url) passthrough_prefixes.

Definition absolute_url (ctx : context) (url : string) : completion string :=
  if startsWith url "//" then Return (orig_scheme ctx ++ url)%string
  else if startsWith url "/" then
    let* u := new_URL url (Some (orig_url ctx)) in Return (toString u)
  else
    let* u := new_URL url (Some (current_url ctx)) in Return (toString u).

Definition entry_path (ctx : context) (absolute : string) : string :=
  if startsWith absolute (prefix ctx)
  then substring_from (String.length (prefix ctx)) absolute
  else replace scheme_re "" absolute.

Definition fold_query (u : URL.t) : URL.t :=
  if negb (String.eqb (search u) "") then
    URL.clear_search
      (set_pathname (pathname u ++ encodeURIComponent (search u))%string u)
  else u.

Definition reassemble (ctx : context) (reduced_path : string)
  : completion string :=
  let* final_url := new_URL (prefix ctx ++ reduced_path)%string None in
  Return (toString (fold_query final_url)).

(** From the absolute url on: entry path, reduction, reassembly. *)
Definition from_absolute (ctx : context) (absolute : string)
  : completion string :=
  let reduced_path := reduce (entry_path ctx absolute) in
  reassemble ctx reduced_path.

Definition rewrite_string (ctx : context) (url : string)
  : completion string :=
  let* absolute := absolute_url ctx url in
  from_absolute ctx absolute.

Definition urlRewriteFunction (ctx : context)
  (url useRel mod_ doc : js_value) : completion js_value :=
  match url with
  | JNull | JUndefined => Return url
  | JString s =>
      if passthrough ctx s then Return url
      else let* r := rewrite_string ctx s in Return (JString r)
  end.

(** ** The configuration handed to wombat *)

Module WbInfo.

(** The [wbinfo] object; [wombat_opts] is an object without keys. *)
Record t : Type := mk {
  rewrite_function :
    js_value -> js_value -> js_value -> js_value -> completion js_value;
  top_url : string;
  url : string;
  timestamp : string;
  request_ts : string;
  prefix : string;
  mod_ : string;
  is_framed : bool;
  is_live : bool;
  coll : string;
  proxy_magic : string;
  static_prefix : string;
  wombat_ts : string;
  wombat_sec : nat;
  wombat_scheme : string;
  wombat_host : string;
  wombat_opts : list (string * js_value);
  enable_auto_fetch : bool;
  convert_post_to_get : bool;
  target_frame : string;
  isSW : bool
}.

End WbInfo.

Definition getWombatInfo
  (current_url orig_host orig_scheme orig_url prefix : string) : WbInfo.t :=
  WbInfo.mk
    (urlRewriteFunction
       (Context current_url orig_host orig_scheme orig_url prefix))
    current_url
    orig_url
    ""
    ""
    prefix
    ""
    false
    false
    ""
    ""
    (prefix ++ "_zim_static/")
    ""
    0
    orig_scheme
    orig_host
    []
    true
    true
    "___wb_replay_top_frame"
    true.

(** ** Declarative matching

    [Matches r st st'] holds when [r] can match from position [st] to
    position [st'], whatever the priorities; the matcher finds a match
    when there is one, and only returns matches. *)

Inductive Matches : regex -> mstate -> mstate -> Prop :=
| M_Eps st : Matches Eps st st
| M_Chr p c b a cs :
    p c = true -> Matches (Chr p) (MState b (c :: a) cs) (MState (c :: b) a cs)
| M_Seq r1 r2 st st1 st2 :
    Matches r1 st st1 -> Matches r2 st1 st2 -> Matches (Seq r1 r2) st st2
| M_AltL r1 r2 st st1 : Matches r1 st st1 -> Matches (Alt r1 r2) st st1
| M_AltR r1 r2 st st1 : Matches r2 st st1 -> Matches (Alt r1 r2) st st1
| M_Star0 g r st : Matches (Star g r) st st
| M_StarS g r st st1 st2 :
    Matches r st st1 -> progress st st1 = true ->
    Matches (Star g r) st1 st2 -> Matches (Star g r) st st2
| M_Group n r st st1 :
    Matches r st st1 ->
    Matches (Group n r) st (set_cap n (consumed st st1) st1)
| M_Behind p c b a cs :
    p c = true ->
    Matches (Behind p) (MState (c :: b) a cs) (MState (c :: b) a cs)
| M_Bol a cs : Matches Bol (MState [] a cs) (MState [] a cs)
| M_Eol b cs : Matches Eol (MState b [] cs) (MState b [] cs).

Definition all_ascii : chars := map ascii_of_nat (seq 0 256).

(** The class [p] accepts no other character than [c]. *)
Definition only_char (c : ascii) (p : ascii -> bool) : bool :=
  forallb (fun x => implb (p x) (Ascii.eqb x c)) all_ascii.

(** Every text matched by [r] contains the character [c]. *)
Fixpoint needs (c : ascii) (r : regex) : bool :=
  match r with
  | Chr p => only_char c p
  | Seq r1 r2 => needs c r1 || needs c r2
  | Alt r1 r2 => needs c r1 && needs c r2
  | Group _ r1 => needs c r1
  | _ => false
  end.

(** Every text matched by [r] contains [c1] and, further on, [c2]. *)
Fixpoint needs_then (c1 c2 : ascii) (r : regex) : bool :=
  match r with
  | Seq r1 r2 =>
      (needs c1 r1 && needs c2 r2) || needs_then c1 c2 r1
      || needs_then c1 c2 r2
  | Alt r1 r2 => needs_then c1 c2 r1 && needs_then c1 c2 r2
  | Group _ r1 => needs_then c1 c2 r1
  | _ => false
  end.

Definition string_forall (f : ascii -> bool) (s : string) : bool :=
  forallb f (list_ascii_of_string s).

(** ** Vocabulary of the properties *)

(** The text a match runs over, with the characters it must contain. *)
Definition spans (r : regex) (st st' : mstate) (w : chars) : Prop :=
  after st = w ++ after st' /\ before st' = rev w ++ before st
  /\ (forall c, needs c r = true -> In c w)
  /\ (forall c1 c2, needs_then c1 c2 r = true ->
        exists x y z, w = x ++ c1 :: y ++ c2 :: z).

(** The remaining subject does not go on with a character of the
    class [p]. *)
Definition stops (p : ascii -> bool) (a : chars) : Prop :=
  match a with
  | [] => True
  | c :: _ => p c = false
  end.

(** The embed forms: what the embed rule reads and what it writes. *)
Definition embed_source : string := "www.youtube.com/embed/".
Definition embed_canon : string := "youtube.fuzzy.replayweb.page/embed/".

(** The canonical forms of rules 1, 2, 5 and 6, 7 and 8: the constant
    text a template writes, with the characters of a plain variable
    part (an id without [?], [&] and [/]; the digits, slashes and
    [.mp4] of a video file; the digits of a video number). *)
Definition canonical_forms : list (string * (ascii -> bool)) :=
  [("youtube.fuzzy.replayweb.page/videoplayback?id=", noneof "?&/");
   ("youtube.fuzzy.replayweb.page/get_video_info?video_id=", noneof "?&/");
   ("youtube.fuzzy.replayweb.page/embed/", noneof "?&/");
   ("vimeo-cdn.fuzzy.replayweb.page/",
    fun c => is_digit c || oneof "/.mp4" c);
   ("vimeo.fuzzy.replayweb.page/video/", is_digit)].

(** The canonical form of rule 4 has two variable parts: the template
    [youtube.fuzzy.replayweb.page/$1?$2] writes the path under
    [youtubei/] and, after a [?], the text from [videoId] on. *)
Definition youtubei_canon : string :=
  "youtube.fuzzy.replayweb.page/youtubei/v1/".

(** The canonical forms with a plain variable part: those of
    [canonical_forms], and that of rule 4 with the name of an endpoint
    under [youtubei/v1/] and the text after [videoId], both without
    [?], [&] and [/]. *)
Inductive canonical_form : string -> Prop :=
| canonical_simple (P : string) (allowed : ascii -> bool) (v : string) :
    In (P, allowed) canonical_forms ->
    string_forall allowed v = true ->
    canonical_form (P ++ v)
| canonical_youtubei (name v : string) :
    string_forall (noneof "?&/") name = true ->
    string_forall (noneof "?&/") v = true ->
    canonical_form (youtubei_canon ++ name ++ "?videoId" ++ v).

(** The characters of a percent escape. *)
Definition pct_char (c : ascii) : bool :=
  mem c (URL.lit "%0123456789ABCDEF").

(** A character that may stay in a path segment. *)
Definition path_char (special : bool) (c : ascii) : bool :=
  negb (URL.is_slash special c) && negb (URL.path_set c).

Definition is_dot (seg : chars) : bool :=
  URL.is_single_dot seg || URL.is_double_dot seg.

Definition seg_ok (special : bool) (seg : chars) : bool :=
  forallb (path_char special) seg && negb (is_dot seg).

(** The urls the parser produces: segments without separators, with the
    characters of the path percent-encode set escaped, and no dot
    segment; an opaque path only under a scheme that is not special. *)
Definition wf (u : URL.t) : Prop :=
  match URL.path u with
  | URL.Segments l =>
      forallb (seg_ok (URL.is_special (URL.scheme u))) l = true
  | URL.Opaque _ => URL.is_special (URL.scheme u) = false
  end.

(** The characters of a scheme and of [://]: the cutting of the input
    leaves them where they are. *)
Definition kept_char (c : ascii) : bool :=
  negb (URL.is_c0_or_space c) && negb (URL.is_tab_or_newline c)
  && negb (Ascii.eqb "#" c) && negb (Ascii.eqb "?" c).


Definition no_sep (d : ascii -> bool) (s : chars) : bool :=
  forallb (fun c => negb (d c)) s.

(** A character that is neither [?] nor [#]. *)
Definition plain_char (c : ascii) : bool :=
  negb (Ascii.eqb c "?") && negb (Ascii.eqb c "#").

(** The parts of a url before its query are free of [?] and [#]. *)
Definition plain_url (u : URL.t) : Prop :=
  forallb plain_char (URL.scheme u) = true
  /\ forallb plain_char (URL.username u) = true
  /\ forallb plain_char (URL.password u) = true
  /\ match URL.host u with
     | Some h => forallb plain_char h = true
     | None => True
     end
  /\ forallb plain_char (URL.serialize_path (URL.path u)) = true.

(** A query text that rule 3 does not take for a cache-buster: empty, or
    with a character that is not a digit. *)
Definition not_numeric (q : string) : Prop :=
  q = ""%string \/ string_forall is_digit q = false.

(** The constant texts of the vimeo player rule. *)
Definition vimeo_source : string := "player.vimeo.com/video/".
Definition vimeo_canon : string := "vimeo.fuzzy.replayweb.page/video/".

(** The constant texts of the videoplayback rule. *)
Definition videoplayback_source : string := "googlevideo.com/videoplayback?".
Definition videoplayback_canon : string :=
  "youtube.fuzzy.replayweb.page/videoplayback?id=".

(** A character of a host name or of a query as the rules see them:
    neither a [/] nor a line terminator. *)
Definition flat_char (c : ascii) : bool :=
  negb (Ascii.eqb c "/") && negb (is_line_terminator c).

(** The vimeo file rule: its host names, the class of its group, and
    its canonical text. *)
Definition cdn_hosts : list string := ["gcs-vimeo"; "vod"; "vod-progressive"].

Definition digit_or_slash (c : ascii) : bool := is_digit c || Ascii.eqb c "/".

Definition cdn_canon : string := "vimeo-cdn.fuzzy.replayweb.page/".

(** [s] is empty or its last character is neither a digit nor a [/]. *)
Definition ends_outside_number (s : string) : Prop :=
  s = ""%string
  \/ exists s' z, s = (s' ++ String z "")%string /\ digit_or_slash z = false.

(** The constant texts of the get_video_info rule. *)
Definition video_info_source : string := "/get_video_info?".
Definition video_info_canon : string :=
  "youtube.fuzzy.replayweb.page/get_video_info?video_id=".

(** The host names the youtube rules accept. *)
Definition youtube_hosts : list string :=
  ["youtube.com"; "www.youtube.com";
   "youtube-nocookie.com"; "www.youtube-nocookie.com"].

(** [pat] occurs somewhere in [s]. *)
Fixpoint occurs (pat s : chars) : bool :=
  starts_with pat s
  || match s with
     | [] => false
     | _ :: s' => occurs pat s'
     end.

(** [s] ends with [pat]. *)
Definition ends_with (pat s : string) : bool :=
  starts_with (rev (list_ascii_of_string pat)) (rev (list_ascii_of_string s)).

(** After the text [x] the host name [host] is whole, it is all that a
    youtube rule reads as the host name: [x] does not end in [www.],
    unless [host] has a [www.] of its own. *)
Definition whole_host (x host : string) : bool :=
  negb (ends_with "www." x) || String.prefix "www." host.

(** A character that is neither [?] nor a line terminator. *)
Definition no_query_char (c : ascii) : bool :=
  noneof "?" c && negb (is_line_terminator c).

(** [s] is empty or ends with [c]; [s] is empty or starts with [c]. *)
Definition empty_or_ends (c : ascii) (s : string) : Prop :=
  s = ""%string \/ exists s', s = (s' ++ String c "")%string.

Definition empty_or_starts (c : ascii) (s : string) : Prop :=
  s = ""%string \/ exists s', s = String c s'.

(** ** Scenarios *)

Definition ctx_relative_prefix : context :=
  Context "https://example.com/v" "https://example.com" "https:"
          "https://example.com/v" "/archive/20230101/".

Definition ctx_absolute_prefix : context :=
  Context "https://example.com/v" "https://example.com" "https:"
          "https://example.com/v" "https://replay.example/archive/20230101/".

(** A serving prefix that is a scheme which is not special: the
    reassembled url has an opaque path. *)
Definition ctx_opaque_prefix : context :=
  Context "https://example.com/v" "https://example.com" "https:"
          "https://example.com/v" "abc:".

(** A path for each of the eight rules. *)
Definition rule_samples : list string :=
  ["r1.googlevideo.com/videoplayback?id=abc123&itag=22";
   "www.youtube.com/get_video_info?a=1&video_id=zz&b=2";
   "example.com/style.css?1234";
   "www.youtube.com/youtubei/v1/player?key=1&videoId=abc&x=2";
   "www.youtube-nocookie.com/embed/dQw4w9WgXcQ?autoplay=1";
   "youtube.fuzzy.replayweb.page/embed/dQw4w9WgXcQ?autoplay=1";
   "gcs-vimeo.akamaized.net/exp=1/~hmac/123/456/789.mp4";
   "player.vimeo.com/video/12345?h=abc"].

(** An entry of the archive that no rule changes. *)
Definition stored_entry : string := "example.com/img/logo.png".

(** * Properties *)

(** ** The matcher and the declarative semantics *)

Lemma orelse_some (A : Type) (a b : option A) (x : A) :
  orelse a b = Some x -> a = Some x \/ (a = None /\ b = Some x).
Proof. destruct a; simpl; intros H; [left | right]; auto. Qed.

Lemma orelse_none (A : Type) (a b : option A) :
  orelse a b = None <-> a = None /\ b = None.
Proof. destruct a; simpl; split; intros; intuition congruence. Qed.

Lemma star_loop_sound body g k r :
  (forall st k' res, body st k' = Some res ->
     exists st', Matches r st st' /\ k' st' = Some res) ->
  forall fuel st res,
    star_loop body g k fuel st = Some res ->
    exists st', Matches (Star g r) st st' /\ k st' = Some res.
Proof.
  intros Hbody fuel.
  induction fuel as [|fuel IH]; intros st res H; simpl in H.
  - exists st. split; [constructor | assumption].
  - assert (Hcases :
      body st (fun st1 => if progress st st1
                          then star_loop body g k fuel st1 else None)
        = Some res \/ k st = Some res).
    { destruct g; apply orelse_some in H; intuition. }
    destruct Hcases as [Hagain | Hk].
    + apply Hbody in Hagain. destruct Hagain as (st1 & Hm & Hk1).
      destruct (progress st st1) eqn:Hp; [|discriminate].
      apply IH in Hk1. destruct Hk1 as (st2 & Hs & Hk2).
      exists st2. split; [|assumption].
      eapply M_StarS; eauto.
    + exists st. split; [constructor | assumption].
Qed.

Lemma m_sound r : forall st k res,
  m r st k = Some res -> exists st', Matches r st st' /\ k st' = Some res.
Proof.
  induction r as [|p|r1 IH1 r2 IH2|r1 IH1 r2 IH2|g r IH|n r IH|p| |];
    intros st k res H; simpl in H.
  - exists st. split; [constructor | assumption].
  - destruct st as [b a cs]. simpl in H.
    destruct a as [|c a]; [discriminate|].
    destruct (p c) eqn:Hp; [|discriminate].
    eexists. split; [constructor; eassumption | assumption].
  - apply IH1 in H. destruct H as (st1 & H1 & H).
    apply IH2 in H. destruct H as (st2 & H2 & H).
    exists st2. split; [econstructor; eauto | assumption].
  - apply orelse_some in H. destruct H as [H | [_ H]].
    + apply IH1 in H. destruct H as (st1 & H1 & H).
      exists st1. split; [apply M_AltL; assumption | assumption].
    + apply IH2 in H. destruct H as (st1 & H1 & H).
      exists st1. split; [apply M_AltR; assumption | assumption].
  - eapply star_loop_sound; eauto.
  - apply IH in H. destruct H as (st1 & H1 & H).
    eexists. split; [constructor; eassumption | assumption].
  - destruct st as [b a cs]. simpl in H.
    destruct b as [|c b]; [discriminate|].
    destruct (p c) eqn:Hp; [|discriminate].
    eexists. split; [constructor; eassumption | assumption].
  - destruct st as [b a cs]. simpl in H.
    destruct b; [|discriminate].
    eexists. split; [constructor | assumption].
  - destruct st as [b a cs]. simpl in H.
    destruct a; [|discriminate].
    eexists. split; [constructor | assumption].
Qed.

(** Two continuations that agree give the same result. *)
Lemma star_loop_ext body g k1 k2 :
  (forall st ka kb, (forall x, ka x = kb x) -> body st ka = body st kb) ->
  (forall x, k1 x = k2 x) ->
  forall fuel st, star_loop body g k1 fuel st = star_loop body g k2 fuel st.
Proof.
  intros Hbody Hk fuel.
  induction fuel as [|fuel IH]; intros st; simpl.
  - apply Hk.
  - rewrite (Hk st).
    rewrite (Hbody st _ (fun st1 => if progress st st1
                                    then star_loop body g k2 fuel st1
                                    else None)).
    + reflexivity.
    + intros x. destruct (progress st x); auto.
Qed.

Lemma m_ext r : forall st k1 k2,
  (forall x, k1 x = k2 x) -> m r st k1 = m r st k2.
Proof.
  induction r as [|p|r1 IH1 r2 IH2|r1 IH1 r2 IH2|g r IH|n r IH|p| |];
    intros st k1 k2 Hk; simpl; auto.
  - destruct (after st); auto. destruct (p a); auto.
  - rewrite (IH1 st k1 k2 Hk), (IH2 st k1 k2 Hk). reflexivity.
  - apply star_loop_ext; auto.
  - destruct (before st); auto. destruct (p a); auto.
  - destruct (before st); auto.
  - destruct (after st); auto.
Qed.

(** A matcher whose continuation always fails, fails. *)
Lemma m_fail r st k : (forall x, k x = None) -> m r st k = None.
Proof.
  intros Hk. destruct (m r st k) eqn:H; [|reflexivity].
  apply m_sound in H. destruct H as (st' & _ & H).
  rewrite Hk in H. discriminate.
Qed.

(** The fuel of the loop only needs to cover the remaining subject. *)
Lemma star_loop_fuel r g k : forall f1 f2 st,
  length (after st) <= f1 -> length (after st) <= f2 ->
  star_loop (m r) g k f1 st = star_loop (m r) g k f2 st.
Proof.
  induction f1 as [|f1 IH]; intros f2 st H1 H2.
  - destruct f2 as [|f2]; [reflexivity|]. simpl.
    rewrite (m_fail r st).
    + destruct g, (k st); reflexivity.
    + intros x. unfold progress.
      destruct (Nat.ltb_spec (length (after x)) (length (after st))); auto.
      lia.
  - destruct f2 as [|f2].
    + simpl. rewrite (m_fail r st).
      * destruct g, (k st); reflexivity.
      * intros x. unfold progress.
        destruct (Nat.ltb_spec (length (after x)) (length (after st))); auto.
        lia.
    + simpl.
      rewrite (m_ext r st _ (fun st1 => if progress st st1
                                then star_loop (m r) g k f2 st1 else None)).
      * reflexivity.
      * intros x. unfold progress.
        destruct (Nat.ltb_spec (length (after x)) (length (after st)));
          auto.
        apply IH; lia.
Qed.

Lemma m_complete r st st' :
  Matches r st st' ->
  forall k, k st' <> None -> m r st k <> None.
Proof.
  induction 1 as [st|p c b a cs Hp|r1 r2 st st1 st2 H1 IH1 H2 IH2
                 |r1 r2 st st1 H1 IH1|r1 r2 st st1 H1 IH1
                 |g r st|g r st st1 st2 H1 IH1 Hp H2 IH2
                 |n r st st1 H1 IH1|p c b a cs Hp|a cs|b cs];
    intros k Hk; simpl.
  - assumption.
  - rewrite Hp. assumption.
  - apply IH1. apply IH2. assumption.
  - intros Hn. apply orelse_none in Hn. destruct Hn as [Hn _].
    revert Hn. apply IH1. assumption.
  - intros Hn. apply orelse_none in Hn. destruct Hn as [_ Hn].
    revert Hn. apply IH1. assumption.
  - destruct (length (after st)); simpl; [assumption|].
    destruct g; intros Hn; apply orelse_none in Hn; intuition.
  - unfold progress in Hp. apply Nat.ltb_lt in Hp.
    destruct (length (after st)) as [|n] eqn:Hlen; [lia|]. simpl.
    assert (Hagain :
      m r st (fun x => if progress st x
                       then star_loop (m r) g k n x else None) <> None).
    { apply IH1. unfold progress. rewrite Hlen.
      destruct (Nat.ltb_spec (length (after st1)) (S n)); [|lia].
      rewrite (star_loop_fuel r g k n (length (after st1)) st1) by lia.
      apply (IH2 k Hk). }
    destruct g; intros Hn; apply orelse_none in Hn; intuition.
  - apply IH1. assumption.
  - rewrite Hp. assumption.
  - assumption.
  - assumption.
Qed.

(** ** What a match consumes *)

Lemma all_ascii_complete (x : ascii) : In x all_ascii.
Proof.
  unfold all_ascii. rewrite <- (ascii_nat_embedding x).
  apply in_map. apply in_seq. pose proof (nat_ascii_bounded x). lia.
Qed.

Lemma ascii_forall (P : ascii -> bool) :
  forallb P all_ascii = true -> forall c, P c = true.
Proof.
  intros H c. rewrite forallb_forall in H. apply H.
  apply all_ascii_complete.
Qed.

Lemma only_char_spec c p x : only_char c p = true -> p x = true -> x = c.
Proof.
  unfold only_char. rewrite forallb_forall. intros H Hp.
  specialize (H x (all_ascii_complete x)). rewrite Hp in H. simpl in H.
  apply Ascii.eqb_eq. assumption.
Qed.

Lemma Matches_spans r st st' :
  Matches r st st' -> exists w, spans r st st' w.
Proof.
  unfold spans.
  induction 1 as [st|p c b a cs Hp|r1 r2 st st1 st2 H1 IH1 H2 IH2
                 |r1 r2 st st1 H1 IH1|r1 r2 st st1 H1 IH1
                 |g r st|g r st st1 st2 H1 IH1 Hp H2 IH2
                 |n r st st1 H1 IH1|p c b a cs Hp|a cs|b cs];
    simpl.
  - exists []. repeat split; try (intros; discriminate).
  - exists [c]. repeat split; try (intros; discriminate).
    intros c0 Hc. left. eapply only_char_spec; eauto.
  - destruct IH1 as (w1 & Ha1 & Hb1 & Hn1 & Ht1).
    destruct IH2 as (w2 & Ha2 & Hb2 & Hn2 & Ht2).
    exists (w1 ++ w2). repeat split.
    + rewrite Ha1, Ha2. rewrite app_assoc. reflexivity.
    + rewrite Hb2, Hb1. rewrite rev_app_distr, app_assoc. reflexivity.
    + intros c Hc. apply in_or_app. apply orb_true_iff in Hc.
      destruct Hc; [left | right]; auto.
    + intros c1 c2 Hc. apply orb_true_iff in Hc.
      destruct Hc as [Hc | Hc]; [apply orb_true_iff in Hc;
                                 destruct Hc as [Hc | Hc]|].
      * apply andb_true_iff in Hc. destruct Hc as [Hc1 Hc2].
        apply Hn1 in Hc1. apply Hn2 in Hc2.
        apply in_split in Hc1. destruct Hc1 as (x & y & ->).
        apply in_split in Hc2. destruct Hc2 as (y' & z & ->).
        exists x, (y ++ y'), z.
        repeat (rewrite <- app_assoc; simpl). reflexivity.
      * destruct (Ht1 _ _ Hc) as (x & y & z & ->).
        exists x, y, (z ++ w2).
        repeat (rewrite <- app_assoc; simpl). reflexivity.
      * destruct (Ht2 _ _ Hc) as (x & y & z & ->).
        exists (w1 ++ x), y, z.
        repeat (rewrite <- app_assoc; simpl). reflexivity.
  - destruct IH1 as (w1 & Ha1 & Hb1 & Hn1 & Ht1).
    exists w1. repeat split; auto.
    + intros c Hc. apply andb_true_iff in Hc. apply Hn1. tauto.
    + intros c1 c2 Hc. apply andb_true_iff in Hc. apply Ht1. tauto.
  - destruct IH1 as (w1 & Ha1 & Hb1 & Hn1 & Ht1).
    exists w1. repeat split; auto.
    + intros c Hc. apply andb_true_iff in Hc. apply Hn1. tauto.
    + intros c1 c2 Hc. apply andb_true_iff in Hc. apply Ht1. tauto.
  - exists []. repeat split; try (intros; discriminate).
  - destruct IH1 as (w1 & Ha1 & Hb1 & _).
    destruct IH2 as (w2 & Ha2 & Hb2 & _).
    exists (w1 ++ w2). repeat split; try (intros; discriminate).
    + rewrite Ha1, Ha2. rewrite app_assoc. reflexivity.
    + rewrite Hb2, Hb1. rewrite rev_app_distr, app_assoc. reflexivity.
  - destruct IH1 as (w1 & Ha1 & Hb1 & Hn1 & Ht1).
    exists w1. repeat split; auto.
  - exists []. repeat split; try (intros; discriminate).
  - exists []. repeat split; try (intros; discriminate).
  - exists []. repeat split; try (intros; discriminate).
Qed.

Lemma spans_consumed r st st' w : spans r st st' w -> consumed st st' = w.
Proof.
  intros (Ha & _). unfold consumed. rewrite Ha.
  rewrite length_app.
  replace (length w + length (after st') - length (after st'))
    with (length w + 0) by lia.
  rewrite firstn_app_2. simpl. apply app_nil_r.
Qed.

(** ** [exec] and the declarative semantics *)

Lemma exec_from_sound r : forall rest pre res,
  exec_from r pre rest = Some res ->
  exists skipped rest' st',
    rest = skipped ++ rest'
    /\ mr_pre res = rev skipped ++ pre
    /\ Matches r (MState (rev skipped ++ pre) rest' []) st'
    /\ mr_matched res = consumed (MState (rev skipped ++ pre) rest' []) st'
    /\ mr_post res = after st'
    /\ mr_caps res = caps st'.
Proof.
  induction rest as [|c rest IH]; intros pre res H; simpl in H.
  - destruct (m r (MState pre [] []) Some) as [st|] eqn:Hm; [|discriminate].
    injection H as <-. apply m_sound in Hm.
    destruct Hm as (st' & Hm & [= ->]).
    exists [], [], st. simpl. repeat split; auto.
  - destruct (m r (MState pre (c :: rest) []) Some) as [st|] eqn:Hm.
    + injection H as <-. apply m_sound in Hm.
      destruct Hm as (st' & Hm & [= ->]).
      exists [], (c :: rest), st. simpl. repeat split; auto.
    + apply IH in H.
      destruct H as (skipped & rest' & st' & -> & Hpre & Hm' & Hrest).
      exists (c :: skipped), rest', st'. simpl.
      rewrite <- app_assoc. simpl. repeat split; auto; tauto.
Qed.

Lemma exec_from_complete r : forall skipped pre rest' st',
  Matches r (MState (rev skipped ++ pre) rest' []) st' ->
  exec_from r pre (skipped ++ rest') <> None.
Proof.
  induction skipped as [|c skipped IH]; intros pre rest' st' H; simpl in *.
  - pose proof (m_complete _ _ _ H Some) as Hc.
    destruct rest'; simpl;
      destruct (m r _ Some); try discriminate; exfalso; apply Hc;
      try discriminate; reflexivity.
  - destruct (m r (MState pre (c :: skipped ++ rest') []) Some);
      [discriminate|].
    apply (IH (c :: pre) rest' st').
    rewrite <- app_assoc in H. exact H.
Qed.

Lemma exec_sound r s res :
  exec r s = Some res ->
  exists skipped rest' st' w,
    s = skipped ++ rest'
    /\ mr_pre res = rev skipped
    /\ Matches r (MState (rev skipped) rest' []) st'
    /\ spans r (MState (rev skipped) rest' []) st' w
    /\ mr_matched res = w
    /\ mr_post res = after st'
    /\ mr_caps res = caps st'.
Proof.
  intros H. apply exec_from_sound in H.
  destruct H as (skipped & rest' & st' & Hs & Hpre & Hm & Hmat & Hpost & Hc).
  rewrite app_nil_r in *.
  destruct (Matches_spans _ _ _ Hm) as (w & Hw).
  exists skipped, rest', st', w. rewrite Hmat.
  rewrite (spans_consumed _ _ _ _ Hw). repeat split; auto; apply Hw.
Qed.

Lemma exec_complete r skipped rest' st' :
  Matches r (MState (rev skipped) rest' []) st' ->
  exec r (skipped ++ rest') <> None.
Proof.
  intros H. unfold exec. apply exec_from_complete with (st' := st').
  rewrite app_nil_r. exact H.
Qed.

(** ** When no match is possible *)

Lemma replace_no_match r t s :
  exec r (list_ascii_of_string s) = None -> replace r t s = s.
Proof.
  intros H. unfold replace, replace_chars. rewrite H.
  apply string_of_list_ascii_of_string.
Qed.

Lemma exec_needs r c s :
  needs c r = true -> ~ In c s -> exec r s = None.
Proof.
  intros Hn Hc. destruct (exec r s) as [res|] eqn:H; [|reflexivity].
  exfalso. apply exec_sound in H.
  destruct H as (skipped & rest' & st' & w & -> & _ & _ & Hw & _).
  destruct Hw as (Ha & _ & Hin & _). simpl in Ha.
  apply Hc. apply in_or_app. right. rewrite Ha.
  apply in_or_app. left. apply Hin. assumption.
Qed.

Lemma app_cons_split (c : ascii) : forall l1 l2 P v,
  l1 ++ c :: l2 = P ++ v -> ~ In c v ->
  exists l2', P = l1 ++ c :: l2'.
Proof.
  induction l1 as [|a l1 IH]; intros l2 P v H Hc.
  - destruct P as [|b P]; simpl in H.
    + exfalso. apply Hc. rewrite <- H. left. reflexivity.
    + injection H as -> _. exists P. reflexivity.
  - destruct P as [|b P]; simpl in H.
    + exfalso. apply Hc. rewrite <- H. right.
      apply in_or_app. right. left. reflexivity.
    + injection H as -> H. apply IH in H; [|assumption].
      destruct H as (l2' & ->). exists l2'. reflexivity.
Qed.

Lemma exec_needs_then r c1 c2 P v :
  needs_then c1 c2 r = true -> ~ In c1 P -> ~ In c2 v ->
  exec r (P ++ v) = None.
Proof.
  intros Hn H1 H2. destruct (exec r (P ++ v)) as [res|] eqn:H; [|reflexivity].
  exfalso. apply exec_sound in H.
  destruct H as (skipped & rest' & st' & w & Hs & _ & _ & Hw & _).
  destruct Hw as (Ha & _ & _ & Ht). simpl in Ha.
  destruct (Ht _ _ Hn) as (x & y & z & ->).
  rewrite Ha in Hs.
  assert (Hs' : (skipped ++ x ++ c1 :: y) ++ c2 :: (z ++ after st') = P ++ v).
  { rewrite Hs. repeat (rewrite <- app_assoc; simpl). reflexivity. }
  apply app_cons_split in Hs'; [|assumption].
  destruct Hs' as (l2' & ->). apply H1.
  apply in_or_app. left. apply in_or_app. right.
  apply in_or_app. right. left. reflexivity.
Qed.

(** ** Literals and repeated classes *)

Lemma consumed_app b b' w a cs cs' :
  consumed (MState b (w ++ a) cs) (MState b' a cs') = w.
Proof.
  unfold consumed. simpl. rewrite length_app.
  replace (length w + length a - length a) with (length w + 0) by lia.
  rewrite firstn_app_2. simpl. apply app_nil_r.
Qed.

Lemma Matches_star_chr_intro g p : forall w b a cs,
  forallb p w = true ->
  Matches (Star g (Chr p)) (MState b (w ++ a) cs) (MState (rev w ++ b) a cs).
Proof.
  induction w as [|c w IH]; intros b a cs H; simpl in *.
  - constructor.
  - apply andb_true_iff in H. destruct H as [Hc Hw].
    eapply M_StarS.
    + constructor. exact Hc.
    + unfold progress. simpl. apply Nat.ltb_lt. lia.
    + rewrite <- app_assoc. simpl. apply IH. exact Hw.
Qed.

Lemma Matches_plus_chr_intro g p w b a cs :
  w <> [] -> forallb p w = true ->
  Matches (Plus g (Chr p)) (MState b (w ++ a) cs) (MState (rev w ++ b) a cs).
Proof.
  intros Hne H. destruct w as [|c w]; [congruence|]. simpl in *.
  apply andb_true_iff in H. destruct H as [Hc Hw].
  unfold Plus. eapply M_Seq.
  - constructor. exact Hc.
  - rewrite <- app_assoc. simpl. apply Matches_star_chr_intro. exact Hw.
Qed.

Lemma Matches_star_chr_inv g p st st' :
  Matches (Star g (Chr p)) st st' ->
  exists w, forallb p w = true
            /\ after st = w ++ after st'
            /\ before st' = rev w ++ before st
            /\ caps st' = caps st.
Proof.
  intros H. remember (Star g (Chr p)) as r eqn:Hr.
  induction H as [st|p0 c b a cs Hp|r1 r2 st st1 st2 H1 IH1 H2 IH2
                 |r1 r2 st st1 H1 IH1|r1 r2 st st1 H1 IH1
                 |g0 r st|g0 r st st1 st2 H1 IH1 Hp H2 IH2
                 |n r st st1 H1 IH1|p0 c b a cs Hp|a cs|b cs];
    try discriminate.
  - exists []. repeat split.
  - injection Hr as -> ->.
    destruct (IH2 eq_refl) as (w & Hw & Ha & Hb & Hc).
    inversion H1; subst. simpl in *.
    exists (c :: w). simpl. rewrite H0, Hw, Ha, Hb, Hc.
    rewrite <- app_assoc. repeat split.
Qed.

Lemma Matches_plus_chr_inv g p st st' :
  Matches (Plus g (Chr p)) st st' ->
  exists w, w <> [] /\ forallb p w = true
            /\ after st = w ++ after st'
            /\ before st' = rev w ++ before st
            /\ caps st' = caps st.
Proof.
  unfold Plus. intros H. inversion H; subst.
  match goal with
  | H1 : Matches (Chr _) _ _, H2 : Matches (Star _ _) _ _ |- _ =>
      inversion H1; subst;
      apply Matches_star_chr_inv in H2;
      destruct H2 as (w & Hw & Ha & Hb & Hc)
  end.
  simpl in *. exists (c :: w). simpl.
  match goal with Hp : p c = true |- _ => rewrite Hp end.
  rewrite Hw, Ha, Hb, Hc. rewrite <- app_assoc.
  repeat split. discriminate.
Qed.

(** A greedy repetition of a class followed by a continuation that
    accepts the position after the longest run: that is the first
    match found. *)
Lemma star_chr_greedy p k res : forall w b a cs fuel,
  forallb p w = true -> stops p a ->
  k (MState (rev w ++ b) a cs) = Some res ->
  length (w ++ a) <= fuel ->
  star_loop (m (Chr p)) true k fuel (MState b (w ++ a) cs) = Some res.
Proof.
  induction w as [|c w IH]; intros b a cs fuel Hw Ha Hk Hf; simpl in *.
  - destruct fuel as [|fuel]; simpl; [assumption|].
    destruct a as [|c a]; simpl; [assumption|].
    simpl in Ha. rewrite Ha. assumption.
  - apply andb_true_iff in Hw. destruct Hw as [Hc Hw].
    destruct fuel as [|fuel]; [lia|]. simpl. rewrite Hc.
    unfold progress. simpl.
    destruct (Nat.ltb_spec (length (w ++ a)) (S (length (w ++ a)))); [|lia].
    rewrite (IH (c :: b) a cs fuel Hw Ha); simpl.
    + reflexivity.
    + rewrite <- app_assoc in Hk. exact Hk.
    + lia.
Qed.

Lemma plus_chr_greedy p k res w b a cs :
  w <> [] -> forallb p w = true -> stops p a ->
  k (MState (rev w ++ b) a cs) = Some res ->
  m (Plus true (Chr p)) (MState b (w ++ a) cs) k = Some res.
Proof.
  intros Hne Hw Ha Hk. destruct w as [|c w]; [congruence|].
  simpl in *. apply andb_true_iff in Hw. destruct Hw as [Hc Hw].
  rewrite Hc. apply star_chr_greedy; auto.
  rewrite <- app_assoc in Hk. exact Hk.
Qed.

(** ** Strings and character lists *)

Lemma list_of_append (a b : string) :
  list_ascii_of_string (a ++ b)
  = list_ascii_of_string a ++ list_ascii_of_string b.
Proof. induction a as [|c a IH]; simpl; [|rewrite IH]; reflexivity. Qed.

Lemma string_of_app (a b : chars) :
  string_of_list_ascii (a ++ b)
  = (string_of_list_ascii a ++ string_of_list_ascii b)%string.
Proof. induction a as [|c a IH]; simpl; [|rewrite IH]; reflexivity. Qed.

Lemma forallb_not_in (f : ascii -> bool) (c : ascii) (l : chars) :
  forallb f l = true -> f c = false -> ~ In c l.
Proof.
  intros H Hc Hin. rewrite forallb_forall in H. apply H in Hin. congruence.
Qed.

Lemma string_neq_nil s : s <> ""%string -> list_ascii_of_string s <> [].
Proof. destruct s; simpl; congruence. Qed.

Lemma last_separator (c : ascii) : forall x y d d',
  x ++ c :: d = y ++ c :: d' -> ~ In c d -> ~ In c d' -> x = y /\ d = d'.
Proof.
  induction x as [|a x IH]; intros y d d' H Hd Hd'.
  - destruct y as [|b y]; simpl in H.
    + injection H as ->. auto.
    + injection H as -> ->. exfalso. apply Hd.
      apply in_or_app. right. left. reflexivity.
  - destruct y as [|b y]; simpl in H.
    + injection H as -> <-. exfalso. apply Hd'.
      apply in_or_app. right. left. reflexivity.
    + injection H as -> H. apply IH in H; auto.
      destruct H as [-> ->]. auto.
Qed.

Lemma Matches_group_intro n r b w a cs b' cs' :
  Matches r (MState b (w ++ a) cs) (MState b' a cs') ->
  Matches (Group n r) (MState b (w ++ a) cs) (MState b' a ((n, w) :: cs')).
Proof.
  intros H. apply M_Group with (n := n) in H.
  rewrite consumed_app in H. exact H.
Qed.

(** ** Rule 3, the numeric cache-buster *)

Lemma rule3_matches b e d :
  e <> [] -> forallb (noneof "?") e = true ->
  d <> [] -> forallb is_digit d = true ->
  Matches (rmatch rule3)
    (MState b (("."%char :: e ++ ["?"%char]) ++ d) [])
    (MState (rev d ++ "?"%char :: rev e ++ "."%char :: b) []
            [(1, "."%char :: e ++ ["?"%char])]).
Proof.
  intros Hne He Hnd Hd. simpl rmatch. unfold Lit.
  eapply M_Seq.
  - apply Matches_group_intro
      with (b' := "?"%char :: rev e ++ "."%char :: b) (cs' := []).
    simpl. rewrite <- app_assoc. simpl.
    eapply M_Seq; [constructor; reflexivity|].
    eapply M_Seq.
    + apply (Matches_plus_chr_intro true (noneof "?") e); assumption.
    + constructor. reflexivity.
  - eapply M_Seq.
    + pose proof (Matches_plus_chr_intro true is_digit d
                    ("?"%char :: rev e ++ "."%char :: b) []
                    [(1, "."%char :: e ++ ["?"%char])] Hnd Hd) as HP.
      rewrite app_nil_r in HP. exact HP.
    + constructor.
Qed.

Ltac inv_matches :=
  repeat match goal with
  | H : Matches (Plus _ (Chr _)) _ _ |- _ =>
      let w := fresh "w" in
      let Hne := fresh "Hne" in
      let Hw := fresh "Hw" in
      let Ha := fresh "Ha" in
      let Hb := fresh "Hb" in
      let Hc := fresh "Hc" in
      apply Matches_plus_chr_inv in H;
      destruct H as (w & Hne & Hw & Ha & Hb & Hc)
  | H : Matches (Star _ (Chr _)) _ _ |- _ =>
      let w := fresh "w" in
      let Hw := fresh "Hw" in
      let Ha := fresh "Ha" in
      let Hb := fresh "Hb" in
      let Hc := fresh "Hc" in
      apply Matches_star_chr_inv in H;
      destruct H as (w & Hw & Ha & Hb & Hc)
  | H : Matches (Seq _ _) _ _ |- _ => inversion H; subst; clear H
  | H : Matches (Group _ _) _ _ |- _ => inversion H; subst; clear H
  | H : Matches (Lit _) _ _ |- _ => unfold Lit in H
  | H : Matches (Chr _) _ _ |- _ => inversion H; subst; clear H
  | H : Matches Eol _ _ |- _ => inversion H; subst; clear H
  | H : Matches Eps _ _ |- _ => inversion H; subst; clear H
  | H : Ascii.eqb _ _ = true |- _ => apply Ascii.eqb_eq in H; subst
  end.

Lemma rule3_inv b rest st' :
  Matches (rmatch rule3) (MState b rest []) st' ->
  exists e d,
    rest = ("."%char :: e ++ ["?"%char]) ++ d
    /\ forallb is_digit d = true
    /\ after st' = []
    /\ caps st' = [(1, "."%char :: e ++ ["?"%char])].
Proof.
  unfold rule3, rmatch. intros H. inv_matches. simpl in *.
  subst. rewrite app_nil_r in *.
  exists w0, w. split; [|split; [assumption|split; [reflexivity|]]].
  - rewrite <- app_assoc. reflexivity.
  - replace ("."%char :: w0 ++ "?"%char :: w)
      with (("."%char :: w0 ++ ["?"%char]) ++ w)
      by (simpl; rewrite <- app_assoc; reflexivity).
    rewrite consumed_app. reflexivity.
Qed.

Lemma digits_no_question d : forallb is_digit d = true -> ~ In "?"%char d.
Proof. intros H. apply (forallb_not_in is_digit); auto. Qed.

Lemma get_substitution_dollar1 res :
  get_substitution 1 res (list_ascii_of_string "$1") = cap_or_empty 1 res.
Proof. reflexivity. Qed.

(** Rule 3 removes the digits after the last [?] and keeps the [?]. *)
Lemma rule3_replace_chars a e d :
  e <> [] -> forallb (noneof "?") e = true ->
  d <> [] -> forallb is_digit d = true ->
  replace_chars (rmatch rule3) (list_ascii_of_string (rreplace rule3))
    (a ++ ("."%char :: e ++ ["?"%char]) ++ d)
  = a ++ "."%char :: e ++ ["?"%char].
Proof.
  intros Hne He Hnd Hd.
  pose proof (rule3_matches (rev a) e d Hne He Hnd Hd) as Hm.
  apply exec_complete in Hm.
  unfold replace_chars.
  destruct (exec (rmatch rule3) (a ++ ("."%char :: e ++ ["?"%char]) ++ d))
    as [res|] eqn:Hex; [|congruence].
  clear Hm. apply exec_sound in Hex.
  destruct Hex as (skipped & rest' & st' & w & Hs & Hpre & Hm & _ & _
                   & Hpost & Hcaps).
  apply rule3_inv in Hm.
  destruct Hm as (e' & d' & -> & Hd' & Hafter & Hc).
  change (ngroups (rmatch rule3)) with 1.
  change (rreplace rule3) with "$1"%string.
  rewrite get_substitution_dollar1. unfold cap_or_empty.
  rewrite Hcaps, Hc, Hpre, Hpost, Hafter. simpl get_cap.
  rewrite rev_involutive, app_nil_r.
  assert (Heq : (a ++ "."%char :: e) ++ "?"%char :: d
                = (skipped ++ "."%char :: e') ++ "?"%char :: d').
  { repeat (rewrite <- app_assoc in *; simpl in * ). exact Hs. }
  apply last_separator in Heq; auto using digits_no_question.
  destruct Heq as [Heq _].
  change ("."%char :: e' ++ ["?"%char])
    with (("."%char :: e') ++ ["?"%char]).
  change ("."%char :: e ++ ["?"%char])
    with (("."%char :: e) ++ ["?"%char]).
  rewrite !app_assoc. rewrite <- Heq. reflexivity.
Qed.

(** ** The loop of [reduce] *)

Lemma reduce_with_skip r rules p :
  apply_rule r p = p -> reduce_with (r :: rules) p = reduce_with rules p.
Proof. intros H. simpl. rewrite H, String.eqb_refl. reflexivity. Qed.

Lemma reduce_with_fire r rules p :
  apply_rule r p <> p -> reduce_with (r :: rules) p = apply_rule r p.
Proof.
  intros H. simpl. apply String.eqb_neq in H. rewrite H. reflexivity.
Qed.

Lemma reduce_with_fixed rules p :
  (forall r, In r rules -> apply_rule r p = p) -> reduce_with rules p = p.
Proof.
  induction rules as [|r rules IH]; intros H; [reflexivity|].
  rewrite reduce_with_skip by (apply H; left; reflexivity).
  apply IH. intros r' Hr'. apply H. right. exact Hr'.
Qed.

Lemma reduce_fixed p :
  (forall r, In r fuzzy_rules -> apply_rule r p = p) -> reduce p = p.
Proof. apply reduce_with_fixed. Qed.

(** The scan returns the result of the first rule that changes the
    path. *)
Lemma reduce_with_first_change skipped r rest p :
  (forall r', In r' skipped -> apply_rule r' p = p) ->
  apply_rule r p <> p ->
  reduce_with (skipped ++ r :: rest) p = apply_rule r p.
Proof.
  induction skipped as [|r0 skipped IH]; intros Hs Hr; simpl app.
  - apply reduce_with_fire. exact Hr.
  - rewrite reduce_with_skip by (apply Hs; left; reflexivity).
    apply IH; [|exact Hr]. intros r' Hr'. apply Hs. right. exact Hr'.
Qed.

Lemma rule3_apply (a e d : string) :
  e <> ""%string -> string_forall (noneof "?") e = true ->
  d <> ""%string -> string_forall is_digit d = true ->
  apply_rule rule3 (a ++ "." ++ e ++ "?" ++ d) = (a ++ "." ++ e ++ "?")%string.
Proof.
  intros Hne He Hnd Hd. unfold apply_rule, replace.
  rewrite !list_of_append.
  change (list_ascii_of_string ".") with ["."%char].
  change (list_ascii_of_string "?") with ["?"%char].
  replace (list_ascii_of_string a ++ ["."%char] ++ list_ascii_of_string e
             ++ ["?"%char] ++ list_ascii_of_string d)
    with (list_ascii_of_string a
            ++ ("."%char :: list_ascii_of_string e ++ ["?"%char])
            ++ list_ascii_of_string d)
    by (simpl; rewrite <- app_assoc; reflexivity).
  rewrite rule3_replace_chars; auto using string_neq_nil.
  change ("."%char :: list_ascii_of_string e ++ ["?"%char])
    with (["."%char] ++ list_ascii_of_string e ++ ["?"%char]).
  rewrite !string_of_app, !string_of_list_ascii_of_string. reflexivity.
Qed.

Lemma append_length (a b : string) :
  String.length (a ++ b) = String.length a + String.length b.
Proof. induction a as [|c a IH]; simpl; [|rewrite IH]; reflexivity. Qed.

(** ** C4: the generic cache-buster suffix *)

(** C4, as amended: for every path that ends in a dot, a non-empty
    extension without [?], a [?] and a non-empty run of digits, and that
    rules 1 and 2 leave unchanged, [reduce] strips the digits and returns
    everything up to and including the [?]. *)
Theorem reduce_cache_buster (a e d : string) :
  e <> ""%string -> string_forall (noneof "?") e = true ->
  d <> ""%string -> string_forall is_digit d = true ->
  apply_rule rule1 (a ++ "." ++ e ++ "?" ++ d) = (a ++ "." ++ e ++ "?" ++ d)%string ->
  apply_rule rule2 (a ++ "." ++ e ++ "?" ++ d) = (a ++ "." ++ e ++ "?" ++ d)%string ->
  reduce (a ++ "." ++ e ++ "?" ++ d) = (a ++ "." ++ e ++ "?")%string.
Proof.
  intros Hne He Hnd Hd H1 H2. unfold reduce, fuzzy_rules.
  rewrite reduce_with_skip by exact H1.
  rewrite reduce_with_skip by exact H2.
  rewrite reduce_with_fire; rewrite rule3_apply by assumption.
  - reflexivity.
  - intros Heq. apply (f_equal String.length) in Heq.
    rewrite !append_length in Heq.
    destruct d; [congruence|]. simpl in Heq. lia.
Qed.

Lemma reduce_cache_buster_witness :
  reduce ("a" ++ "." ++ "js" ++ "?" ++ "123") = ("a" ++ "." ++ "js" ++ "?")%string.
Proof.
  apply reduce_cache_buster;
    solve [discriminate | reflexivity | vm_compute; reflexivity].
Defined.

(** C4 as stated fails: the [?] is part of what rule 3 keeps. *)
Lemma reduce_cache_buster_counterexample :
  string_forall is_digit "123" = true
  /\ apply_rule rule1 "a.js?123" = "a.js?123"%string
  /\ apply_rule rule2 "a.js?123" = "a.js?123"%string
  /\ reduce "a.js?123" = "a.js?"%string
  /\ reduce "a.js?123" <> "a.js"%string.
Proof.
  repeat split; try (vm_compute; reflexivity).
  vm_compute. discriminate.
Qed.

(** ** The embed rules 5 and 6 *)

Lemma exec_from_here r pre rest st :
  m r (MState pre rest []) Some = Some st ->
  exec_from r pre rest
  = Some (MatchResult pre (consumed (MState pre rest []) st)
                      (after st) (caps st)).
Proof. intros H. destruct rest; simpl; rewrite H; reflexivity. Qed.

Lemma m_group_plus_end n p w b cs k res :
  w <> [] -> forallb p w = true ->
  k (MState (rev w ++ b) [] ((n, w) :: cs)) = Some res ->
  m (Group n (Plus true (Chr p))) (MState b w cs) k = Some res.
Proof.
  intros Hne Hw Hk.
  change (m (Group n (Plus true (Chr p))) (MState b w cs) k)
    with (m (Plus true (Chr p)) (MState b w cs)
            (fun st1 => k (set_cap n (consumed (MState b w cs) st1) st1))).
  rewrite <- (app_nil_r w) at 1.
  apply plus_chr_greedy; simpl; auto.
  rewrite <- (app_nil_r w) at 1. rewrite consumed_app. exact Hk.
Qed.

Lemma rule6_prefix tail a k :
  m (Str "youtube" ;; Dot ;; Str "fuzzy" ;; Dot ;; Str "replayweb" ;;
     Dot ;; Str "page/embed/" ;; tail)
    (MState [] (list_ascii_of_string embed_canon ++ a) []) k
  = m tail (MState (rev (list_ascii_of_string embed_canon)) a []) k.
Proof. reflexivity. Qed.

Lemma rule5_prefix tail a k :
  m (Opt (Str "www.") ;; Str "youtube" ;; Opt (Str "-nocookie") ;;
     Str ".com/embed/" ;; tail)
    (MState [] (list_ascii_of_string embed_source ++ a) []) k
  = orelse (m tail (MState (rev (list_ascii_of_string embed_source)) a []) k)
           None.
Proof. reflexivity. Qed.

Lemma get_substitution_embed res :
  get_substitution 1 res (list_ascii_of_string (rreplace rule6))
  = list_ascii_of_string embed_canon ++ cap_or_empty 1 res.
Proof. reflexivity. Qed.

Lemma rule6_at_start v :
  v <> [] -> forallb (noneof "?&") v = true ->
  m (rmatch rule6) (MState [] (list_ascii_of_string embed_canon ++ v) []) Some
  = Some (MState (rev v ++ rev (list_ascii_of_string embed_canon)) []
                 [(1, v)]).
Proof.
  intros Hne Hv. unfold rule6, rmatch. rewrite rule6_prefix.
  change (m (Group 1 (Plus true (Chr (noneof "?&"))) ;; Star true Dot)
            (MState (rev (list_ascii_of_string embed_canon)) v []) Some)
    with (m (Group 1 (Plus true (Chr (noneof "?&"))))
            (MState (rev (list_ascii_of_string embed_canon)) v [])
            (fun st1 => m (Star true Dot) st1 Some)).
  apply m_group_plus_end; auto.
Qed.

Lemma rule5_at_start v :
  v <> [] -> forallb (noneof "?") v = true ->
  m (rmatch rule5) (MState [] (list_ascii_of_string embed_source ++ v) []) Some
  = Some (MState (rev v ++ rev (list_ascii_of_string embed_source)) []
                 [(1, v)]).
Proof.
  intros Hne Hv. unfold rule5, rmatch. rewrite rule5_prefix.
  change (m (Group 1 (Plus true (Chr (noneof "?"))) ;; Star true Dot)
            (MState (rev (list_ascii_of_string embed_source)) v []) Some)
    with (m (Group 1 (Plus true (Chr (noneof "?"))))
            (MState (rev (list_ascii_of_string embed_source)) v [])
            (fun st1 => m (Star true Dot) st1 Some)).
  rewrite (m_group_plus_end 1 (noneof "?") v _ [] _
             (MState (rev v ++ rev (list_ascii_of_string embed_source)) []
                     [(1, v)])); auto.
Qed.

Lemma rule6_replace_canon v :
  v <> [] -> forallb (noneof "?&") v = true ->
  replace_chars (rmatch rule6) (list_ascii_of_string (rreplace rule6))
    (list_ascii_of_string embed_canon ++ v)
  = list_ascii_of_string embed_canon ++ v.
Proof.
  intros Hne Hv. unfold replace_chars, exec.
  rewrite (exec_from_here _ _ _ _ (rule6_at_start v Hne Hv)).
  change (ngroups (rmatch rule6)) with 1.
  rewrite get_substitution_embed. unfold cap_or_empty. simpl.
  rewrite app_nil_r. reflexivity.
Qed.

Lemma rule5_replace_source v :
  v <> [] -> forallb (noneof "?") v = true ->
  replace_chars (rmatch rule5) (list_ascii_of_string (rreplace rule5))
    (list_ascii_of_string embed_source ++ v)
  = list_ascii_of_string embed_canon ++ v.
Proof.
  intros Hne Hv. unfold replace_chars, exec.
  rewrite (exec_from_here _ _ _ _ (rule5_at_start v Hne Hv)).
  change (ngroups (rmatch rule5)) with 1.
  change (rreplace rule5) with (rreplace rule6).
  rewrite get_substitution_embed. unfold cap_or_empty. simpl.
  rewrite app_nil_r. reflexivity.
Qed.

(** Weakening a class test. *)
Lemma forallb_weaken (f g : ascii -> bool) (l : chars) :
  (forall c, f c = true -> g c = true) ->
  forallb f l = true -> forallb g l = true.
Proof.
  intros Hfg H. rewrite forallb_forall in *. intros c Hc. auto.
Qed.

Lemma noneof_not_in (set : string) (c : ascii) (l : chars) :
  forallb (noneof set) l = true -> oneof set c = true -> ~ In c l.
Proof.
  intros H Hc. apply (forallb_not_in (noneof set)); auto.
  unfold noneof. rewrite Hc. reflexivity.
Qed.

Lemma not_in_app (c : ascii) (a b : chars) :
  ~ In c a -> ~ In c b -> ~ In c (a ++ b).
Proof. intros Ha Hb H. apply in_app_or in H. tauto. Qed.

Lemma mem_not_in (c : ascii) (l : chars) : mem c l = false -> ~ In c l.
Proof.
  induction l as [|x l IH]; simpl; intros H; [tauto|].
  apply orb_false_iff in H. destruct H as [Hx Hl].
  intros [-> | Hin]; [|exact (IH Hl Hin)].
  rewrite Ascii.eqb_refl in Hx. discriminate.
Qed.

Lemma apply_rule_no_match r s :
  exec (rmatch r) (list_ascii_of_string s) = None -> apply_rule r s = s.
Proof. apply replace_no_match. Qed.

Section EmbedForms.

Variable v : string.
Hypothesis v_nonempty : v <> ""%string.
Hypothesis v_plain : string_forall (noneof "?&/") v = true.

Lemma v_no (c : ascii) :
  oneof "?&/" c = true -> ~ In c (list_ascii_of_string v).
Proof. apply noneof_not_in. exact v_plain. Qed.

Lemma canon_no_question :
  ~ In "?"%char (list_ascii_of_string (embed_canon ++ v)).
Proof.
  rewrite list_of_append. apply not_in_app.
  - apply mem_not_in. reflexivity.
  - apply v_no. reflexivity.
Qed.

Lemma source_no_question :
  ~ In "?"%char (list_ascii_of_string (embed_source ++ v)).
Proof.
  rewrite list_of_append. apply not_in_app.
  - apply mem_not_in. reflexivity.
  - apply v_no. reflexivity.
Qed.

Lemma canon_fixed_by (r : rule) :
  In r [rule1; rule2; rule3; rule4; rule5; rule7; rule8] ->
  apply_rule r (embed_canon ++ v) = (embed_canon ++ v)%string.
Proof.
  intros Hr. apply apply_rule_no_match.
  simpl in Hr.
  destruct Hr as [<-|[<-|[<-|[<-|[<-|[<-|[<-|[]]]]]]]].
  - apply exec_needs with (c := "?"%char);
      [vm_compute; reflexivity | apply canon_no_question].
  - apply exec_needs with (c := "?"%char);
      [vm_compute; reflexivity | apply canon_no_question].
  - apply exec_needs with (c := "?"%char);
      [vm_compute; reflexivity | apply canon_no_question].
  - rewrite list_of_append.
    apply exec_needs_then with (c1 := "c"%char) (c2 := "/"%char);
      [vm_compute; reflexivity | apply mem_not_in; reflexivity
      | apply v_no; reflexivity].
  - rewrite list_of_append.
    apply exec_needs_then with (c1 := "c"%char) (c2 := "/"%char);
      [vm_compute; reflexivity | apply mem_not_in; reflexivity
      | apply v_no; reflexivity].
  - rewrite list_of_append.
    apply exec_needs_then with (c1 := "k"%char) (c2 := "/"%char);
      [vm_compute; reflexivity | apply mem_not_in; reflexivity
      | apply v_no; reflexivity].
  - apply exec_needs with (c := "?"%char);
      [vm_compute; reflexivity | apply canon_no_question].
Qed.

Lemma canon_fixed_by_rule6 :
  apply_rule rule6 (embed_canon ++ v) = (embed_canon ++ v)%string.
Proof.
  unfold apply_rule, replace. rewrite list_of_append.
  rewrite rule6_replace_canon.
  - rewrite string_of_app, !string_of_list_ascii_of_string. reflexivity.
  - apply string_neq_nil. exact v_nonempty.
  - revert v_plain. apply forallb_weaken. intros c.
    unfold noneof, oneof. simpl. rewrite !negb_true_iff, !orb_false_iff.
    tauto.
Qed.

Lemma reduce_canon :
  reduce (embed_canon ++ v) = (embed_canon ++ v)%string.
Proof.
  apply reduce_with_fixed. intros r Hr. simpl in Hr.
  destruct Hr as [<-|[<-|[<-|[<-|[<-|[<-|[<-|[<-|[]]]]]]]]];
    try (apply canon_fixed_by; simpl; tauto).
  apply canon_fixed_by_rule6.
Qed.

Lemma source_fixed_by (r : rule) :
  In r [rule1; rule2; rule3; rule4] ->
  apply_rule r (embed_source ++ v) = (embed_source ++ v)%string.
Proof.
  intros Hr. apply apply_rule_no_match.
  simpl in Hr. destruct Hr as [<-|[<-|[<-|[<-|[]]]]].
  - apply exec_needs with (c := "?"%char);
      [vm_compute; reflexivity | apply source_no_question].
  - apply exec_needs with (c := "?"%char);
      [vm_compute; reflexivity | apply source_no_question].
  - apply exec_needs with (c := "?"%char);
      [vm_compute; reflexivity | apply source_no_question].
  - rewrite list_of_append.
    apply exec_needs_then with (c1 := "i"%char) (c2 := "/"%char);
      [vm_compute; reflexivity | apply mem_not_in; reflexivity
      | apply v_no; reflexivity].
Qed.

Lemma reduce_source :
  reduce (embed_source ++ v) = (embed_canon ++ v)%string.
Proof.
  assert (H5 : apply_rule rule5 (embed_source ++ v)
               = (embed_canon ++ v)%string).
  { unfold apply_rule, replace. rewrite list_of_append.
    rewrite rule5_replace_source.
    - rewrite string_of_app, !string_of_list_ascii_of_string. reflexivity.
    - apply string_neq_nil. exact v_nonempty.
    - revert v_plain. apply forallb_weaken. intros c.
      unfold noneof, oneof. simpl. rewrite !negb_true_iff, !orb_false_iff.
      tauto. }
  unfold reduce.
  change fuzzy_rules
    with ([rule1; rule2; rule3; rule4] ++ rule5 :: [rule6; rule7; rule8]).
  rewrite (reduce_with_first_change [rule1; rule2; rule3; rule4] rule5).
  - exact H5.
  - apply source_fixed_by.
  - rewrite H5. intros Heq. apply (f_equal String.length) in Heq.
    rewrite !append_length in Heq. simpl in Heq. lia.
Qed.

End EmbedForms.

(** ** Canonical forms that no rule matches *)

Lemma rule3_no_match y d :
  ~ In "?"%char d -> forallb is_digit d = false ->
  exec (rmatch rule3) (y ++ "?"%char :: d) = None.
Proof.
  intros Hq Hd.
  destruct (exec (rmatch rule3) (y ++ "?"%char :: d)) as [res|] eqn:Hex;
    [|reflexivity].
  exfalso. apply exec_sound in Hex.
  destruct Hex as (skipped & rest' & st' & w & Hs & _ & Hm & _).
  apply rule3_inv in Hm. destruct Hm as (e' & d' & -> & Hd' & _).
  assert (Heq : y ++ "?"%char :: d
                = (skipped ++ "."%char :: e') ++ "?"%char :: d').
  { rewrite Hs. repeat (rewrite <- app_assoc; simpl). reflexivity. }
  apply last_separator in Heq; auto using digits_no_question.
  destruct Heq as [_ ->]. congruence.
Qed.

Section PlainForms.

Variable P : string.
Variable allowed : ascii -> bool.
Variable v : string.
Hypothesis v_allowed : string_forall allowed v = true.

Lemma v_without (c : ascii) :
  allowed c = false -> ~ In c (list_ascii_of_string v).
Proof. apply forallb_not_in. exact v_allowed. Qed.

Lemma no_match_char (r : rule) (c : ascii) :
  needs c (rmatch r) = true ->
  mem c (list_ascii_of_string P) = false -> allowed c = false ->
  apply_rule r (P ++ v) = (P ++ v)%string.
Proof.
  intros Hn HP Hv. apply apply_rule_no_match.
  apply exec_needs with (c := c); [exact Hn|].
  rewrite list_of_append. apply not_in_app.
  - apply mem_not_in. exact HP.
  - apply v_without. exact Hv.
Qed.

Lemma no_match_pair (r : rule) (c1 c2 : ascii) :
  needs_then c1 c2 (rmatch r) = true ->
  mem c1 (list_ascii_of_string P) = false -> allowed c2 = false ->
  apply_rule r (P ++ v) = (P ++ v)%string.
Proof.
  intros Hn HP Hv. apply apply_rule_no_match. rewrite list_of_append.
  apply exec_needs_then with (c1 := c1) (c2 := c2); [exact Hn| |].
  - apply mem_not_in. exact HP.
  - apply v_without. exact Hv.
Qed.

(** Rule 3 on a form whose only [?] is followed by a letter. *)
Lemma no_match_rule3 (P1 k : string) (c : ascii) :
  P = (P1 ++ "?" ++ String c k)%string ->
  is_digit c = false ->
  mem "?"%char (list_ascii_of_string (String c k)) = false ->
  allowed "?"%char = false ->
  apply_rule rule3 (P ++ v) = (P ++ v)%string.
Proof.
  intros -> Hc Hk Hv. apply apply_rule_no_match.
  rewrite !list_of_append. rewrite <- !app_assoc.
  change (list_ascii_of_string "?" ++ list_ascii_of_string (String c k)
            ++ list_ascii_of_string v)
    with ("?"%char :: list_ascii_of_string (String c k)
            ++ list_ascii_of_string v).
  apply rule3_no_match.
  - apply not_in_app; [apply mem_not_in; exact Hk | apply v_without; exact Hv].
  - simpl. rewrite Hc. reflexivity.
Qed.

End PlainForms.

Ltac by_char Hv c :=
  apply (no_match_char _ _ _ Hv _ c); vm_compute; reflexivity.

Ltac by_pair Hv c1 c2 :=
  apply (no_match_pair _ _ _ Hv _ c1 c2); vm_compute; reflexivity.

Ltac each_rule Hr :=
  simpl in Hr;
  destruct Hr as [<-|[<-|[<-|[<-|[<-|[<-|[<-|[<-|[]]]]]]]]].

Lemma videoplayback_form_fixed v :
  string_forall (noneof "?&/") v = true ->
  reduce ("youtube.fuzzy.replayweb.page/videoplayback?id=" ++ v)
  = ("youtube.fuzzy.replayweb.page/videoplayback?id=" ++ v)%string.
Proof.
  intros Hv. apply reduce_fixed. intros r Hr. each_rule Hr.
  - by_pair Hv "m"%char "/"%char.
  - by_pair Hv "m"%char "/"%char.
  - apply (no_match_rule3 _ _ _ Hv
             "youtube.fuzzy.replayweb.page/videoplayback" "d=" "i"%char);
      reflexivity.
  - by_pair Hv "m"%char "/"%char.
  - by_pair Hv "m"%char "/"%char.
  - by_pair Hv "m"%char "/"%char.
  - by_pair Hv "n"%char "/"%char.
  - by_pair Hv "m"%char "/"%char.
Qed.

Lemma get_video_info_form_fixed v :
  string_forall (noneof "?&/") v = true ->
  reduce ("youtube.fuzzy.replayweb.page/get_video_info?video_id=" ++ v)
  = ("youtube.fuzzy.replayweb.page/get_video_info?video_id=" ++ v)%string.
Proof.
  intros Hv. apply reduce_fixed. intros r Hr. each_rule Hr.
  - by_pair Hv "m"%char "/"%char.
  - by_pair Hv "m"%char "/"%char.
  - apply (no_match_rule3 _ _ _ Hv
             "youtube.fuzzy.replayweb.page/get_video_info" "ideo_id="
             "v"%char); reflexivity.
  - by_pair Hv "m"%char "/"%char.
  - by_pair Hv "m"%char "/"%char.
  - by_pair Hv "m"%char "/"%char.
  - by_pair Hv "k"%char "/"%char.
  - by_pair Hv "m"%char "/"%char.
Qed.

Lemma embed_form_fixed v :
  string_forall (noneof "?&/") v = true ->
  reduce ("youtube.fuzzy.replayweb.page/embed/" ++ v)
  = ("youtube.fuzzy.replayweb.page/embed/" ++ v)%string.
Proof.
  intros Hv. destruct v as [|c v'].
  - vm_compute. reflexivity.
  - apply (reduce_canon (String c v')); [discriminate | exact Hv].
Qed.

Lemma vimeo_cdn_form_fixed v :
  string_forall (fun c => is_digit c || oneof "/.mp4" c) v = true ->
  reduce ("vimeo-cdn.fuzzy.replayweb.page/" ++ v)
  = ("vimeo-cdn.fuzzy.replayweb.page/" ++ v)%string.
Proof.
  intros Hv. apply reduce_fixed. intros r Hr. each_rule Hr.
  - by_char Hv "?"%char.
  - by_char Hv "?"%char.
  - by_char Hv "?"%char.
  - by_char Hv "t"%char.
  - by_char Hv "t"%char.
  - by_char Hv "t"%char.
  - by_char Hv "k"%char.
  - by_char Hv "?"%char.
Qed.

Lemma vimeo_form_fixed v :
  string_forall is_digit v = true ->
  reduce ("vimeo.fuzzy.replayweb.page/video/" ++ v)
  = ("vimeo.fuzzy.replayweb.page/video/" ++ v)%string.
Proof.
  intros Hv. apply reduce_fixed. intros r Hr. each_rule Hr.
  - by_char Hv "?"%char.
  - by_char Hv "?"%char.
  - by_char Hv "?"%char.
  - by_char Hv "c"%char.
  - by_char Hv "c"%char.
  - by_char Hv "t"%char.
  - by_char Hv "k"%char.
  - by_char Hv "?"%char.
Qed.

(** The form of rule 4: the constant text has no [m] and no [k], the
    rest has no [/], and the only [?] is followed by [videoId]. *)
Lemma youtubei_form_fixed name v :
  string_forall (noneof "?&/") name = true ->
  string_forall (noneof "?&/") v = true ->
  reduce (youtubei_canon ++ name ++ "?videoId" ++ v)
  = (youtubei_canon ++ name ++ "?videoId" ++ v)%string.
Proof.
  intros Hn Hv.
  assert (Hw : forall l, forallb (noneof "?&/") l = true ->
               forallb (noneof "/") l = true).
  { intros l. apply forallb_weaken. intros c. unfold noneof, oneof. simpl.
    rewrite !negb_true_iff, !orb_false_iff. tauto. }
  assert (Ht : string_forall (noneof "/") (name ++ "?videoId" ++ v) = true).
  { unfold string_forall in *. rewrite !list_of_append, !forallb_app.
    rewrite (Hw _ Hn), (Hw _ Hv). reflexivity. }
  apply reduce_fixed. intros r Hr. each_rule Hr.
  - by_pair Ht "m"%char "/"%char.
  - by_pair Ht "m"%char "/"%char.
  - apply apply_rule_no_match.
    replace (list_ascii_of_string
               (youtubei_canon ++ name ++ "?videoId" ++ v))
      with (list_ascii_of_string (youtubei_canon ++ name)
              ++ "?"%char :: list_ascii_of_string ("videoId" ++ v)).
    + apply rule3_no_match.
      * rewrite list_of_append. apply not_in_app.
        -- apply mem_not_in. reflexivity.
        -- apply (noneof_not_in "?&/"); [exact Hv | reflexivity].
      * reflexivity.
    + rewrite !list_of_append, <- !app_assoc. reflexivity.
  - by_pair Ht "m"%char "/"%char.
  - by_pair Ht "m"%char "/"%char.
  - by_pair Ht "m"%char "/"%char.
  - by_pair Ht "k"%char "/"%char.
  - by_pair Ht "m"%char "/"%char.
Qed.

(** The path that rule 4 keeps is not always plain: here it holds an
    embed address, and the form that rule 4 writes is changed by the
    embed rule. *)
Lemma youtubei_form_with_address :
  reduce "youtube.com/youtubei/youtube.com/embed/x?videoId=1"
  = "youtube.fuzzy.replayweb.page/youtubei/youtube.com/embed/x?videoId=1"%string
  /\ reduce
       "youtube.fuzzy.replayweb.page/youtubei/youtube.com/embed/x?videoId=1"
     = "youtube.fuzzy.replayweb.page/youtubei/youtube.fuzzy.replayweb.page/embed/x"%string.
Proof. split; vm_compute; reflexivity. Qed.

(** The embed rule writes the canonical embed form. *)
Lemma reduce_embed_source v :
  v <> ""%string -> string_forall (noneof "?&/") v = true ->
  reduce ("www.youtube.com/embed/" ++ v)
  = ("youtube.fuzzy.replayweb.page/embed/" ++ v)%string.
Proof. apply reduce_source. Qed.

(** ** C2: idempotence of [reduce] *)

(** C2, as amended: [reduce] is idempotent on the canonical forms of
    rules 1, 2, 4, 5 and 6, 7 and 8 with a plain variable part
    ([canonical_form]): no rule changes such a form, on the embed form
    rule 6 rewrites it to itself, so reducing it again is a no-op. *)
Theorem reduce_idempotent_on_canonical_forms (p : string) :
  canonical_form p ->
  reduce p = p /\ reduce (reduce p) = reduce p.
Proof.
  intros Hp.
  assert (H : reduce p = p).
  { destruct Hp as [P allowed v Hin Hv | name v Hn Hv].
    - simpl in Hin.
      destruct Hin as [[= <- <-]|[[= <- <-]|[[= <- <-]|[[= <- <-]
                      |[[= <- <-]|[]]]]]].
      + apply videoplayback_form_fixed. exact Hv.
      + apply get_video_info_form_fixed. exact Hv.
      + apply embed_form_fixed. exact Hv.
      + apply vimeo_cdn_form_fixed. exact Hv.
      + apply vimeo_form_fixed. exact Hv.
    - apply youtubei_form_fixed; assumption. }
  split; [exact H|]. rewrite H. exact H.
Qed.

Lemma reduce_idempotent_on_canonical_forms_witness :
  reduce ("youtube.fuzzy.replayweb.page/youtubei/v1/player?videoId=dQw4w9WgXcQ")
  = "youtube.fuzzy.replayweb.page/youtubei/v1/player?videoId=dQw4w9WgXcQ"%string
  /\ reduce (reduce
        "youtube.fuzzy.replayweb.page/youtubei/v1/player?videoId=dQw4w9WgXcQ")
     = reduce
         "youtube.fuzzy.replayweb.page/youtubei/v1/player?videoId=dQw4w9WgXcQ".
Proof.
  apply (reduce_idempotent_on_canonical_forms
           (youtubei_canon ++ "player" ++ "?videoId" ++ "=dQw4w9WgXcQ")).
  apply canonical_youtubei; vm_compute; reflexivity.
Defined.

(** C2 as stated fails, also on an output of the embed rule: after
    rule 3 has removed a numeric query the embed rule applies, and
    rule 6 cuts an id that the embed rule kept at its first [&]. *)
Lemma reduce_not_idempotent :
  reduce (reduce "youtube.com/embed/abc?123")
    <> reduce "youtube.com/embed/abc?123"
  /\ reduce "youtube.com/embed/a&b?x"
     = "youtube.fuzzy.replayweb.page/embed/a&b"%string
  /\ reduce (reduce "youtube.com/embed/a&b?x")
     <> reduce "youtube.com/embed/a&b?x".
Proof.
  repeat split; vm_compute; try reflexivity; discriminate.
Qed.

(** ** C3: the first rule that changes the path wins *)

(** C3: for every path that both rule 1 and rule 3 rewrite, [reduce]
    returns the rewriting of rule 1; in general the rules are tried in
    the declared order and the scan stops at the first one whose
    application changes the path: wherever [fuzzy_rules] is cut, if the
    rules before the cut leave the path unchanged and the rule at the
    cut changes it, [reduce] returns what that rule gives. *)
Theorem first_change_wins (p : string) :
  (apply_rule rule1 p <> p -> apply_rule rule3 p <> p ->
   reduce p = apply_rule rule1 p)
  /\ (forall skipped r rest,
        fuzzy_rules = skipped ++ r :: rest ->
        (forall r', In r' skipped -> apply_rule r' p = p) ->
        apply_rule r p <> p ->
        reduce p = apply_rule r p).
Proof.
  assert (Hgen : forall skipped r rest,
             fuzzy_rules = skipped ++ r :: rest ->
             (forall r', In r' skipped -> apply_rule r' p = p) ->
             apply_rule r p <> p ->
             reduce p = apply_rule r p).
  { intros skipped r rest Hcut Hs Hr. unfold reduce. rewrite Hcut.
    apply reduce_with_first_change; assumption. }
  split; [|exact Hgen].
  intros H1 _.
  apply (Hgen [] rule1 [rule2; rule3; rule4; rule5; rule6; rule7; rule8]);
    [reflexivity | intros r' [] | exact H1].
Qed.

Lemma first_change_wins_witness :
  reduce "x.googlevideo.com/videoplayback?id=a.b?123"
    = apply_rule rule1 "x.googlevideo.com/videoplayback?id=a.b?123"
  /\ reduce "a.js?123" = apply_rule rule3 "a.js?123".
Proof.
  split.
  - apply (proj1 (first_change_wins
                    "x.googlevideo.com/videoplayback?id=a.b?123"));
      vm_compute; discriminate.
  - apply (proj2 (first_change_wins "a.js?123") [rule1; rule2] rule3
                 [rule4; rule5; rule6; rule7; rule8]).
    + reflexivity.
    + intros r' [<-|[<-|[]]]; vm_compute; reflexivity.
    + vm_compute. discriminate.
Defined.

(** On a path that rules 1 and 3 both rewrite, the two rewritings
    differ, and [reduce] gives the one of rule 1. *)
Lemma rule1_before_rule3_scenario :
  apply_rule rule1 "x.googlevideo.com/videoplayback?id=a.b?123"
    = "youtube.fuzzy.replayweb.page/videoplayback?id=a.b?123"%string
  /\ apply_rule rule3 "x.googlevideo.com/videoplayback?id=a.b?123"
     = "x.googlevideo.com/videoplayback?id=a.b?"%string
  /\ reduce "x.googlevideo.com/videoplayback?id=a.b?123"
     = "youtube.fuzzy.replayweb.page/videoplayback?id=a.b?123"%string.
Proof. repeat split; vm_compute; reflexivity. Qed.

(** ** The early returns *)

Lemma passthrough_orig_host ctx url :
  startsWith url (orig_host ctx) = true -> passthrough ctx url = true.
Proof.
  intros H. unfold passthrough. rewrite H. apply orb_true_iff. left.
  apply orb_true_r.
Qed.

Lemma passthrough_prefix ctx url p :
  In p passthrough_prefixes -> startsWith url p = true ->
  passthrough ctx url = true.
Proof.
  intros Hin H. unfold passthrough. apply orb_true_iff. right.
  apply existsb_exists. exists p. split; assumption.
Qed.

Lemma rewrite_passthrough ctx url useRel mod_ doc :
  passthrough ctx url = true ->
  urlRewriteFunction ctx (JString url) useRel mod_ doc = Return (JString url).
Proof. intros H. simpl. rewrite H. reflexivity. Qed.

Lemma rewrite_not_passthrough ctx url useRel mod_ doc :
  passthrough ctx url = false ->
  urlRewriteFunction ctx (JString url) useRel mod_ doc
  = let* r := rewrite_string ctx url in Return (JString r).
Proof. intros H. simpl. rewrite H. reflexivity. Qed.

(** ** C7: the trivial passthroughs *)

(** C7: whatever the context, [null] is returned as it is; an input
    that starts with [#], and an input that starts with the original
    host, are returned unchanged. *)
Theorem trivial_passthroughs (ctx : context) (useRel mod_ doc : js_value) :
  urlRewriteFunction ctx JNull useRel mod_ doc = Return JNull
  /\ (forall url, startsWith url "#" = true ->
        urlRewriteFunction ctx (JString url) useRel mod_ doc
        = Return (JString url))
  /\ (forall url, startsWith url (orig_host ctx) = true ->
        urlRewriteFunction ctx (JString url) useRel mod_ doc
        = Return (JString url)).
Proof.
  split; [reflexivity|]. split; intros url H; apply rewrite_passthrough.
  - apply passthrough_prefix with (p := "#"%string); [|exact H].
    left. reflexivity.
  - apply passthrough_orig_host. exact H.
Qed.

Lemma trivial_passthroughs_witness :
  urlRewriteFunction ctx_absolute_prefix (JString "#frag") JNull JNull JNull
    = Return (JString "#frag")
  /\ urlRewriteFunction ctx_absolute_prefix
       (JString (orig_host ctx_absolute_prefix ++ "/x")) JNull JNull JNull
     = Return (JString (orig_host ctx_absolute_prefix ++ "/x")).
Proof.
  destruct (trivial_passthroughs ctx_absolute_prefix JNull JNull JNull)
    as (_ & Hhash & Hhost).
  split; [apply Hhash | apply Hhost]; reflexivity.
Defined.

(** ** C10: what the result depends on *)

(** C10: the result is a function of the url and of the five values of
    the context; the parameters [useRel], [mod] and [doc] never change
    it. *)
Theorem rewrite_depends_on_url_and_context
  (cu oh os ou pf : string) (url : js_value)
  (useRel mod_ doc useRel' mod_' doc' : js_value) :
  urlRewriteFunction (Context cu oh os ou pf) url useRel mod_ doc
  = urlRewriteFunction (Context cu oh os ou pf) url useRel' mod_' doc'.
Proof. destruct url; reflexivity. Qed.

(** ** C9: errors are propagated *)

Lemma bind_throw (A B : Type) (c : completion A) (f : A -> completion B) e :
  bind c f = Throw e <->
  c = Throw e \/ exists v, c = Return v /\ f v = Throw e.
Proof.
  destruct c as [v|e']; simpl; split.
  - intros H. right. exists v. auto.
  - intros [H | (v' & [= ->] & H)]; [discriminate | exact H].
  - intros [= ->]. left. reflexivity.
  - intros [[= ->] | (v' & H & _)]; [reflexivity | discriminate].
Qed.

Lemma absolute_url_throw ctx s e :
  absolute_url ctx s = Throw e <->
  startsWith s "//" = false
  /\ new_URL s (Some (if startsWith s "/" then orig_url ctx
                      else current_url ctx)) = Throw e.
Proof.
  unfold absolute_url.
  destruct (startsWith s "//"); [split; [discriminate | intros [[=] _]]|].
  destruct (startsWith s "/"); rewrite bind_throw; split.
  - intros [H | (v & _ & [=])]. auto.
  - intros [_ H]. auto.
  - intros [H | (v & _ & [=])]. auto.
  - intros [_ H]. auto.
Qed.

Lemma reassemble_throw ctx reduced e :
  reassemble ctx reduced = Throw e <->
  new_URL (prefix ctx ++ reduced) None = Throw e.
Proof.
  unfold reassemble. rewrite bind_throw. split.
  - intros [H | (v & _ & [=])]. exact H.
  - auto.
Qed.

Lemma rewrite_returns ctx s useRel mod_ doc v :
  passthrough ctx s = false ->
  urlRewriteFunction ctx (JString s) useRel mod_ doc = Return v ->
  exists a u,
    absolute_url ctx s = Return a
    /\ new_URL (prefix ctx ++ reduce (entry_path ctx a)) None = Return u
    /\ v = JString (toString (fold_query u)).
Proof.
  intros Hp. rewrite rewrite_not_passthrough by exact Hp.
  unfold rewrite_string, from_absolute, reassemble.
  destruct (absolute_url ctx s) as [a|e]; cbn [bind]; [|intros [=]].
  destruct (new_URL (prefix ctx ++ reduce (entry_path ctx a)) None)
    as [u|e] eqn:Hu; cbn [bind]; [|intros [=]].
  intros [= <-]. exists a, u. auto.
Qed.

(** C9: the call throws exactly when the input is not a passthrough and
    the URL parser fails, at the resolution against the original or the
    current url, or on the reassembled [prefix + reduced_path]; the
    error of the parser is the error of the call.  When the call returns
    on such an input, both steps have succeeded and the result is the
    serialisation of the reassembled url: no failure is replaced by a
    value. *)
Theorem rewrite_throws_iff (ctx : context) (url useRel mod_ doc : js_value)
  (e : js_error) :
  (urlRewriteFunction ctx url useRel mod_ doc = Throw e <->
   exists s,
     url = JString s /\ passthrough ctx s = false
     /\ ((startsWith s "//" = false
          /\ new_URL s (Some (if startsWith s "/" then orig_url ctx
                              else current_url ctx)) = Throw e)
         \/ (exists a,
               absolute_url ctx s = Return a
               /\ new_URL (prefix ctx ++ reduce (entry_path ctx a)) None
                  = Throw e)))
  /\ (forall s v,
        url = JString s -> passthrough ctx s = false ->
        urlRewriteFunction ctx url useRel mod_ doc = Return v ->
        exists a u,
          absolute_url ctx s = Return a
          /\ new_URL (prefix ctx ++ reduce (entry_path ctx a)) None
             = Return u
          /\ v = JString (toString (fold_query u))).
Proof.
  split; [split|].
  - destruct url as [| |s]; simpl; try discriminate.
    destruct (passthrough ctx s) eqn:Hp; [discriminate|].
    intros H. apply bind_throw in H.
    destruct H as [H | (v & _ & [=])].
    exists s. split; [reflexivity|]. split; [exact Hp|].
    unfold rewrite_string in H. apply bind_throw in H.
    destruct H as [H | (a & Ha & H)].
    + left. apply absolute_url_throw. exact H.
    + right. exists a. split; [exact Ha|].
      apply reassemble_throw. exact H.
  - intros (s & -> & Hp & H). rewrite rewrite_not_passthrough by exact Hp.
    apply bind_throw. left. unfold rewrite_string. apply bind_throw.
    destruct H as [H | (a & Ha & H)].
    + left. apply absolute_url_throw. exact H.
    + right. exists a. split; [exact Ha|].
      apply reassemble_throw. exact H.
  - intros s v -> Hp. apply rewrite_returns. exact Hp.
Qed.

(** A relative reference that cannot be resolved, and a prefix that is
    not an absolute url: both calls throw. *)
Lemma rewrite_throws_scenario :
  urlRewriteFunction
    (Context "not a url" "https://example.com" "https:"
             "https://example.com/v" "https://replay.example/a/")
    (JString "img/logo.png") JNull JNull JNull
  = Throw (TypeError "Invalid base URL")
  /\ urlRewriteFunction ctx_relative_prefix (JString "img/logo.png")
       JNull JNull JNull
     = Throw (TypeError "Invalid URL").
Proof. split; vm_compute; reflexivity. Qed.

(** ** C8: absolute resolution by the shape of the input *)

Lemma startsWith_cons c p s :
  startsWith s (String c p) = true ->
  exists s', s = String c s' /\ startsWith s' p = true.
Proof.
  unfold startsWith. destruct s as [|c' s']; simpl; [discriminate|].
  destruct (ascii_dec c c') as [->|]; [|discriminate].
  intros H. exists s'. auto.
Qed.

Lemma startsWith_slashes s :
  startsWith s "//" = true -> startsWith s "/" = true.
Proof.
  intros H. apply startsWith_cons in H. destruct H as (s' & -> & _).
  unfold startsWith. simpl. destruct s'; reflexivity.
Qed.

(** ** The parser on an input that starts with a slash *)

Lemma drop_while_stop p c : forall l,
  p c = false -> exists l', URL.drop_while p (l ++ [c]) = l' ++ [c].
Proof.
  induction l as [|x l IH]; intros Hc; simpl.
  - rewrite Hc. exists []. reflexivity.
  - destruct (p x).
    + apply IH. exact Hc.
    + exists (x :: l). reflexivity.
Qed.

Lemma cut_slash s :
  exists s2 q f, URL.cut ("/"%char :: s) = ("/"%char :: s2, q, f).
Proof.
  unfold URL.cut, URL.trim.
  change (URL.drop_while URL.is_c0_or_space ("/"%char :: s))
    with ("/"%char :: s).
  simpl rev.
  destruct (drop_while_stop URL.is_c0_or_space "/"%char (rev s) eq_refl)
    as (l' & ->).
  rewrite rev_app_distr. simpl.
  destruct (URL.split_first (Ascii.eqb "#")
              (filter (fun c => negb (URL.is_tab_or_newline c)) (rev l')))
    as [s1 f].
  simpl.
  destruct (URL.split_first (Ascii.eqb "?") s1) as [s2 q].
  exists s2, q, f. reflexivity.
Qed.

Lemma basic_parse_slash s : URL.basic_parse ("/"%char :: s) None = None.
Proof.
  unfold URL.basic_parse.
  destruct (cut_slash s) as (s2 & q & f & ->). reflexivity.
Qed.

Lemma new_URL_not_slash url u :
  new_URL url None = Return u -> startsWith url "/" = false.
Proof.
  unfold new_URL. intros H.
  destruct (startsWith url "/") eqn:Hs; [|reflexivity].
  apply startsWith_cons in Hs. destruct Hs as (s' & -> & _).
  simpl in H. rewrite basic_parse_slash in H. discriminate.
Qed.

Lemma scheme_not_slash url :
  URL.has_scheme_and_slashes (list_ascii_of_string url) = true ->
  startsWith url "/" = false.
Proof.
  intros H. destruct (startsWith url "/") eqn:Hs; [|reflexivity].
  apply startsWith_cons in Hs. destruct Hs as (s' & -> & _).
  unfold URL.has_scheme_and_slashes in H. simpl list_ascii_of_string in H.
  destruct (cut_slash (list_ascii_of_string s')) as (s2 & q & f & Hc).
  rewrite Hc in H. simpl in H. discriminate.
Qed.

(** A URL with a scheme and [//] is parsed without a look at the
    base. *)
Lemma basic_parse_base_independent s b :
  URL.has_scheme_and_slashes s = true ->
  URL.basic_parse s (Some b) = URL.basic_parse s None.
Proof.
  unfold URL.has_scheme_and_slashes, URL.basic_parse.
  destruct (URL.cut s) as [[s2 q] f]. simpl fst.
  destruct (URL.split_scheme s2) as [[sch rest]|]; [|discriminate].
  intros H. destruct (URL.is_file sch); [reflexivity|].
  destruct (URL.is_special sch); [|reflexivity].
  rewrite H. simpl. rewrite andb_false_r. reflexivity.
Qed.

Lemma new_URL_base_independent url base b :
  URL.has_scheme_and_slashes (list_ascii_of_string url) = true ->
  new_URL base None = Return b ->
  new_URL url (Some base) = new_URL url None.
Proof.
  intros Hs Hb. unfold new_URL in *.
  destruct (URL.basic_parse (list_ascii_of_string base) None) as [bu|];
    [|discriminate].
  rewrite basic_parse_base_independent by exact Hs. reflexivity.
Qed.

(** C8: an input that is not a passthrough is resolved by its shape:
    after [//] the original scheme is put in front; after a single [/]
    the input is resolved against the original url; every other input
    is resolved against the current url, and there an input with a
    scheme and [//] is parsed as if no base were given. *)
Theorem absolute_resolution_by_shape (ctx : context) (url : string)
  (useRel mod_ doc : js_value) :
  passthrough ctx url = false ->
  (startsWith url "//" = true ->
   urlRewriteFunction ctx (JString url) useRel mod_ doc
   = let* r := from_absolute ctx (orig_scheme ctx ++ url) in
     Return (JString r))
  /\ (startsWith url "//" = false -> startsWith url "/" = true ->
      urlRewriteFunction ctx (JString url) useRel mod_ doc
      = let* u := new_URL url (Some (orig_url ctx)) in
        let* r := from_absolute ctx (toString u) in
        Return (JString r))
  /\ (startsWith url "/" = false ->
      urlRewriteFunction ctx (JString url) useRel mod_ doc
      = let* u := new_URL url (Some (current_url ctx)) in
        let* r := from_absolute ctx (toString u) in
        Return (JString r))
  /\ (URL.has_scheme_and_slashes (list_ascii_of_string url) = true ->
      forall b, new_URL (current_url ctx) None = Return b ->
      urlRewriteFunction ctx (JString url) useRel mod_ doc
      = let* u := new_URL url None in
        let* r := from_absolute ctx (toString u) in
        Return (JString r)).
Proof.
  intros Hp. rewrite rewrite_not_passthrough by exact Hp.
  unfold rewrite_string, absolute_url.
  assert (Hother : startsWith url "/" = false ->
    (let* r := let* absolute :=
         if startsWith url "//" then Return (orig_scheme ctx ++ url)%string
         else if startsWith url "/"
              then let* u := new_URL url (Some (orig_url ctx)) in
                   Return (toString u)
              else let* u := new_URL url (Some (current_url ctx)) in
                   Return (toString u) in
       from_absolute ctx absolute in Return (JString r))
    = let* u := new_URL url (Some (current_url ctx)) in
      let* r := from_absolute ctx (toString u) in Return (JString r)).
  { intros H1.
    destruct (startsWith url "//") eqn:H2.
    - apply startsWith_slashes in H2. congruence.
    - rewrite H1. destruct (new_URL url (Some (current_url ctx)));
        reflexivity. }
  repeat split.
  - intros ->. reflexivity.
  - intros -> ->. destruct (new_URL url (Some (orig_url ctx))); reflexivity.
  - exact Hother.
  - intros Hs b Hb. rewrite (Hother (scheme_not_slash url Hs)).
    rewrite (new_URL_base_independent url (current_url ctx) b Hs Hb).
    reflexivity.
Qed.

Lemma absolute_resolution_by_shape_witness :
  urlRewriteFunction ctx_absolute_prefix (JString "//cdn.example/x.js")
    JNull JNull JNull
  = (let* r := from_absolute ctx_absolute_prefix
                 (orig_scheme ctx_absolute_prefix ++ "//cdn.example/x.js") in
     Return (JString r))
  /\ urlRewriteFunction ctx_absolute_prefix (JString "/a/b.png")
       JNull JNull JNull
     = (let* u := new_URL "/a/b.png"
                    (Some (orig_url ctx_absolute_prefix)) in
        let* r := from_absolute ctx_absolute_prefix (toString u) in
        Return (JString r))
  /\ urlRewriteFunction ctx_absolute_prefix (JString "img/logo.png")
       JNull JNull JNull
     = (let* u := new_URL "img/logo.png"
                    (Some (current_url ctx_absolute_prefix)) in
        let* r := from_absolute ctx_absolute_prefix (toString u) in
        Return (JString r))
  /\ urlRewriteFunction ctx_absolute_prefix
       (JString "http://other.example/z") JNull JNull JNull
     = (let* u := new_URL "http://other.example/z" None in
        let* r := from_absolute ctx_absolute_prefix (toString u) in
        Return (JString r)).
Proof.
  split; [|split; [|split]].
  - destruct (absolute_resolution_by_shape ctx_absolute_prefix
                "//cdn.example/x.js" JNull JNull JNull eq_refl)
      as (H & _).
    apply H. reflexivity.
  - destruct (absolute_resolution_by_shape ctx_absolute_prefix
                "/a/b.png" JNull JNull JNull eq_refl)
      as (_ & H & _).
    apply H; reflexivity.
  - destruct (absolute_resolution_by_shape ctx_absolute_prefix
                "img/logo.png" JNull JNull JNull eq_refl)
      as (_ & _ & H & _).
    apply H. reflexivity.
  - destruct (absolute_resolution_by_shape ctx_absolute_prefix
                "http://other.example/z" JNull JNull JNull eq_refl)
      as (_ & _ & _ & H).
    eapply H; reflexivity.
Defined.

(** ** C1: the scenario of rule 1 *)

(** C1, as amended: with the context of the scenario and the absolute
    serving prefix [https://replay.example/archive/20230101/], the url
    [https://r1.googlevideo.com/videoplayback?id=abc123&itag=22] is
    rewritten to the prefix followed by
    [youtube.fuzzy.replayweb.page/videoplayback%3Fid%3Dabc123]: the
    template of rule 1, the parameters other than [id] dropped, the
    query folded into the path.  With the relative prefix
    [/archive/20230101/] the call throws at the reassembly, and the
    host [s.ytimg.com] is left alone by every rule. *)
Theorem rule1_scenario (useRel mod_ doc : js_value) :
  urlRewriteFunction ctx_absolute_prefix
    (JString "https://r1.googlevideo.com/videoplayback?id=abc123&itag=22")
    useRel mod_ doc
  = Return (JString "https://replay.example/archive/20230101/youtube.fuzzy.replayweb.page/videoplayback%3Fid%3Dabc123")
  /\ reduce "r1.googlevideo.com/videoplayback?id=abc123&itag=22"
     = "youtube.fuzzy.replayweb.page/videoplayback?id=abc123"%string
  /\ reduce "s.ytimg.com/videoplayback?id=abc123&itag=22"
     = "s.ytimg.com/videoplayback?id=abc123&itag=22"%string
  /\ urlRewriteFunction ctx_relative_prefix
       (JString "https://s.ytimg.com/videoplayback?id=abc123&itag=22")
       useRel mod_ doc
     = Throw (TypeError "Invalid URL")
  /\ urlRewriteFunction ctx_relative_prefix
       (JString "https://r1.googlevideo.com/videoplayback?id=abc123&itag=22")
       useRel mod_ doc
     = Throw (TypeError "Invalid URL").
Proof. repeat split; vm_compute; reflexivity. Qed.

(** C1 as stated fails: the call does not return the url of the
    scenario. *)
Lemma rule1_scenario_counterexample :
  urlRewriteFunction ctx_relative_prefix
    (JString "https://s.ytimg.com/videoplayback?id=abc123&itag=22")
    JNull JNull JNull
  <> Return (JString "/archive/20230101/youtube.fuzzy.replayweb.page/videoplayback?id=abc123").
Proof. vm_compute. discriminate. Qed.

(** ** Strings: prefixes *)

Lemma startsWith_append p s : startsWith (p ++ s) p = true.
Proof.
  unfold startsWith. induction p as [|c p IH]; simpl.
  - destruct s; reflexivity.
  - destruct (ascii_dec c c); [exact IH | congruence].
Qed.

Lemma substring_all s : String.substring 0 (String.length s) s = s.
Proof. induction s as [|c s IH]; simpl; [|rewrite IH]; reflexivity. Qed.

Lemma substring_from_append p s :
  substring_from (String.length p) (p ++ s) = s.
Proof.
  unfold substring_from. rewrite append_length.
  replace (String.length p + String.length s - String.length p)
    with (String.length s) by lia.
  induction p as [|c p IH]; simpl.
  - apply substring_all.
  - exact IH.
Qed.

Lemma entry_path_of_prefixed ctx p :
  entry_path ctx (prefix ctx ++ p) = p.
Proof.
  unfold entry_path. rewrite startsWith_append.
  apply substring_from_append.
Qed.

(** ** A serialised url is parsed without a look at the base *)

Lemma drop_while_keep p c y : forall x,
  p c = false ->
  exists x', URL.drop_while p (x ++ c :: y) = x' ++ c :: y.
Proof.
  induction x as [|a x IH]; intros Hc; simpl.
  - rewrite Hc. exists []. reflexivity.
  - destruct (p a).
    + apply IH. exact Hc.
    + exists (a :: x). reflexivity.
Qed.

Lemma trim_keeps pre tail :
  pre <> [] ->
  forallb (fun c => negb (URL.is_c0_or_space c)) pre = true ->
  exists tail', URL.trim (pre ++ tail) = pre ++ tail'.
Proof.
  intros Hne Hpre. unfold URL.trim.
  destruct pre as [|c pre']; [congruence|].
  assert (Hc : URL.is_c0_or_space c = false).
  { simpl in Hpre. apply andb_true_iff in Hpre. destruct Hpre as [Hc _].
    apply negb_true_iff. exact Hc. }
  simpl app. simpl URL.drop_while. rewrite Hc.
  destruct (exists_last (l := c :: pre') ltac:(discriminate))
    as (body & z & Hz).
  assert (Hzs : URL.is_c0_or_space z = false).
  { rewrite Hz in Hpre. rewrite forallb_app in Hpre.
    apply andb_true_iff in Hpre. destruct Hpre as [_ Hl]. simpl in Hl.
    rewrite andb_true_r in Hl. apply negb_true_iff. exact Hl. }
  change (c :: pre' ++ tail) with ((c :: pre') ++ tail).
  rewrite Hz. rewrite rev_app_distr, rev_app_distr. simpl rev at 2.
  simpl app at 2.
  destruct (drop_while_keep URL.is_c0_or_space z (rev body) (rev tail) Hzs)
    as (x' & Hx).
  rewrite Hx. exists (rev x').
  change (c :: pre' ++ rev x') with ((c :: pre') ++ rev x'). rewrite Hz.
  rewrite rev_app_distr. simpl. rewrite rev_involutive.
  rewrite <- !app_assoc. reflexivity.
Qed.

Lemma filter_keeps (f : ascii -> bool) (l : chars) :
  forallb f l = true -> filter f l = l.
Proof.
  induction l as [|c l IH]; simpl; [reflexivity|].
  intros H. apply andb_true_iff in H. destruct H as [Hc Hl].
  rewrite Hc, (IH Hl). reflexivity.
Qed.

Lemma split_first_prefix d t : forall pre,
  forallb (fun c => negb (d c)) pre = true ->
  URL.split_first d (pre ++ t)
  = (pre ++ fst (URL.split_first d t), snd (URL.split_first d t)).
Proof.
  induction pre as [|c pre IH]; simpl; intros H.
  - destruct (URL.split_first d t). reflexivity.
  - apply andb_true_iff in H. destruct H as [Hc Hp].
    apply negb_true_iff in Hc. rewrite Hc, (IH Hp). reflexivity.
Qed.

Lemma cut_keeps pre tail :
  pre <> [] -> forallb kept_char pre = true ->
  exists t2 q f, URL.cut (pre ++ tail) = (pre ++ t2, q, f).
Proof.
  intros Hne Hpre. unfold URL.cut.
  destruct (trim_keeps pre tail Hne) as (tail' & ->).
  { revert Hpre. apply forallb_weaken. intros c Hc. unfold kept_char in Hc.
    repeat (apply andb_true_iff in Hc; destruct Hc as [Hc ?]). exact Hc. }
  rewrite filter_app.
  rewrite (filter_keeps _ pre).
  2:{ revert Hpre. apply forallb_weaken. intros c Hc. unfold kept_char in Hc.
      repeat (apply andb_true_iff in Hc; destruct Hc as [Hc ?]).
      assumption. }
  rewrite split_first_prefix.
  2:{ revert Hpre. apply forallb_weaken. intros c Hc. unfold kept_char in Hc.
      repeat (apply andb_true_iff in Hc; destruct Hc as [Hc ?]).
      assumption. }
  rewrite split_first_prefix.
  2:{ revert Hpre. apply forallb_weaken. intros c Hc. unfold kept_char in Hc.
      repeat (apply andb_true_iff in Hc; destruct Hc as [Hc ?]).
      assumption. }
  eexists. eexists. eexists. reflexivity.
Qed.

Lemma scheme_char_facts c :
  URL.is_scheme_char c = true ->
  URL.is_scheme_char (URL.lower c) = true
  /\ kept_char c = true /\ Ascii.eqb c ":" = false.
Proof.
  intros H.
  assert (A : forall x,
    implb (URL.is_scheme_char x)
      (URL.is_scheme_char (URL.lower x) && kept_char x
       && negb (Ascii.eqb x ":")) = true).
  { apply ascii_forall. vm_compute. reflexivity. }
  specialize (A c). rewrite H in A. simpl in A.
  repeat (apply andb_true_iff in A; destruct A as [A ?]).
  repeat split; try assumption. apply negb_true_iff. assumption.
Qed.

Lemma scheme_rest_chars : forall s sch rest,
  URL.scheme_rest s = Some (sch, rest) ->
  forallb URL.is_scheme_char sch = true.
Proof.
  induction s as [|c s IH]; intros sch rest H; simpl in H; [discriminate|].
  destruct (Ascii.eqb c ":").
  - injection H as <- _. reflexivity.
  - destruct (URL.is_scheme_char c) eqn:Hc; [|discriminate].
    destruct (URL.scheme_rest s) as [[sch' rest']|] eqn:Hs; [|discriminate].
    injection H as <- _. simpl.
    rewrite (proj1 (scheme_char_facts c Hc)). apply (IH _ _ eq_refl).
Qed.

Lemma scheme_rest_app x : forall sch,
  forallb URL.is_scheme_char sch = true ->
  URL.scheme_rest (sch ++ ":"%char :: x) = Some (map URL.lower sch, x).
Proof.
  induction sch as [|c sch IH]; simpl; intros H; [reflexivity|].
  apply andb_true_iff in H. destruct H as [Hc Hs].
  destruct (scheme_char_facts c Hc) as (_ & _ & Hcolon).
  rewrite Hcolon, Hc, (IH Hs). reflexivity.
Qed.

Lemma split_scheme_nonempty s sch rest :
  URL.split_scheme s = Some (sch, rest) ->
  sch <> [] /\ forallb URL.is_scheme_char sch = true
  /\ URL.scheme_rest s = Some (sch, rest).
Proof.
  unfold URL.split_scheme. destruct s as [|c s']; [discriminate|].
  destruct (is_alpha c) eqn:Ha; [|discriminate].
  intros H. split; [|split; [eapply scheme_rest_chars; exact H | exact H]].
  simpl in H.
  assert (Hc : Ascii.eqb c ":" = false).
  { assert (A : forall x, implb (is_alpha x) (negb (Ascii.eqb x ":")) = true).
    { apply ascii_forall. vm_compute. reflexivity. }
    specialize (A c). rewrite Ha in A. apply negb_true_iff. exact A. }
  rewrite Hc in H.
  destruct (URL.is_scheme_char c); [|discriminate].
  destruct (URL.scheme_rest s') as [[sch' rest']|]; [|discriminate].
  injection H as <- _. discriminate.
Qed.

Lemma parse_from_authority_href sch x q f u :
  URL.parse_from_authority sch x q f = Some u ->
  exists tail,
    URL.href_chars u = (sch ++ URL.lit "://") ++ tail.
Proof.
  unfold URL.parse_from_authority.
  destruct (URL.break (URL.is_slash (URL.is_special sch)) x) as [auth rest].
  destruct (URL.parse_authority sch auth) as [a|]; [|discriminate].
  intros [= <-]. unfold URL.href_chars, URL.serialize_authority. simpl.
  eexists. rewrite <- !app_assoc. simpl. reflexivity.
Qed.

Lemma serialised_has_slashes s u :
  URL.basic_parse s None = Some u ->
  URL.href_chars u = s ->
  URL.is_special (URL.scheme u) = true ->
  URL.has_scheme_and_slashes s = true.
Proof.
  unfold URL.basic_parse, URL.has_scheme_and_slashes.
  destruct (URL.cut s) as [[s2 q] f] eqn:Hcut. simpl fst.
  destruct (URL.split_scheme s2) as [[sch rest]|] eqn:Hsch; [|discriminate].
  destruct (URL.is_file sch); [discriminate|].
  destruct (split_scheme_nonempty _ _ _ Hsch) as (Hne & Hchars & Hrest).
  destruct (URL.is_special sch) eqn:Hsp.
  - intros Hp Hhref _.
    destruct (parse_from_authority_href _ _ _ _ _ Hp) as (tail & Ht).
    rewrite Hhref in Ht. clear Hhref. subst s.
    destruct (cut_keeps (sch ++ URL.lit "://") tail) as (t2 & q' & f' & Hc).
    { destruct sch; [congruence | discriminate]. }
    { rewrite forallb_app. apply andb_true_iff. split; [|reflexivity].
      revert Hchars. apply forallb_weaken. intros c Hc.
      apply (scheme_char_facts c Hc). }
    rewrite Hc in Hcut. injection Hcut as <- _ _.
    rewrite <- app_assoc in Hrest. simpl in Hrest.
    rewrite scheme_rest_app in Hrest by exact Hchars.
    injection Hrest as _ <-. reflexivity.
  - intros Hp _ Hs. exfalso.
    destruct rest as [|c r1].
    + injection Hp as <-. simpl in Hs. congruence.
    + destruct (Ascii.eqb c "/").
      * destruct r1 as [|c2 r2].
        -- injection Hp as <-. simpl in Hs. congruence.
        -- destruct (Ascii.eqb c2 "/").
           ++ unfold URL.parse_from_authority in Hp.
              destruct (URL.break _ r2) as [auth rest'].
              destruct (URL.parse_authority sch auth); [|discriminate].
              injection Hp as <-. simpl in Hs. congruence.
           ++ injection Hp as <-. simpl in Hs. congruence.
      * injection Hp as <-. simpl in Hs. congruence.
Qed.

Lemma basic_parse_not_special s b u :
  URL.basic_parse s None = Some u ->
  URL.is_special (URL.scheme u) = false ->
  URL.basic_parse s (Some b) = Some u.
Proof.
  unfold URL.basic_parse.
  destruct (URL.cut s) as [[s2 q] f].
  destruct (URL.split_scheme s2) as [[sch rest]|]; [|discriminate].
  destruct (URL.is_file sch); [discriminate|].
  destruct (URL.is_special sch) eqn:Hsp; [|auto].
  intros Hp Hs. exfalso. unfold URL.parse_from_authority in Hp.
  destruct (URL.break _ _) as [auth rest'].
  destruct (URL.parse_authority sch auth); [|discriminate].
  injection Hp as <-. simpl in Hs. congruence.
Qed.

(** A url in serialised form resolves to itself against every base. *)
Lemma serialised_base_independent s u b :
  URL.basic_parse s None = Some u ->
  URL.href_chars u = s ->
  URL.basic_parse s (Some b) = Some u.
Proof.
  intros Hp Hhref.
  destruct (URL.is_special (URL.scheme u)) eqn:Hsp.
  - rewrite basic_parse_base_independent; [exact Hp|].
    eapply serialised_has_slashes; eauto.
  - apply basic_parse_not_special; assumption.
Qed.

Lemma new_URL_serialised url base b u :
  new_URL base None = Return b ->
  new_URL url None = Return u ->
  toString u = url ->
  new_URL url (Some base) = Return u.
Proof.
  unfold new_URL, toString. intros Hb Hu Hs.
  destruct (URL.basic_parse (list_ascii_of_string base) None) as [bu|];
    [|discriminate].
  destruct (URL.basic_parse (list_ascii_of_string url) None) as [u'|] eqn:Hp;
    [|discriminate].
  injection Hu as ->.
  rewrite (serialised_base_independent _ u bu Hp).
  - reflexivity.
  - rewrite <- Hs. symmetry. apply list_ascii_of_string_of_list_ascii.
Qed.

(** ** C5: an already rewritten url *)

Lemma fold_query_no_search u : search u = ""%string -> fold_query u = u.
Proof. intros H. unfold fold_query. rewrite H. reflexivity. Qed.

(** C5, as amended: for every entry path [p] that no fuzzy rule
    changes, if [prefix + p] is an absolute url in serialised form
    without a query (it parses, serialises to itself, and its search is
    empty) and the current url of the context parses, the rewrite
    function returns [prefix + p] unchanged. *)
Theorem prefix_round_trip (ctx : context) (p : string) (b u : URL.t)
  (useRel mod_ doc : js_value) :
  (forall r, In r fuzzy_rules -> apply_rule r p = p) ->
  new_URL (current_url ctx) None = Return b ->
  new_URL (prefix ctx ++ p) None = Return u ->
  toString u = (prefix ctx ++ p)%string ->
  search u = ""%string ->
  urlRewriteFunction ctx (JString (prefix ctx ++ p)) useRel mod_ doc
  = Return (JString (prefix ctx ++ p)).
Proof.
  intros Hred Hb Hu Hs Hq.
  destruct (passthrough ctx (prefix ctx ++ p)) eqn:Hp.
  - apply rewrite_passthrough. exact Hp.
  - rewrite rewrite_not_passthrough by exact Hp.
    pose proof (new_URL_not_slash _ _ Hu) as Hslash.
    pose proof (new_URL_serialised _ _ _ _ Hb Hu Hs) as Hres.
    unfold rewrite_string, absolute_url.
    destruct (startsWith (prefix ctx ++ p) "//") eqn:Hss.
    { apply startsWith_slashes in Hss. congruence. }
    rewrite Hslash, Hres. simpl. rewrite Hs.
    unfold from_absolute. rewrite entry_path_of_prefixed.
    rewrite (reduce_fixed p Hred). unfold reassemble.
    rewrite Hu. simpl. rewrite fold_query_no_search by exact Hq.
    rewrite Hs. reflexivity.
Qed.

Lemma prefix_round_trip_witness :
  urlRewriteFunction ctx_absolute_prefix
    (JString (prefix ctx_absolute_prefix ++ stored_entry)) JNull JNull JNull
  = Return (JString (prefix ctx_absolute_prefix ++ stored_entry)).
Proof.
  destruct (new_URL (prefix ctx_absolute_prefix ++ stored_entry) None)
    as [u|e] eqn:Hu; [|vm_compute in Hu; discriminate].
  destruct (new_URL (current_url ctx_absolute_prefix) None)
    as [b|e] eqn:Hb; [|vm_compute in Hb; discriminate].
  apply (prefix_round_trip ctx_absolute_prefix stored_entry b u).
  - intros r Hr. simpl in Hr.
    repeat (destruct Hr as [<-|Hr]; [vm_compute; reflexivity|]).
    destruct Hr.
  - exact Hb.
  - exact Hu.
  - vm_compute in Hu. injection Hu as <-. vm_compute. reflexivity.
  - vm_compute in Hu. injection Hu as <-. vm_compute. reflexivity.
Defined.

(** C5 as stated fails: an entry path with a query, which no rule
    changes, comes back with the query folded into the path. *)
Lemma prefix_round_trip_counterexample :
  (forall r, In r fuzzy_rules ->
     apply_rule r "example.com/page?a=1" = "example.com/page?a=1"%string)
  /\ urlRewriteFunction ctx_absolute_prefix
       (JString (prefix ctx_absolute_prefix ++ "example.com/page?a=1"))
       JNull JNull JNull
     = Return (JString "https://replay.example/archive/20230101/example.com/page%3Fa%3D1")
  /\ urlRewriteFunction ctx_absolute_prefix
       (JString (prefix ctx_absolute_prefix ++ "example.com/page?a=1"))
       JNull JNull JNull
     <> Return (JString (prefix ctx_absolute_prefix ++ "example.com/page?a=1")).
Proof.
  split; [|split].
  - intros r Hr. simpl in Hr.
    repeat (destruct Hr as [<-|Hr]; [vm_compute; reflexivity|]).
    destruct Hr.
  - vm_compute. reflexivity.
  - vm_compute. discriminate.
Qed.

(** ** Percent-encoding *)

Lemma mem_in (c : ascii) (l : chars) : In c l -> mem c l = true.
Proof.
  induction l as [|x l IH]; simpl; [tauto|].
  intros [-> | H].
  - rewrite Ascii.eqb_refl. reflexivity.
  - rewrite (IH H). apply orb_true_r.
Qed.

Lemma hexdig_pct n : pct_char (URL.hexdig n) = true.
Proof.
  unfold pct_char, URL.hexdig. apply mem_in.
  destruct (nth_in_or_default n (URL.lit "0123456789ABCDEF") "0"%char)
    as [H | ->].
  - right. exact H.
  - simpl. tauto.
Qed.

Lemma pct_byte_pct n : forallb pct_char (URL.pct_byte n) = true.
Proof.
  unfold URL.pct_byte. simpl. rewrite !hexdig_pct. reflexivity.
Qed.

Lemma utf8_pct_pct c : forallb pct_char (URL.utf8_pct c) = true.
Proof.
  unfold URL.utf8_pct. destruct (code c <? 128).
  - apply pct_byte_pct.
  - rewrite forallb_app, !pct_byte_pct. reflexivity.
Qed.

(** What [encode] produces: the characters outside the set, and the
    characters of the escapes. *)
Lemma encode_chars set s :
  forallb (fun c => negb (set c) || pct_char c) (URL.encode set s) = true.
Proof.
  induction s as [|c s IH]; simpl; [reflexivity|].
  rewrite forallb_app, IH, andb_true_r.
  destruct (set c) eqn:Hc.
  - generalize (utf8_pct_pct c). apply forallb_weaken.
    intros x ->. apply orb_true_r.
  - simpl. rewrite Hc. reflexivity.
Qed.


Lemma pct_char_path special c : pct_char c = true -> path_char special c = true.
Proof.
  intros H.
  assert (A : forall x, implb (pct_char x) (path_char special x) = true).
  { apply ascii_forall. destruct special; vm_compute; reflexivity. }
  specialize (A c). rewrite H in A. exact A.
Qed.


Lemma encode_path_chars special s :
  forallb (fun c => negb (URL.is_slash special c)) s = true ->
  forallb (path_char special) (URL.encode URL.path_set s) = true.
Proof.
  induction s as [|c s IH]; simpl; [reflexivity|].
  intros H. apply andb_true_iff in H. destruct H as [Hc Hs].
  rewrite forallb_app, (IH Hs), andb_true_r.
  destruct (URL.path_set c) eqn:Hp.
  - generalize (utf8_pct_pct c). apply forallb_weaken.
    apply pct_char_path.
  - simpl. unfold path_char. rewrite Hc, Hp. reflexivity.
Qed.



(** ** Dot segments *)



(** ** Path segments *)

Lemma split_on_pieces d s : forallb (no_sep d) (URL.split_on d s) = true.
Proof.
  induction s as [|c s IH]; simpl; [reflexivity|].
  destruct (d c) eqn:Hc; simpl.
  - exact IH.
  - destruct (URL.split_on d s) as [|seg segs]; simpl in *.
    + rewrite Hc. reflexivity.
    + rewrite Hc. exact IH.
Qed.





Lemma forallb_removelast (A : Type) (f : A -> bool) : forall l,
  forallb f l = true -> forallb f (removelast l) = true.
Proof.
  induction l as [|x l IH]; simpl; [reflexivity|].
  intros H. apply andb_true_iff in H. destruct H as [Hx Hl].
  destruct l; [reflexivity|]. simpl in *. rewrite Hx. apply IH. exact Hl.
Qed.

Lemma not_dot_parts seg :
  URL.is_double_dot seg = false -> URL.is_single_dot seg = false ->
  is_dot seg = false.
Proof. intros H2 H1. unfold is_dot. rewrite H1, H2. reflexivity. Qed.

Lemma path_state_ok special : forall segs acc,
  forallb (seg_ok special) acc = true ->
  forallb (no_sep (URL.is_slash special)) segs = true ->
  forallb (seg_ok special) (URL.path_state acc segs) = true.
Proof.
  induction segs as [|seg rest IH]; intros acc Hacc Hs; simpl;
    [exact Hacc|].
  simpl in Hs. apply andb_true_iff in Hs. destruct Hs as [Hseg Hrest].
  apply IH; [|exact Hrest].
  pose proof (encode_path_chars special seg Hseg) as Hbuf.
  destruct (URL.is_double_dot (URL.encode URL.path_set seg)) eqn:H2.
  - destruct rest.
    + rewrite forallb_app, forallb_removelast by exact Hacc. reflexivity.
    + apply forallb_removelast. exact Hacc.
  - destruct (URL.is_single_dot (URL.encode URL.path_set seg)) eqn:H1.
    + destruct rest; [|exact Hacc].
      rewrite forallb_app, Hacc. reflexivity.
    + rewrite forallb_app, Hacc. simpl. unfold seg_ok.
      rewrite Hbuf, (not_dot_parts _ H2 H1). reflexivity.
Qed.


Lemma parse_path_ok special acc s :
  forallb (seg_ok special) acc = true ->
  forallb (seg_ok special) (URL.parse_path special acc s) = true.
Proof.
  intros H. unfold URL.parse_path. apply path_state_ok; [exact H|].
  apply split_on_pieces.
Qed.

Lemma path_start_ok special s :
  forallb (seg_ok special) (URL.path_start special s) = true.
Proof.
  unfold URL.path_start. destruct s as [|c s].
  - destruct special; reflexivity.
  - destruct (URL.is_slash special c); apply parse_path_ok; reflexivity.
Qed.

(** ** The parser produces well-formed paths *)




(** A url with a special scheme ([http], [https], ...) is
    hierarchical. *)
Lemma special_hierarchical u :
  wf u -> URL.is_special (URL.scheme u) = true ->
  exists segs, URL.path u = URL.Segments segs.
Proof.
  unfold wf. destruct (URL.path u) as [o|segs].
  - congruence.
  - intros _ _. exists segs. reflexivity.
Qed.


(** ** The [pathname] setter on a well-formed url *)






(** ** C6: query folding *)





(** The scenario of the query folding property. *)
Lemma query_folding_scenario :
  reassemble ctx_absolute_prefix "example.com/path?a=1&b=2"
  = Return "https://replay.example/archive/20230101/example.com/path%3Fa%3D1%26b%3D2"%string.
Proof. vm_compute. reflexivity. Qed.

(** On a url with an opaque path the [pathname] setter does nothing:
    the hierarchical form of the reassembled url is needed for the
    folding. *)
Lemma opaque_path_not_folded :
  reassemble (Context "https://example.com/v" "https://example.com"
                      "https:" "https://example.com/v" "abc:")
    "h/p?a=1"
  = Return "abc:h/p"%string.
Proof. vm_compute. reflexivity. Qed.


(** When the query of a url with an opaque path is cleared, the spaces
    at the end of the path go with it. *)
Lemma opaque_path_trailing_spaces :
  (exists u, new_URL "abc:h/p  ?a=1" None = Return u
             /\ pathname u = "h/p  "%string /\ search u = "?a=1"%string)
  /\ reassemble ctx_opaque_prefix "h/p  ?a=1" = Return "abc:h/p"%string
  /\ reassemble ctx_opaque_prefix "h/p  ?a=1#f" = Return "abc:h/p  #f"%string.
Proof.
  split; [eexists; split; [vm_compute; reflexivity|]; split; reflexivity|].
  split; vm_compute; reflexivity.
Qed.

(** ** Sample paths of the eight rules, reduced once and twice *)

Lemma rule_samples_reduced :
  map reduce rule_samples
  = ["youtube.fuzzy.replayweb.page/videoplayback?id=abc123";
     "youtube.fuzzy.replayweb.page/get_video_info?video_id=zz";
     "example.com/style.css?";
     "youtube.fuzzy.replayweb.page/youtubei/v1/player?videoId=abc";
     "youtube.fuzzy.replayweb.page/embed/dQw4w9WgXcQ";
     "youtube.fuzzy.replayweb.page/embed/dQw4w9WgXcQ";
     "vimeo-cdn.fuzzy.replayweb.page/123/456/789.mp4";
     "vimeo.fuzzy.replayweb.page/video/12345"]%string
  /\ map reduce (map reduce rule_samples) = map reduce rule_samples.
Proof. split; vm_compute; reflexivity. Qed.

(** * Further properties of the rewrite function and of the rules *)

(** ** Inputs that are never rewritten *)

(** X1: an input that starts with one of the eight sentinels ([#],
    [about:], [data:], [blob:], [mailto:], [javascript:], [{], [*]) is
    returned unchanged, whatever follows the sentinel and whatever the
    context; so are the empty string and [undefined]. *)
Theorem sentinel_passthrough (ctx : context) (p rest : string)
  (useRel mod_ doc : js_value) :
  In p passthrough_prefixes ->
  urlRewriteFunction ctx (JString (p ++ rest)) useRel mod_ doc
    = Return (JString (p ++ rest))
  /\ urlRewriteFunction ctx (JString "") useRel mod_ doc
     = Return (JString "")
  /\ urlRewriteFunction ctx JUndefined useRel mod_ doc = Return JUndefined.
Proof.
  intros Hp. split; [|split; reflexivity].
  apply rewrite_passthrough.
  apply passthrough_prefix with (p := p); [exact Hp|].
  apply startsWith_append.
Qed.

Lemma sentinel_passthrough_witness :
  urlRewriteFunction ctx_relative_prefix
    (JString ("javascript:" ++ "void(0)")) JNull JNull JNull
  = Return (JString ("javascript:" ++ "void(0)")).
Proof.
  apply (sentinel_passthrough ctx_relative_prefix "javascript:" "void(0)").
  simpl. tauto.
Defined.

(** ** Paths that most rules cannot match *)

Lemma no_match_without (r : rule) (c : ascii) (set : string) (p : string) :
  needs c (rmatch r) = true -> oneof set c = true ->
  string_forall (noneof set) p = true ->
  apply_rule r p = p.
Proof.
  intros Hn Hc Hp. apply apply_rule_no_match.
  apply exec_needs with (c := c); [exact Hn|].
  apply (noneof_not_in set); assumption.
Qed.

(** X2: every rule but rule 3 asks for a [/]: on a path without [/],
    [reduce] is rule 3 alone. *)
Theorem reduce_without_slash (p : string) :
  string_forall (noneof "/") p = true ->
  reduce p = apply_rule rule3 p.
Proof.
  intros Hp.
  assert (H : forall r, In r [rule1; rule2; rule4; rule5; rule6; rule7; rule8]
                        -> apply_rule r p = p).
  { intros r Hr. simpl in Hr.
    destruct Hr as [<-|[<-|[<-|[<-|[<-|[<-|[<-|[]]]]]]]];
      apply (no_match_without _ "/"%char "/" p);
      solve [vm_compute; reflexivity | exact Hp]. }
  unfold reduce, fuzzy_rules.
  rewrite !reduce_with_skip by (apply H; simpl; tauto).
  destruct (string_dec (apply_rule rule3 p) p) as [Heq | Hne].
  - rewrite reduce_with_skip by exact Heq.
    rewrite reduce_with_fixed; [symmetry; exact Heq|].
    intros r Hr. apply H. simpl in *. tauto.
  - apply reduce_with_fire. exact Hne.
Qed.

Lemma reduce_without_slash_witness :
  reduce "logo.png?20240101" = apply_rule rule3 "logo.png?20240101".
Proof. apply reduce_without_slash. vm_compute. reflexivity. Defined.

Lemma reduce_with_last_inert (r : rule) (p : string) : forall rules,
  apply_rule r p = p ->
  reduce_with (rules ++ [r]) p = reduce_with rules p.
Proof.
  induction rules as [|r0 rules IH]; intros H; simpl.
  - rewrite H, String.eqb_refl. reflexivity.
  - destruct (negb (apply_rule r0 p =? p)%string); [reflexivity|].
    apply IH. exact H.
Qed.

(** X3: rules 1, 2, 3 and 8 ask for a [?]: on a path without a query
    only rules 4 to 7 can apply, in their order. *)
Theorem reduce_without_query (p : string) :
  string_forall (noneof "?") p = true ->
  reduce p = reduce_with [rule4; rule5; rule6; rule7] p.
Proof.
  intros Hp.
  assert (H : forall r, In r [rule1; rule2; rule3; rule8]
                        -> apply_rule r p = p).
  { intros r Hr. simpl in Hr.
    destruct Hr as [<-|[<-|[<-|[<-|[]]]]];
      apply (no_match_without _ "?"%char "?" p);
      solve [vm_compute; reflexivity | exact Hp]. }
  unfold reduce, fuzzy_rules.
  rewrite !reduce_with_skip by (apply H; simpl; tauto).
  change [rule4; rule5; rule6; rule7; rule8]
    with ([rule4; rule5; rule6; rule7] ++ [rule8]).
  apply reduce_with_last_inert. apply H. simpl. tauto.
Qed.

Lemma reduce_without_query_witness :
  reduce "www.youtube.com/embed/dQw4w9WgXcQ"
  = reduce_with [rule4; rule5; rule6; rule7]
      "www.youtube.com/embed/dQw4w9WgXcQ".
Proof. apply reduce_without_query. vm_compute. reflexivity. Defined.

(** ** The static files of the replay *)

Lemma string_append_assoc (a b c : string) :
  ((a ++ b) ++ c = a ++ (b ++ c))%string.
Proof. induction a as [|x a IH]; simpl; [|rewrite IH]; reflexivity. Qed.





(** A name with backslashes is not in serialised form: the parser turns
    them into slashes, and the path that results is open to the rules. *)
Lemma static_name_with_backslashes :
  WbInfo.rewrite_function
    (getWombatInfo "https://example.com/v" "https://example.com" "https:"
       "https://example.com/v" "https://replay.example/archive/20230101/")
    (JString
       "https://replay.example/archive/20230101/_zim_static/youtube.com\embed\abc")
    JNull JNull JNull
  = Return
      (JString
         "https://replay.example/archive/20230101/_zim_static/youtube.fuzzy.replayweb.page/embed/abc").
Proof. vm_compute. reflexivity. Qed.

(** ** A serving prefix that is only a path *)

(** X5: when the serving prefix starts with [/], the reassembled
    [prefix + reduced_path] is never a url: every call on an input that
    is not a passthrough throws. *)
Theorem path_prefix_always_throws (ctx : context) (s : string)
  (useRel mod_ doc : js_value) :
  startsWith (prefix ctx) "/" = true ->
  passthrough ctx s = false ->
  exists e, urlRewriteFunction ctx (JString s) useRel mod_ doc = Throw e.
Proof.
  intros Hpre Hp. rewrite rewrite_not_passthrough by exact Hp.
  apply startsWith_cons in Hpre. destruct Hpre as (p' & Hpre & _).
  unfold rewrite_string, from_absolute, reassemble.
  destruct (absolute_url ctx s) as [a|e]; cbn [bind];
    [|exists e; reflexivity].
  rewrite Hpre. unfold new_URL. simpl list_ascii_of_string.
  rewrite basic_parse_slash. cbn [bind]. eexists. reflexivity.
Qed.

Lemma path_prefix_always_throws_witness :
  exists e,
    urlRewriteFunction ctx_relative_prefix (JString "img/logo.png")
      JNull JNull JNull = Throw e.
Proof.
  apply path_prefix_always_throws; reflexivity.
Defined.

(** ** The entry path *)

Lemma scheme_re_at_start (colon : bool) (sch rest : chars) :
  sch <> [] -> forallb is_word sch = true ->
  m scheme_re
    (MState [] (sch ++ (if colon then [":"%char] else [])
                  ++ "/"%char :: "/"%char :: rest) []) Some
  = Some (MState ("/"%char :: "/"%char
                    :: (if colon then [":"%char] else []) ++ rev sch)
                 rest []).
Proof.
  intros Hne Hw. unfold scheme_re.
  change (m (Bol ;; Plus true (Chr is_word) ;; Opt (Lit ":") ;; Str "//")
            (MState [] (sch ++ (if colon then [":"%char] else [])
                          ++ "/"%char :: "/"%char :: rest) []) Some)
    with (m (Plus true (Chr is_word))
            (MState [] (sch ++ (if colon then [":"%char] else [])
                          ++ "/"%char :: "/"%char :: rest) [])
            (fun st1 => m (Opt (Lit ":") ;; Str "//") st1 Some)).
  apply plus_chr_greedy; try assumption.
  - destruct colon; reflexivity.
  - rewrite app_nil_r. destruct colon; reflexivity.
Qed.

Lemma scheme_re_replace (colon : bool) (sch rest : chars) :
  sch <> [] -> forallb is_word sch = true ->
  replace_chars scheme_re []
    (sch ++ (if colon then [":"%char] else [])
       ++ "/"%char :: "/"%char :: rest)
  = rest.
Proof.
  intros Hne Hw. unfold replace_chars, exec.
  rewrite (exec_from_here _ _ _ _ (scheme_re_at_start colon sch rest Hne Hw)).
  reflexivity.
Qed.

Lemma entry_path_scheme ctx (colon : bool) (sch rest : string) :
  sch <> ""%string -> string_forall is_word sch = true ->
  startsWith (sch ++ (if colon then "://" else "//") ++ rest) (prefix ctx)
    = false ->
  entry_path ctx (sch ++ (if colon then "://" else "//") ++ rest) = rest.
Proof.
  intros Hne Hw Hp. unfold entry_path. rewrite Hp.
  unfold replace. rewrite !list_of_append.
  replace (list_ascii_of_string (if colon then "://" else "//")
             ++ list_ascii_of_string rest)
    with ((if colon then [":"%char] else [])
            ++ "/"%char :: "/"%char :: list_ascii_of_string rest)
    by (destruct colon; reflexivity).
  change (list_ascii_of_string "") with (@nil ascii).
  rewrite scheme_re_replace; auto using string_neq_nil.
  apply string_of_list_ascii_of_string.
Qed.

(** X6: an absolute url that is not under the serving prefix loses its
    scheme: after a non-empty run of letters, digits and underscores, an
    optional [:] and [//], the entry path is all that follows. *)
Theorem entry_path_strips_scheme (ctx : context) (colon : bool)
  (sch rest : string) :
  sch <> ""%string -> string_forall is_word sch = true ->
  startsWith (sch ++ (if colon then "://" else "//") ++ rest) (prefix ctx)
    = false ->
  entry_path ctx (sch ++ (if colon then "://" else "//") ++ rest) = rest.
Proof. apply entry_path_scheme. Qed.

Lemma entry_path_strips_scheme_witness :
  entry_path ctx_absolute_prefix
    ("https" ++ "://" ++ "example.com/a/b?x=1")
  = "example.com/a/b?x=1"%string.
Proof.
  apply (entry_path_strips_scheme ctx_absolute_prefix true "https");
    solve [discriminate | reflexivity].
Defined.

(** X7: under the serving prefix nothing but the prefix is removed:
    whatever [p] is, also when it starts with a scheme of its own, the
    entry path of [prefix + p] is [p]. *)
Theorem entry_path_strips_prefix (ctx : context) (p : string) :
  entry_path ctx (prefix ctx ++ p) = p.
Proof.
  unfold entry_path. rewrite startsWith_append.
  apply substring_from_append.
Qed.

(** X8: a protocol-relative input is not parsed at the resolution: with
    an original scheme made of a word and [:], and an absolute url that
    is not under the serving prefix, what follows the [//] is the entry
    path as it was typed, and the call is the reassembly of its
    reduction. *)
Theorem protocol_relative_verbatim (ctx : context) (sch rest : string)
  (useRel mod_ doc : js_value) :
  orig_scheme ctx = (sch ++ ":")%string ->
  sch <> ""%string -> string_forall is_word sch = true ->
  passthrough ctx ("//" ++ rest) = false ->
  startsWith (sch ++ "://" ++ rest) (prefix ctx) = false ->
  urlRewriteFunction ctx (JString ("//" ++ rest)) useRel mod_ doc
  = let* r := reassemble ctx (reduce rest) in Return (JString r).
Proof.
  intros Hs Hne Hw Hp Hpre. rewrite rewrite_not_passthrough by exact Hp.
  unfold rewrite_string, absolute_url.
  rewrite (startsWith_append "//" rest). cbn [bind].
  unfold from_absolute. rewrite Hs.
  replace ((sch ++ ":") ++ "//" ++ rest)%string
    with (sch ++ "://" ++ rest)%string
    by (rewrite string_append_assoc; reflexivity).
  rewrite (entry_path_scheme ctx true sch rest Hne Hw Hpre).
  reflexivity.
Qed.

Lemma protocol_relative_verbatim_witness :
  urlRewriteFunction ctx_absolute_prefix (JString ("//" ++ "Example.COM/x"))
    JNull JNull JNull
  = (let* r := reassemble ctx_absolute_prefix (reduce "Example.COM/x") in
     Return (JString r)).
Proof.
  apply (protocol_relative_verbatim ctx_absolute_prefix "https");
    solve [discriminate | reflexivity].
Defined.

(** The host of a protocol-relative input keeps its capitals, the host
    of the same url with its scheme does not. *)
Lemma protocol_relative_scenario :
  urlRewriteFunction ctx_absolute_prefix (JString "//Example.COM/x")
    JNull JNull JNull
  = Return (JString "https://replay.example/archive/20230101/Example.COM/x")
  /\ urlRewriteFunction ctx_absolute_prefix (JString "https://Example.COM/x")
       JNull JNull JNull
     = Return (JString "https://replay.example/archive/20230101/example.com/x").
Proof. split; vm_compute; reflexivity. Qed.

(** ** More about the matcher: failing positions and backtracking *)

Lemma m_Str s : forall b a cs k,
  m (Str s) (MState b (list_ascii_of_string s ++ a) cs) k
  = k (MState (rev (list_ascii_of_string s) ++ b) a cs).
Proof.
  induction s as [|c s IH]; intros b a cs k; simpl.
  - reflexivity.
  - rewrite Ascii.eqb_refl. rewrite IH. rewrite <- app_assoc. reflexivity.
Qed.

(** A match needs its characters in what is left of the subject. *)
Lemma m_needs r c st k :
  needs c r = true -> ~ In c (after st) -> m r st k = None.
Proof.
  intros Hn Hc. destruct (m r st k) as [res|] eqn:H; [|reflexivity].
  exfalso. apply m_sound in H. destruct H as (st' & Hm & _).
  destruct (Matches_spans _ _ _ Hm) as (w & Ha & _ & Hin & _).
  apply Hc. rewrite Ha. apply in_or_app. left. apply Hin. exact Hn.
Qed.

Lemma m_needs_then r c1 c2 P v b cs k :
  needs_then c1 c2 r = true -> ~ In c1 P -> ~ In c2 v ->
  m r (MState b (P ++ v) cs) k = None.
Proof.
  intros Hn H1 H2.
  destruct (m r (MState b (P ++ v) cs) k) as [res|] eqn:H; [|reflexivity].
  exfalso. apply m_sound in H. destruct H as (st' & Hm & _).
  destruct (Matches_spans _ _ _ Hm) as (w & Ha & _ & _ & Ht).
  simpl in Ha. destruct (Ht _ _ Hn) as (x & y & z & ->).
  assert (Hs : (x ++ c1 :: y) ++ c2 :: (z ++ after st') = P ++ v).
  { rewrite Ha. repeat (rewrite <- app_assoc; simpl). reflexivity. }
  apply app_cons_split in Hs; [|exact H2].
  destruct Hs as (l2' & ->). apply H1.
  apply in_or_app. left. apply in_or_app. right. left. reflexivity.
Qed.

(** The search moves on from a position where the match fails. *)
Lemma exec_from_skip r pre c rest :
  m r (MState pre (c :: rest) []) Some = None ->
  exec_from r pre (c :: rest) = exec_from r (c :: pre) rest.
Proof. intros H. simpl. rewrite H. reflexivity. Qed.

Lemma exec_from_needs r c pre rest :
  needs c r = true -> ~ In c rest -> exec_from r pre rest = None.
Proof.
  intros Hn Hc. destruct (exec_from r pre rest) as [res|] eqn:H;
    [|reflexivity].
  exfalso. apply exec_from_sound in H.
  destruct H as (skipped & rest' & st' & -> & _ & Hm & _).
  destruct (Matches_spans _ _ _ Hm) as (w & Ha & _ & Hin & _).
  simpl in Ha. apply Hc. apply in_or_app. right. rewrite Ha.
  apply in_or_app. left. apply Hin. exact Hn.
Qed.

(** A greedy repetition whose continuation fails after every non-empty
    run gives way to the continuation at the start. *)
Lemma star_chr_first p k : forall w b a cs fuel,
  forallb p w = true -> stops p a ->
  (forall w1 w2, w = w1 ++ w2 -> w1 <> [] ->
     k (MState (rev w1 ++ b) (w2 ++ a) cs) = None) ->
  length (w ++ a) <= fuel ->
  star_loop (m (Chr p)) true k fuel (MState b (w ++ a) cs)
  = k (MState b (w ++ a) cs).
Proof.
  induction w as [|c w IH]; intros b a cs fuel Hw Ha Hk Hf.
  - simpl. destruct fuel as [|fuel]; simpl; [reflexivity|].
    destruct a as [|c a]; simpl; [reflexivity|].
    simpl in Ha. rewrite Ha. reflexivity.
  - simpl in Hw. apply andb_true_iff in Hw. destruct Hw as [Hc Hw].
    simpl in Hf. destruct fuel as [|fuel]; [lia|].
    simpl. rewrite Hc. unfold progress. simpl.
    destruct (Nat.ltb_spec (length (w ++ a)) (S (length (w ++ a)))); [|lia].
    assert (IH' : star_loop (m (Chr p)) true k fuel
                    (MState (c :: b) (w ++ a) cs)
                  = k (MState (c :: b) (w ++ a) cs)).
    { apply IH; try assumption; [|lia].
      intros w1 w2 -> Hne.
      specialize (Hk (c :: w1) w2 eq_refl). simpl in Hk.
      rewrite <- app_assoc in Hk. apply Hk. discriminate. }
    simpl in IH'. rewrite IH'.
    assert (Hk1 : k (MState (c :: b) (w ++ a) cs) = None).
    { apply (Hk [c] w eq_refl). discriminate. }
    rewrite Hk1. reflexivity.
Qed.

(** What is left after a non-empty start of [c :: P ++ v]. *)
Lemma proper_suffix_split (c : ascii) (P v w1 w2 : chars) :
  (c :: P) ++ v = w1 ++ w2 -> w1 <> [] ->
  exists P2 v2, w2 = P2 ++ v2 /\ incl P2 P /\ incl v2 v.
Proof.
  intros H Hne. destruct w1 as [|c' w1]; [congruence|].
  simpl in H. injection H as _ H.
  apply app_eq_app in H. destruct H as (l & [[-> ->] | [-> ->]]).
  - exists l, v. repeat split.
    + intros x Hx. apply in_or_app. right. exact Hx.
    + apply incl_refl.
  - exists [], w2. repeat split.
    + intros x [].
    + intros x Hx. apply in_or_app. right. exact Hx.
Qed.

Lemma not_in_incl (c : ascii) (a b : chars) :
  incl a b -> ~ In c b -> ~ In c a.
Proof. intros Hi Hb Ha. apply Hb. apply Hi. exact Ha. Qed.

(** A leading [.*] in front of a pattern that needs a character of the
    first position and later a character absent from the variable part:
    the pattern is tried at the start only. *)
Lemma leading_star_first (r : regex) (c0 c2 : ascii) (P v : chars) :
  needs_then c0 c2 r = true ->
  ~ In c0 P -> ~ In c2 v ->
  forallb (fun c => negb (is_line_terminator c)) ((c0 :: P) ++ v) = true ->
  m (Star true Dot ;; r) (MState [] ((c0 :: P) ++ v) []) Some
  = m r (MState [] ((c0 :: P) ++ v) []) Some.
Proof.
  intros Hn HP Hv Hdot.
  change (m (Star true Dot ;; r) (MState [] ((c0 :: P) ++ v) []) Some)
    with (star_loop (m (Chr (fun c => negb (is_line_terminator c)))) true
            (fun st1 => m r st1 Some)
            (length ((c0 :: P) ++ v)) (MState [] ((c0 :: P) ++ v) [])).
  rewrite <- (app_nil_r ((c0 :: P) ++ v)) at 2 3.
  rewrite star_chr_first; try assumption.
  - rewrite app_nil_r. reflexivity.
  - exact I.
  - intros w1 w2 Hs Hne.
    destruct (proper_suffix_split c0 P v w1 w2 Hs Hne)
      as (P2 & v2 & -> & HP2 & Hv2).
    rewrite !app_nil_r.
    apply m_needs_then with (c1 := c0) (c2 := c2); try assumption.
    + eapply not_in_incl; eassumption.
    + eapply not_in_incl; eassumption.
  - rewrite app_nil_r. apply Nat.le_refl.
Qed.

(** A group made of a literal and a greedy run of a class. *)
Lemma m_group_str_plus n s1 p w b a cs k res :
  w <> [] -> forallb p w = true -> stops p a ->
  k (MState (rev w ++ rev (list_ascii_of_string s1) ++ b) a
            ((n, list_ascii_of_string s1 ++ w) :: cs)) = Some res ->
  m (Group n (Str s1 ;; Plus true (Chr p)))
    (MState b (list_ascii_of_string s1 ++ w ++ a) cs) k = Some res.
Proof.
  intros Hne Hw Ha Hk.
  change (m (Group n (Str s1 ;; Plus true (Chr p)))
            (MState b (list_ascii_of_string s1 ++ w ++ a) cs) k)
    with (m (Str s1)
            (MState b (list_ascii_of_string s1 ++ w ++ a) cs)
            (fun st0 =>
               m (Plus true (Chr p)) st0
                 (fun st1 =>
                    k (set_cap n
                         (consumed
                            (MState b (list_ascii_of_string s1 ++ w ++ a) cs)
                            st1) st1)))).
  rewrite m_Str. apply plus_chr_greedy; try assumption.
  rewrite app_assoc, consumed_app. exact Hk.
Qed.

Lemma m_group_plus n p w b a cs k res :
  w <> [] -> forallb p w = true -> stops p a ->
  k (MState (rev w ++ b) a ((n, w) :: cs)) = Some res ->
  m (Group n (Plus true (Chr p))) (MState b (w ++ a) cs) k = Some res.
Proof.
  intros Hne Hw Ha Hk.
  change (m (Group n (Plus true (Chr p))) (MState b (w ++ a) cs) k)
    with (m (Plus true (Chr p)) (MState b (w ++ a) cs)
            (fun st1 =>
               k (set_cap n (consumed (MState b (w ++ a) cs) st1) st1))).
  apply plus_chr_greedy; try assumption.
  rewrite consumed_app. exact Hk.
Qed.

(** A trailing [.*] on a rest without line terminators takes it all. *)
Lemma trailing_star w b cs :
  forallb (fun c => negb (is_line_terminator c)) w = true ->
  m (Star true Dot) (MState b w cs) Some = Some (MState (rev w ++ b) [] cs).
Proof.
  intros Hw.
  change (m (Star true Dot) (MState b w cs) Some)
    with (star_loop (m (Chr (fun c => negb (is_line_terminator c)))) true
            Some (length w) (MState b w cs)).
  rewrite <- (app_nil_r w) at 1 2.
  apply star_chr_greedy;
    [exact Hw | exact I | reflexivity | apply Nat.le_refl].
Qed.

(** Rule 3 asks for digits after the last [?]. *)
Lemma rule3_inv_digits b rest st' :
  Matches (rmatch rule3) (MState b rest []) st' ->
  exists e d,
    rest = ("."%char :: e ++ ["?"%char]) ++ d
    /\ d <> [] /\ forallb is_digit d = true.
Proof.
  unfold rule3, rmatch. intros H. inv_matches. simpl in *.
  subst. rewrite app_nil_r in *.
  exists w0, w. split; [|split; assumption].
  rewrite <- app_assoc. reflexivity.
Qed.

Lemma rule3_no_match_plain y q :
  ~ In "?"%char q -> (q = [] \/ forallb is_digit q = false) ->
  exec (rmatch rule3) (y ++ "?"%char :: q) = None.
Proof.
  intros Hq Hd.
  destruct (exec (rmatch rule3) (y ++ "?"%char :: q)) as [res|] eqn:Hex;
    [|reflexivity].
  exfalso. apply exec_sound in Hex.
  destruct Hex as (skipped & rest' & st' & w & Hs & _ & Hm & _).
  apply rule3_inv_digits in Hm. destruct Hm as (e' & d' & -> & Hne & Hd').
  assert (Heq : y ++ "?"%char :: q
                = (skipped ++ "."%char :: e') ++ "?"%char :: d').
  { rewrite Hs. repeat (rewrite <- app_assoc; simpl). reflexivity. }
  apply last_separator in Heq; auto using digits_no_question.
  destruct Heq as [_ ->]. destruct Hd as [-> | Hd]; congruence.
Qed.

(** ** Rule 8: the vimeo player *)

Lemma digit_not_terminator c :
  is_digit c = true -> negb (is_line_terminator c) = true.
Proof.
  revert c.
  assert (H : forall c,
             (negb (is_digit c) || negb (is_line_terminator c)) = true).
  { apply ascii_forall. vm_compute. reflexivity. }
  intros c Hc. specialize (H c). rewrite Hc in H. exact H.
Qed.

Lemma digit_not_slash c : is_digit c = true -> noneof "/?" c = true.
Proof.
  revert c.
  assert (H : forall c, (negb (is_digit c) || noneof "/?" c) = true).
  { apply ascii_forall. vm_compute. reflexivity. }
  intros c Hc. specialize (H c). rewrite Hc in H. exact H.
Qed.

Lemma not_in_cons (c x : ascii) (l : chars) :
  c <> x -> ~ In c l -> ~ In c (x :: l).
Proof. intros Hx Hl [H | H]; [congruence | exact (Hl H)]. Qed.

Lemma rule8_prefix tail a k :
  m (Str "player" ;; Dot ;; Str "vimeo" ;; Dot ;; Str "com/" ;; tail)
    (MState [] (list_ascii_of_string "player.vimeo.com/" ++ a) []) k
  = m tail (MState (rev (list_ascii_of_string "player.vimeo.com/")) a []) k.
Proof. reflexivity. Qed.

Lemma rule8_at_start d q :
  d <> [] -> forallb is_digit d = true ->
  forallb (noneof "/?") q = true ->
  forallb (fun c => negb (is_line_terminator c)) q = true ->
  m (rmatch rule8)
    (MState [] (list_ascii_of_string vimeo_source ++ d ++ "?"%char :: q) [])
    Some
  = Some (MState (rev q ++ "?"%char :: rev d
                    ++ rev (list_ascii_of_string vimeo_source)) []
                 [(1, list_ascii_of_string "video/" ++ d)]).
Proof.
  intros Hne Hd Hq Hl. unfold rule8, rmatch.
  change (list_ascii_of_string vimeo_source ++ d ++ "?"%char :: q)
    with (("p"%char :: list_ascii_of_string "layer.vimeo.com/video/")
            ++ d ++ "?"%char :: q).
  rewrite (leading_star_first _ "p"%char "/"%char).
  - change (("p"%char :: list_ascii_of_string "layer.vimeo.com/video/")
              ++ d ++ "?"%char :: q)
      with (list_ascii_of_string "player.vimeo.com/"
              ++ list_ascii_of_string "video/" ++ d ++ "?"%char :: q).
    rewrite rule8_prefix.
    change (m (Group 1 (Str "video/" ;; Plus true (Chr is_digit)) ;;
               Lit "?" ;; Star true Dot)
              (MState (rev (list_ascii_of_string "player.vimeo.com/"))
                 (list_ascii_of_string "video/" ++ d ++ "?"%char :: q) [])
              Some)
      with (m (Group 1 (Str "video/" ;; Plus true (Chr is_digit)))
              (MState (rev (list_ascii_of_string "player.vimeo.com/"))
                 (list_ascii_of_string "video/" ++ d ++ "?"%char :: q) [])
              (fun st1 => m (Lit "?" ;; Star true Dot) st1 Some)).
    apply m_group_str_plus; try assumption.
    + reflexivity.
    + change (m (Lit "?" ;; Star true Dot)
                (MState (rev d ++ rev (list_ascii_of_string "video/")
                           ++ rev (list_ascii_of_string "player.vimeo.com/"))
                   ("?"%char :: q)
                   [(1, list_ascii_of_string "video/" ++ d)]) Some)
        with (m (Star true Dot)
                (MState ("?"%char :: rev d
                           ++ rev (list_ascii_of_string "video/")
                           ++ rev (list_ascii_of_string "player.vimeo.com/"))
                   q [(1, list_ascii_of_string "video/" ++ d)]) Some).
      rewrite trailing_star by exact Hl. reflexivity.
  - vm_compute. reflexivity.
  - apply mem_not_in. reflexivity.
  - apply not_in_app.
    + apply (noneof_not_in "/?"); [|reflexivity].
      revert Hd. apply forallb_weaken. exact digit_not_slash.
    + apply not_in_cons; [discriminate|].
      apply (noneof_not_in "/?"); [exact Hq | reflexivity].
  - rewrite forallb_app. apply andb_true_iff. split; [reflexivity|].
    rewrite forallb_app. apply andb_true_iff. split.
    + revert Hd. apply forallb_weaken. exact digit_not_terminator.
    + simpl. exact Hl.
Qed.

Lemma get_substitution_vimeo res :
  get_substitution 1 res (list_ascii_of_string (rreplace rule8))
  = list_ascii_of_string "vimeo.fuzzy.replayweb.page/" ++ cap_or_empty 1 res.
Proof. reflexivity. Qed.

Lemma string_forall_app f (a b : string) :
  string_forall f (a ++ b) = string_forall f a && string_forall f b.
Proof. unfold string_forall. rewrite list_of_append. apply forallb_app. Qed.

(** What rule 8 writes for a player address with a query. *)
Lemma rule8_apply (d q : string) :
  d <> ""%string -> string_forall is_digit d = true ->
  string_forall (noneof "/?") q = true ->
  string_forall (fun c => negb (is_line_terminator c)) q = true ->
  apply_rule rule8 (vimeo_source ++ d ++ "?" ++ q)
  = (vimeo_canon ++ d)%string.
Proof.
  intros Hne Hd Hq Hl. unfold apply_rule, replace, replace_chars, exec.
  rewrite !list_of_append.
  change (list_ascii_of_string "?" ++ list_ascii_of_string q)
    with ("?"%char :: list_ascii_of_string q).
  rewrite (exec_from_here _ _ _ _
             (rule8_at_start (list_ascii_of_string d)
                (list_ascii_of_string q) (string_neq_nil d Hne) Hd Hq Hl)).
  change (ngroups (rmatch rule8)) with 1.
  rewrite get_substitution_vimeo. unfold cap_or_empty. simpl.
  rewrite app_nil_r.
  rewrite <- (string_of_list_ascii_of_string d) at 2.
  reflexivity.
Qed.

Lemma vimeo_tail_no_slash (d q : string) :
  string_forall is_digit d = true ->
  string_forall (noneof "/?") q = true ->
  string_forall (noneof "/") (d ++ "?" ++ q) = true.
Proof.
  intros Hd Hq. rewrite !string_forall_app.
  apply andb_true_iff. split; [|apply andb_true_iff; split].
  - revert Hd. apply forallb_weaken. intros c Hc.
    apply digit_not_slash in Hc. revert Hc. unfold noneof, oneof. simpl.
    rewrite !negb_true_iff, !orb_false_iff. tauto.
  - reflexivity.
  - revert Hq. apply forallb_weaken. intros c. unfold noneof, oneof. simpl.
    rewrite !negb_true_iff, !orb_false_iff. tauto.
Qed.

Lemma vimeo_others_inert (d q : string) (r : rule) :
  string_forall is_digit d = true ->
  string_forall (noneof "/?") q = true ->
  In r [rule1; rule2; rule4; rule5; rule6; rule7] ->
  apply_rule r (vimeo_source ++ d ++ "?" ++ q)
  = (vimeo_source ++ d ++ "?" ++ q)%string.
Proof.
  intros Hd Hq Hr. pose proof (vimeo_tail_no_slash d q Hd Hq) as Hv.
  simpl in Hr. destruct Hr as [<-|[<-|[<-|[<-|[<-|[<-|[]]]]]]].
  - by_pair Hv "g"%char "/"%char.
  - by_pair Hv "u"%char "/"%char.
  - by_pair Hv "u"%char "/"%char.
  - by_pair Hv "u"%char "/"%char.
  - by_pair Hv "u"%char "/"%char.
  - by_pair Hv "k"%char "/"%char.
Qed.

Lemma rule3_inert_plain (y q : string) :
  string_forall (noneof "/?") q = true -> not_numeric q ->
  apply_rule rule3 (y ++ "?" ++ q) = (y ++ "?" ++ q)%string.
Proof.
  intros Hq Hn. apply apply_rule_no_match. rewrite !list_of_append.
  change (list_ascii_of_string "?" ++ list_ascii_of_string q)
    with ("?"%char :: list_ascii_of_string q).
  apply rule3_no_match_plain.
  - apply (noneof_not_in "/?"); [exact Hq | reflexivity].
  - destruct Hn as [-> | Hn]; [left; reflexivity | right; exact Hn].
Qed.

Lemma vimeo_player_reduced (d q : string) :
  d <> ""%string -> string_forall is_digit d = true ->
  string_forall (noneof "/?") q = true ->
  string_forall (fun c => negb (is_line_terminator c)) q = true ->
  not_numeric q ->
  reduce (vimeo_source ++ d ++ "?" ++ q) = (vimeo_canon ++ d)%string.
Proof.
  intros Hne Hd Hq Hl Hn.
  pose proof (rule8_apply d q Hne Hd Hq Hl) as H8.
  unfold reduce.
  change fuzzy_rules
    with ([rule1; rule2; rule3; rule4; rule5; rule6; rule7] ++ rule8 :: []).
  rewrite reduce_with_first_change; [exact H8| |].
  - intros r Hr. simpl in Hr.
    destruct Hr as [<-|[<-|[<-|[<-|[<-|[<-|[<-|[]]]]]]]];
      try (apply vimeo_others_inert; [exact Hd | exact Hq | simpl; tauto]).
    rewrite <- (string_append_assoc vimeo_source d ("?" ++ q)).
    apply rule3_inert_plain; assumption.
  - rewrite H8. unfold vimeo_canon, vimeo_source. simpl. discriminate.
Qed.

(** X9: a vimeo player address with a query that is not a plain number
    is reduced to the canonical vimeo form: the video number is kept and
    the whole query is dropped, whatever it holds. *)
Theorem reduce_vimeo_player (d q : string) :
  d <> ""%string -> string_forall is_digit d = true ->
  string_forall (noneof "/?") q = true ->
  string_forall (fun c => negb (is_line_terminator c)) q = true ->
  not_numeric q ->
  reduce (vimeo_source ++ d ++ "?" ++ q) = (vimeo_canon ++ d)%string.
Proof. apply vimeo_player_reduced. Qed.

Lemma reduce_vimeo_player_witness :
  reduce "player.vimeo.com/video/76979871?h=8272103f6e&app_id=122963"
  = "vimeo.fuzzy.replayweb.page/video/76979871"%string.
Proof.
  apply (reduce_vimeo_player "76979871" "h=8272103f6e&app_id=122963");
    try reflexivity.
  - discriminate.
  - right. reflexivity.
Defined.

Lemma two_passes (p p1 p2 : string) :
  reduce p = p1 -> reduce p1 = p2 ->
  reduce p = p1 /\ reduce (reduce p) = p2.
Proof. intros H1 H2. split; [exact H1|]. rewrite H1. exact H2. Qed.

(** X10: a vimeo player address whose query is a plain number does not
    reach the canonical vimeo form in one pass: rule 8 alone would write
    it, but rule 3 comes first in the list and only removes the number;
    a second pass over the result gives the canonical form. *)
Theorem cache_buster_shadows_vimeo (d n : string) :
  d <> ""%string -> string_forall is_digit d = true ->
  n <> ""%string -> string_forall is_digit n = true ->
  apply_rule rule8 (vimeo_source ++ d ++ "?" ++ n)
  = (vimeo_canon ++ d)%string
  /\ reduce (vimeo_source ++ d ++ "?" ++ n)
     = (vimeo_source ++ d ++ "?")%string
  /\ reduce (reduce (vimeo_source ++ d ++ "?" ++ n))
     = (vimeo_canon ++ d)%string.
Proof.
  intros Hd0 Hd Hn0 Hn.
  assert (Hq : string_forall (noneof "/?") n = true).
  { revert Hn. apply forallb_weaken. exact digit_not_slash. }
  split.
  - apply rule8_apply; try assumption.
    revert Hn. apply forallb_weaken. exact digit_not_terminator.
  - apply two_passes;
      [|exact (vimeo_player_reduced d "" Hd0 Hd eq_refl eq_refl
                 (or_introl eq_refl))].
    assert (H3 : apply_rule rule3 (vimeo_source ++ d ++ "?" ++ n)
                 = (vimeo_source ++ d ++ "?")%string).
    { change (vimeo_source ++ d ++ "?" ++ n)%string
        with ("player" ++ "." ++ ("vimeo.com/video/" ++ d) ++ "?" ++ n)%string.
      change (vimeo_source ++ d ++ "?")%string
        with ("player" ++ "." ++ ("vimeo.com/video/" ++ d) ++ "?")%string.
      apply rule3_apply; try assumption.
      - discriminate.
      - rewrite string_forall_app. apply andb_true_iff.
        split; [reflexivity|].
        revert Hd. apply forallb_weaken. intros c Hc.
        apply digit_not_slash in Hc. revert Hc. unfold noneof, oneof. simpl.
        rewrite !negb_true_iff, !orb_false_iff. tauto. }
    unfold reduce.
    change fuzzy_rules
      with ([rule1; rule2] ++ rule3
              :: [rule4; rule5; rule6; rule7; rule8]).
    rewrite reduce_with_first_change; [exact H3| |].
    + intros r Hr. apply vimeo_others_inert; try assumption.
      simpl in Hr. simpl. tauto.
    + rewrite H3. intros H.
      apply (f_equal String.length) in H.
      rewrite !append_length in H. simpl in H.
      destruct n as [|c n]; [congruence|]. simpl in H. lia.
Qed.

Lemma cache_buster_shadows_vimeo_witness :
  apply_rule rule8 "player.vimeo.com/video/76979871?1700000000"
  = "vimeo.fuzzy.replayweb.page/video/76979871"%string
  /\ reduce "player.vimeo.com/video/76979871?1700000000"
     = "player.vimeo.com/video/76979871?"%string
  /\ reduce (reduce "player.vimeo.com/video/76979871?1700000000")
     = "vimeo.fuzzy.replayweb.page/video/76979871"%string.
Proof.
  apply (cache_buster_shadows_vimeo "76979871" "1700000000");
    first [discriminate | reflexivity].
Defined.

(** ** Rule 5: an embed address with a query *)

Lemma rule5_at_start_query v q :
  v <> [] -> forallb (noneof "?") v = true ->
  forallb (fun c => negb (is_line_terminator c)) q = true ->
  m (rmatch rule5)
    (MState [] (list_ascii_of_string embed_source ++ v ++ "?"%char :: q) [])
    Some
  = Some (MState (rev ("?"%char :: q) ++ rev v
                    ++ rev (list_ascii_of_string embed_source)) []
                 [(1, v)]).
Proof.
  intros Hne Hv Hl. unfold rule5, rmatch. rewrite rule5_prefix.
  change (m (Group 1 (Plus true (Chr (noneof "?"))) ;; Star true Dot)
            (MState (rev (list_ascii_of_string embed_source))
               (v ++ "?"%char :: q) []) Some)
    with (m (Group 1 (Plus true (Chr (noneof "?"))))
            (MState (rev (list_ascii_of_string embed_source))
               (v ++ "?"%char :: q) [])
            (fun st1 => m (Star true Dot) st1 Some)).
  rewrite (m_group_plus 1 (noneof "?") v _ ("?"%char :: q) [] _
             (MState (rev ("?"%char :: q) ++ rev v
                        ++ rev (list_ascii_of_string embed_source)) []
                     [(1, v)])); try assumption.
  - reflexivity.
  - reflexivity.
  - rewrite trailing_star; [reflexivity|]. simpl. exact Hl.
Qed.

Lemma rule5_apply_query (v q : string) :
  v <> ""%string -> string_forall (noneof "?") v = true ->
  string_forall (fun c => negb (is_line_terminator c)) q = true ->
  apply_rule rule5 (embed_source ++ v ++ "?" ++ q)
  = (embed_canon ++ v)%string.
Proof.
  intros Hne Hv Hl. unfold apply_rule, replace, replace_chars, exec.
  rewrite !list_of_append.
  change (list_ascii_of_string "?" ++ list_ascii_of_string q)
    with ("?"%char :: list_ascii_of_string q).
  rewrite (exec_from_here _ _ _ _
             (rule5_at_start_query (list_ascii_of_string v)
                (list_ascii_of_string q) (string_neq_nil v Hne) Hv Hl)).
  change (ngroups (rmatch rule5)) with 1.
  change (rreplace rule5) with (rreplace rule6).
  rewrite get_substitution_embed. unfold cap_or_empty. simpl.
  rewrite app_nil_r.
  rewrite <- (string_of_list_ascii_of_string v) at 2.
  reflexivity.
Qed.

(** Rule 2 finds no [get_video_info] in an embed address: it fails at
    every position of the constant text, and what follows has no [/]. *)
Lemma rule2_inert_on_embed (t : string) :
  string_forall (noneof "/") t = true ->
  apply_rule rule2 (embed_source ++ t) = (embed_source ++ t)%string.
Proof.
  intros Ht. apply apply_rule_no_match. rewrite list_of_append.
  unfold exec.
  change (list_ascii_of_string embed_source)
    with (list_ascii_of_string "www.youtube.com/embed/").
  generalize (list_ascii_of_string t)
             (noneof_not_in "/" "/"%char _ Ht eq_refl).
  intros l Hl. cbn [list_ascii_of_string app].
  repeat (rewrite exec_from_skip by (vm_compute; reflexivity)).
  apply exec_from_needs with (c := "/"%char);
    [vm_compute; reflexivity | exact Hl].
Qed.

Lemma embed_tail_no_slash (v q : string) :
  string_forall (noneof "?/") v = true ->
  string_forall (noneof "/?") q = true ->
  string_forall (noneof "/") (v ++ "?" ++ q) = true.
Proof.
  intros Hv Hq. rewrite !string_forall_app.
  apply andb_true_iff. split; [|apply andb_true_iff; split].
  - revert Hv. apply forallb_weaken. intros c. unfold noneof, oneof. simpl.
    rewrite !negb_true_iff, !orb_false_iff. tauto.
  - reflexivity.
  - revert Hq. apply forallb_weaken. intros c. unfold noneof, oneof. simpl.
    rewrite !negb_true_iff, !orb_false_iff. tauto.
Qed.

Lemma embed_query_reduced (v q : string) :
  v <> ""%string -> string_forall (noneof "?/") v = true ->
  string_forall (noneof "/?") q = true ->
  string_forall (fun c => negb (is_line_terminator c)) q = true ->
  not_numeric q ->
  reduce (embed_source ++ v ++ "?" ++ q) = (embed_canon ++ v)%string.
Proof.
  intros Hne Hv Hq Hl Hn.
  assert (Hv' : string_forall (noneof "?") v = true).
  { revert Hv. apply forallb_weaken. intros c. unfold noneof, oneof. simpl.
    rewrite !negb_true_iff, !orb_false_iff. tauto. }
  pose proof (rule5_apply_query v q Hne Hv' Hl) as H5.
  pose proof (embed_tail_no_slash v q Hv Hq) as Ht.
  unfold reduce.
  change fuzzy_rules
    with ([rule1; rule2; rule3; rule4] ++ rule5 :: [rule6; rule7; rule8]).
  rewrite reduce_with_first_change; [exact H5| |].
  - intros r Hr. simpl in Hr. destruct Hr as [<-|[<-|[<-|[<-|[]]]]].
    + by_pair Ht "g"%char "/"%char.
    + apply rule2_inert_on_embed. exact Ht.
    + rewrite <- (string_append_assoc embed_source v ("?" ++ q)).
      apply rule3_inert_plain; assumption.
    + by_pair Ht "i"%char "/"%char.
  - rewrite H5. unfold embed_canon, embed_source. simpl. discriminate.
Qed.

(** X11: an embed address with a query that is not a plain number is
    reduced to the canonical embed form: the video id is kept and the
    whole query is dropped. *)
Theorem reduce_embed_with_query (v q : string) :
  v <> ""%string -> string_forall (noneof "?/") v = true ->
  string_forall (noneof "/?") q = true ->
  string_forall (fun c => negb (is_line_terminator c)) q = true ->
  not_numeric q ->
  reduce (embed_source ++ v ++ "?" ++ q) = (embed_canon ++ v)%string.
Proof. apply embed_query_reduced. Qed.

Lemma reduce_embed_with_query_witness :
  reduce "www.youtube.com/embed/dQw4w9WgXcQ?autoplay=1&start=30"
  = "youtube.fuzzy.replayweb.page/embed/dQw4w9WgXcQ"%string.
Proof.
  apply (reduce_embed_with_query "dQw4w9WgXcQ" "autoplay=1&start=30");
    try reflexivity.
  - discriminate.
  - right. reflexivity.
Defined.

(** ** The parts of a parsed url before its query hold no [?] and no [#] *)

Lemma scheme_char_plain c : URL.is_scheme_char c = true -> plain_char c = true.
Proof.
  intros H.
  assert (A : forall x, implb (URL.is_scheme_char x) (plain_char x) = true).
  { apply ascii_forall. vm_compute. reflexivity. }
  specialize (A c). rewrite H in A. exact A.
Qed.

Lemma pct_char_plain c : pct_char c = true -> plain_char c = true.
Proof.
  intros H.
  assert (A : forall x, implb (pct_char x) (plain_char x) = true).
  { apply ascii_forall. vm_compute. reflexivity. }
  specialize (A c). rewrite H in A. exact A.
Qed.

Lemma userinfo_plain c :
  negb (URL.userinfo_set c) || pct_char c = true -> plain_char c = true.
Proof.
  intros H.
  assert (A : forall x,
             implb (negb (URL.userinfo_set x) || pct_char x) (plain_char x)
             = true).
  { apply ascii_forall. vm_compute. reflexivity. }
  specialize (A c). rewrite H in A. exact A.
Qed.

Lemma path_char_plain special c :
  path_char special c = true -> plain_char c = true.
Proof.
  intros H.
  assert (A : forall x, implb (path_char special x) (plain_char x) = true).
  { apply ascii_forall. destruct special; vm_compute; reflexivity. }
  specialize (A c). rewrite H in A. exact A.
Qed.

Lemma digit_plain c : is_digit c = true -> plain_char c = true.
Proof.
  intros H.
  assert (A : forall x, implb (is_digit x) (plain_char x) = true).
  { apply ascii_forall. vm_compute. reflexivity. }
  specialize (A c). rewrite H in A. exact A.
Qed.

Lemma domain_char_plain c :
  URL.forbidden_domain c = false -> plain_char (URL.lower c) = true.
Proof.
  intros H.
  assert (A : forall x,
             (URL.forbidden_domain x || plain_char (URL.lower x)) = true).
  { apply ascii_forall. vm_compute. reflexivity. }
  specialize (A c). rewrite H in A. exact A.
Qed.

Lemma host_char_plain c :
  URL.forbidden_host c = false -> plain_char c = true.
Proof.
  intros H.
  assert (A : forall x, (URL.forbidden_host x || plain_char x) = true).
  { apply ascii_forall. vm_compute. reflexivity. }
  specialize (A c). rewrite H in A. exact A.
Qed.

(** Escaping keeps a text plain. *)
Lemma encode_plain set s :
  forallb plain_char s = true ->
  forallb plain_char (URL.encode set s) = true.
Proof.
  induction s as [|c s IH]; simpl; [reflexivity|].
  intros H. apply andb_true_iff in H. destruct H as [Hc Hs].
  rewrite forallb_app, (IH Hs), andb_true_r.
  destruct (set c).
  - generalize (URL.utf8_pct c) (utf8_pct_pct c). intros l.
    apply forallb_weaken. exact pct_char_plain.
  - simpl. rewrite Hc. reflexivity.
Qed.

Lemma existsb_false_forallb (f P : ascii -> bool) (g : ascii -> ascii) :
  (forall c, f c = false -> P (g c) = true) ->
  forall l, existsb f l = false -> forallb P (map g l) = true.
Proof.
  intros Hf. induction l as [|c l IH]; simpl; [reflexivity|].
  intros H. apply orb_false_iff in H. destruct H as [Hc Hl].
  rewrite (Hf c Hc), (IH Hl). reflexivity.
Qed.

Lemma parse_host_plain special h h' :
  URL.parse_host special h = Some h' -> forallb plain_char h' = true.
Proof.
  unfold URL.parse_host. destruct special.
  - destruct h as [|c t]; [discriminate|].
    destruct (existsb URL.forbidden_domain (c :: t)) eqn:Hd;
      [discriminate|].
    destruct (existsb (fun c0 => 127 <? code c0) (c :: t)); [discriminate|].
    intros [= <-].
    apply (existsb_false_forallb URL.forbidden_domain plain_char URL.lower
             domain_char_plain (c :: t) Hd).
  - destruct (existsb URL.forbidden_host h) eqn:Hd; [discriminate|].
    intros [= <-]. apply encode_plain.
    rewrite <- (map_id h).
    apply (existsb_false_forallb URL.forbidden_host plain_char (fun c => c)
             host_char_plain h Hd).
Qed.

Lemma userinfo_encode_plain s :
  forallb plain_char (URL.encode URL.userinfo_set s) = true.
Proof.
  generalize (encode_chars URL.userinfo_set s). apply forallb_weaken.
  exact userinfo_plain.
Qed.

Lemma parse_authority_plain sch auth a :
  URL.parse_authority sch auth = Some a ->
  forallb plain_char (URL.a_username a) = true
  /\ forallb plain_char (URL.a_password a) = true
  /\ forallb plain_char (URL.a_host a) = true.
Proof.
  unfold URL.parse_authority.
  destruct (URL.split_credentials auth) as [cred hostport].
  destruct (URL.split_first (Ascii.eqb ":") hostport) as [h p].
  destruct (URL.parse_host (URL.is_special sch) h) as [h'|] eqn:Hh.
  2:{ destruct cred as [c|];
        [destruct (URL.split_first (Ascii.eqb ":") c) as [u pw]|];
        destruct hostport; destruct h; destruct p; discriminate. }
  apply parse_host_plain in Hh.
  destruct (URL.parse_port sch p) as [p'|].
  2:{ destruct cred as [c|];
        [destruct (URL.split_first (Ascii.eqb ":") c) as [u pw]|];
        destruct hostport; destruct h; destruct p; discriminate. }
  destruct cred as [c|].
  - destruct (URL.split_first (Ascii.eqb ":") c) as [u pw].
    destruct hostport; [discriminate|].
    destruct h; destruct p; try discriminate;
      intros [= <-]; simpl; (split; [apply userinfo_encode_plain|]);
      (split; [|exact Hh]);
      destruct pw; try reflexivity; apply userinfo_encode_plain.
  - destruct hostport; destruct h; destruct p; try discriminate;
      intros [= <-]; simpl; auto.
Qed.

Lemma segments_plain special l :
  forallb (seg_ok special) l = true ->
  forallb plain_char (URL.serialize_path (URL.Segments l)) = true.
Proof.
  unfold URL.serialize_path.
  induction l as [|seg l IH]; [reflexivity|].
  intros H. cbn [forallb] in H. apply andb_true_iff in H.
  destruct H as [Hseg Hl].
  cbn [flat_map]. change (("/"%char :: seg) ++ ?x) with ("/"%char :: seg ++ x).
  cbn [forallb]. rewrite forallb_app, (IH Hl), andb_true_r.
  change (plain_char "/") with true. cbn [andb].
  unfold seg_ok in Hseg. apply andb_true_iff in Hseg.
  destruct Hseg as [Hseg _]. revert Hseg. apply forallb_weaken.
  apply path_char_plain.
Qed.

Lemma parse_from_authority_plain sch s q f u :
  forallb plain_char sch = true ->
  URL.parse_from_authority sch s q f = Some u -> plain_url u.
Proof.
  unfold URL.parse_from_authority. intros Hsch.
  destruct (URL.break (URL.is_slash (URL.is_special sch)) s) as [auth rest].
  destruct (URL.parse_authority sch auth) as [a|] eqn:Ha; [|discriminate].
  apply parse_authority_plain in Ha. destruct Ha as (Hu & Hp & Hh).
  intros [= <-]. unfold plain_url. simpl URL.scheme. simpl URL.username.
  simpl URL.password. simpl URL.host. simpl URL.path.
  repeat split; try assumption.
  apply (segments_plain (URL.is_special sch)). apply path_start_ok.
Qed.

Lemma parse_relative_plain b s q f u :
  plain_url b -> wf b -> URL.parse_relative b s q f = Some u -> plain_url u.
Proof.
  unfold URL.parse_relative, plain_url.
  intros (Hs & Hu & Hp & Hh & Hpath) Hwf.
  assert (Hsch : forall segs,
             forallb (seg_ok (URL.is_special (URL.scheme b))) segs = true ->
             forall q' f',
               plain_url (URL.mk (URL.scheme b) (URL.username b)
                            (URL.password b) (URL.host b) (URL.port b)
                            (URL.Segments segs) q' f')).
  { intros segs Hsegs q' f'. unfold plain_url. simpl.
    repeat split; try assumption.
    apply (segments_plain _ _ Hsegs). }
  destruct (URL.path b) as [o|bp] eqn:Hpb.
  - destruct s; [|discriminate]. destruct q; [discriminate|].
    destruct f; [|discriminate]. intros [= <-]. simpl.
    repeat split; assumption.
  - unfold wf in Hwf. rewrite Hpb in Hwf.
    destruct s as [|c s1].
    + intros [= <-]. simpl. repeat split; assumption.
    + destruct (URL.is_slash (URL.is_special (URL.scheme b)) c).
      * destruct s1 as [|c2 s2].
        -- intros [= <-]. apply Hsch. reflexivity.
        -- destruct (URL.is_slash (URL.is_special (URL.scheme b)) c2).
           ++ apply parse_from_authority_plain. exact Hs.
           ++ intros [= <-]. apply Hsch. apply parse_path_ok. reflexivity.
      * intros [= <-]. apply Hsch. apply parse_path_ok.
        apply forallb_removelast. exact Hwf.
Qed.

Lemma split_first_clean d : forall s,
  forallb (fun c => negb (d c)) (fst (URL.split_first d s)) = true.
Proof.
  induction s as [|c s IH]; simpl; [reflexivity|].
  destruct (d c) eqn:Hc; [reflexivity|].
  destruct (URL.split_first d s) as [a b]. simpl in *.
  rewrite Hc, IH. reflexivity.
Qed.

Lemma split_first_sub (P : ascii -> bool) d : forall s,
  forallb P s = true -> forallb P (fst (URL.split_first d s)) = true.
Proof.
  induction s as [|c s IH]; simpl; [reflexivity|].
  intros H. apply andb_true_iff in H. destruct H as [Hc Hs].
  destruct (d c); [reflexivity|].
  destruct (URL.split_first d s) as [a b]. simpl in *.
  rewrite Hc, (IH Hs). reflexivity.
Qed.

(** The text before the query and the fragment holds no [?] and no
    [#]. *)
Lemma cut_plain input s2 q f :
  URL.cut input = (s2, q, f) -> forallb plain_char s2 = true.
Proof.
  unfold URL.cut.
  set (s := filter _ _).
  pose proof (split_first_clean (Ascii.eqb "#") s) as H1.
  destruct (URL.split_first (Ascii.eqb "#") s) as [s1 f1]. cbn [fst] in H1.
  pose proof (split_first_clean (Ascii.eqb "?") s1) as H2.
  pose proof (split_first_sub _ (Ascii.eqb "?") s1 H1) as H3.
  destruct (URL.split_first (Ascii.eqb "?") s1) as [s2' q1].
  cbn [fst] in H2, H3.
  intros [= <- _ _]. rewrite forallb_forall in *. intros c Hc.
  specialize (H2 c Hc). specialize (H3 c Hc). cbv beta in H2, H3.
  unfold plain_char.
  rewrite (Ascii.eqb_sym c "?"), (Ascii.eqb_sym c "#"), H2, H3. reflexivity.
Qed.

Lemma scheme_rest_suffix (P : ascii -> bool) : forall s sch rest,
  URL.scheme_rest s = Some (sch, rest) ->
  forallb P s = true -> forallb P rest = true.
Proof.
  induction s as [|c s IH]; intros sch rest H Hs; simpl in H; [discriminate|].
  simpl in Hs. apply andb_true_iff in Hs. destruct Hs as [_ Hs].
  destruct (Ascii.eqb c ":").
  - injection H as _ <-. exact Hs.
  - destruct (URL.is_scheme_char c); [|discriminate].
    destruct (URL.scheme_rest s) as [[sch' rest']|] eqn:Hr; [|discriminate].
    injection H as _ <-. apply (IH _ _ eq_refl Hs).
Qed.

Lemma basic_parse_plain s base u :
  match base with Some b => plain_url b /\ wf b | None => True end ->
  URL.basic_parse s base = Some u -> plain_url u.
Proof.
  unfold URL.basic_parse. intros Hb.
  destruct (URL.cut s) as [[s2 q] f] eqn:Hcut.
  apply cut_plain in Hcut.
  destruct (URL.split_scheme s2) as [[sch rest]|] eqn:Hsplit.
  - apply split_scheme_nonempty in Hsplit.
    destruct Hsplit as (_ & Hsch & Hrest).
    assert (Hplain : forallb plain_char sch = true).
    { revert Hsch. apply forallb_weaken. exact scheme_char_plain. }
    apply (scheme_rest_suffix plain_char) in Hrest; [|exact Hcut].
    assert (Hrootless : forall segs q' f',
               forallb (seg_ok false) segs = true ->
               plain_url (URL.mk sch [] [] None None (URL.Segments segs)
                            q' f')).
    { intros segs q' f' Hsegs. unfold plain_url. simpl.
      repeat split; try assumption. apply (segments_plain _ _ Hsegs). }
    destruct (URL.is_file sch); [discriminate|].
    destruct (URL.is_special sch).
    + destruct base as [b|].
      * destruct (URL.chars_eqb (URL.scheme b) sch
                  && negb (starts_with (URL.lit "//") rest)).
        -- apply parse_relative_plain; tauto.
        -- apply parse_from_authority_plain. exact Hplain.
      * apply parse_from_authority_plain. exact Hplain.
    + destruct rest as [|c r1].
      * intros [= <-]. unfold plain_url. simpl. repeat split; auto.
      * destruct (Ascii.eqb c "/").
        -- destruct r1 as [|c2 r2].
           ++ intros [= <-]. apply Hrootless. apply parse_path_ok.
              reflexivity.
           ++ destruct (Ascii.eqb c2 "/").
              ** apply parse_from_authority_plain. exact Hplain.
              ** intros [= <-]. apply Hrootless. apply parse_path_ok.
                 reflexivity.
        -- intros [= <-]. unfold plain_url.
           cbn [URL.scheme URL.username URL.password URL.host URL.path
                URL.serialize_path].
           repeat split; try assumption.
           exact (encode_plain URL.c0_set (c :: r1) Hrest).
  - destruct base as [b|]; [|discriminate].
    destruct (URL.is_file (URL.scheme b)); [discriminate|].
    apply parse_relative_plain; tauto.
Qed.

Lemma new_URL_plain url u : new_URL url None = Return u -> plain_url u.
Proof.
  unfold new_URL.
  destruct (URL.basic_parse (list_ascii_of_string url) None) as [u'|] eqn:Hu;
    [|discriminate].
  intros [= <-]. apply (basic_parse_plain _ None _ I Hu).
Qed.

Lemma strip_trailing_spaces_sub (P : ascii -> bool) (s : chars) :
  forallb P s = true -> forallb P (URL.strip_trailing_spaces s) = true.
Proof.
  intros H. rewrite forallb_forall in *. intros c Hc. apply H.
  unfold URL.strip_trailing_spaces in Hc. apply in_rev in Hc.
  apply in_rev. revert Hc. generalize (rev s). intros l.
  induction l as [|x l IH]; [intros Hc; exact Hc|].
  cbn [URL.drop_while].
  destruct (Ascii.eqb " " x); [intros Hc; right; auto | intros Hc; exact Hc].
Qed.

(** Folding the query leaves a url that is still plain and has no
    search. *)
Lemma fold_query_plain u :
  plain_url u ->
  plain_url (fold_query u)
  /\ (URL.query (fold_query u) = None \/ URL.query (fold_query u) = Some [])
  /\ URL.fragment (fold_query u) = URL.fragment u.
Proof.
  intros Hu. unfold fold_query.
  destruct (String.eqb (search u) "") eqn:Hs; cbn [negb].
  - split; [exact Hu|]. split; [|reflexivity].
    apply String.eqb_eq in Hs. unfold search, URL.search_chars in Hs.
    destruct (URL.query u) as [[|c q]|]; auto. discriminate.
  - unfold set_pathname, URL.set_pathname_chars.
    destruct Hu as (H1 & H2 & H3 & H4 & H5).
    destruct (URL.path u) as [o|segs] eqn:Hp.
    + unfold URL.clear_search, plain_url. simpl. rewrite Hp.
      repeat split; auto.
      destruct (URL.fragment u); simpl; [exact H5|].
      apply strip_trailing_spaces_sub. exact H5.
    + unfold URL.clear_search, plain_url. simpl.
      repeat split; auto.
      apply (segments_plain (URL.is_special (URL.scheme u))).
      destruct (list_ascii_of_string _).
      * destruct (URL.is_special (URL.scheme u)); [reflexivity|].
        destruct (URL.host u); reflexivity.
      * apply path_start_ok.
Qed.

Lemma digit_of_nat k : k < 10 -> is_digit (ascii_of_nat (48 + k)) = true.
Proof.
  intros H. do 10 (destruct k as [|k]; [reflexivity|]). lia.
Qed.

Lemma N_digits_digits : forall fuel n acc,
  forallb is_digit acc = true ->
  forallb is_digit (URL.N_digits fuel n acc) = true.
Proof.
  induction fuel as [|fuel IH]; intros n acc Hacc; [exact Hacc|].
  cbn [URL.N_digits]. cbv zeta.
  assert (Hd : is_digit (ascii_of_nat (48 + N.to_nat (n mod 10))) = true).
  { apply digit_of_nat.
    pose proof (N.mod_lt n 10 ltac:(discriminate)). lia. }
  destruct (n <? 10)%N.
  - cbn [forallb]. rewrite Hd, Hacc. reflexivity.
  - apply IH. cbn [forallb]. rewrite Hd, Hacc. reflexivity.
Qed.

Lemma authority_plain u :
  plain_url u -> forallb plain_char (URL.serialize_authority u) = true.
Proof.
  intros (_ & H2 & H3 & H4 & _). unfold URL.serialize_authority.
  destruct (URL.host u) as [h|]; [|reflexivity].
  assert (Hport : forallb plain_char
                    (match URL.port u with
                     | Some p => ":"%char :: URL.serialize_port p
                     | None => []
                     end) = true).
  { destruct (URL.port u) as [p|]; [|reflexivity].
    cbn [forallb]. change (plain_char ":") with true. cbn [andb].
    generalize (N_digits_digits 20 p [] eq_refl).
    apply forallb_weaken. exact digit_plain. }
  destruct (URL.username u) as [|a x]; destruct (URL.password u) as [|b y];
    cbv zeta; rewrite ?forallb_app, ?H2, ?H3, ?H4, ?Hport; reflexivity.
Qed.

(** The shape of a serialised url whose parts before the query are
    plain and whose search is empty. *)
Lemma href_shape u :
  plain_url u -> (URL.query u = None \/ URL.query u = Some []) ->
  exists body q,
    URL.href_chars u
    = body ++ q
        ++ (match URL.fragment u with Some f => "#"%char :: f | None => [] end)
    /\ forallb plain_char body = true
    /\ (q = [] \/ q = ["?"%char]).
Proof.
  intros Hu Hq. pose proof (authority_plain u Hu) as Ha.
  destruct Hu as (H1 & _ & _ & _ & H5).
  exists (URL.scheme u ++ URL.lit ":" ++ URL.serialize_authority u
            ++ (match URL.host u, URL.path u with
                | None, URL.Segments ([] :: _ :: _) => URL.lit "/."
                | _, _ => []
                end)
            ++ URL.serialize_path (URL.path u)),
         (match URL.query u with Some q => "?"%char :: q | None => [] end).
  split; [|split].
  - unfold URL.href_chars. repeat rewrite <- app_assoc. reflexivity.
  - rewrite !forallb_app, H1, Ha, H5.
    destruct (URL.host u); [reflexivity|].
    destruct (URL.path u) as [|[|[|] [|]]]; reflexivity.
  - destruct Hq as [-> | ->]; auto.
Qed.

(** X12: what the rewrite function returns for an input that is not
    handed back untouched carries no query: up to its fragment the
    returned url holds no [?] and no [#], but for a bare [?] that may
    end it (the empty query that rule 3 leaves is not folded). *)
Theorem result_has_no_query (ctx : context) (s : string)
  (useRel mod_ doc : js_value) (r : string) :
  passthrough ctx s = false ->
  urlRewriteFunction ctx (JString s) useRel mod_ doc = Return (JString r) ->
  exists body q f,
    r = (body ++ q ++ f)%string
    /\ string_forall plain_char body = true
    /\ (q = ""%string \/ q = "?"%string)
    /\ (f = ""%string \/ exists f', f = String "#" f').
Proof.
  intros Hp Hr.
  destruct (rewrite_returns ctx s useRel mod_ doc _ Hp Hr)
    as (a & u & _ & Hu & Hv).
  injection Hv as ->.
  apply new_URL_plain in Hu.
  destruct (fold_query_plain u Hu) as (Hplain & Hq & _).
  destruct (href_shape _ Hplain Hq) as (body & q & Hhref & Hbody & Hq').
  exists (string_of_list_ascii body), (string_of_list_ascii q),
    (string_of_list_ascii
       (match URL.fragment (fold_query u) with
        | Some f => "#"%char :: f
        | None => []
        end)).
  split; [|split; [|split]].
  - unfold toString. rewrite Hhref, !string_of_app. reflexivity.
  - unfold string_forall. rewrite list_ascii_of_string_of_list_ascii.
    exact Hbody.
  - destruct Hq' as [-> | ->]; auto.
  - destruct (URL.fragment (fold_query u)) as [f|]; [right|left; reflexivity].
    exists (string_of_list_ascii f). reflexivity.
Qed.

Lemma result_has_no_query_witness :
  exists body q f,
    "https://replay.example/archive/20230101/cdn.example.org/a.js?"%string
    = (body ++ q ++ f)%string
    /\ string_forall plain_char body = true
    /\ (q = ""%string \/ q = "?"%string)
    /\ (f = ""%string \/ exists f', f = String "#" f').
Proof.
  apply (result_has_no_query ctx_absolute_prefix
           "https://cdn.example.org/a.js?1700000000"
           JUndefined JUndefined JUndefined);
    vm_compute; reflexivity.
Defined.

(** ** Rule 3 fires on a numeric query only *)

Lemma rule3_inv_full b rest st' :
  Matches (rmatch rule3) (MState b rest []) st' ->
  exists e d,
    rest = ("."%char :: e ++ ["?"%char]) ++ d
    /\ e <> [] /\ forallb (noneof "?") e = true
    /\ d <> [] /\ forallb is_digit d = true.
Proof.
  unfold rule3, rmatch. intros H. inv_matches. simpl in *.
  subst. rewrite app_nil_r in *.
  exists w0, w. split; [|repeat split; assumption].
  rewrite <- app_assoc. reflexivity.
Qed.

Lemma string_of_nonempty l : l <> [] -> string_of_list_ascii l <> ""%string.
Proof. destruct l; simpl; congruence. Qed.

(** X13: rule 3 changes a path exactly when the path ends in a dot, a
    non-empty text without [?], a [?] and a non-empty run of digits: a
    query that is empty or holds anything but digits is never taken for
    a cache-buster. *)
Theorem rule3_changes_iff (p : string) :
  apply_rule rule3 p <> p
  <-> exists a e d,
        p = (a ++ "." ++ e ++ "?" ++ d)%string
        /\ e <> ""%string /\ string_forall (noneof "?") e = true
        /\ d <> ""%string /\ string_forall is_digit d = true.
Proof.
  split.
  - intros Hch.
    destruct (exec (rmatch rule3) (list_ascii_of_string p)) as [res|] eqn:Hex.
    2:{ exfalso. apply Hch. apply apply_rule_no_match. exact Hex. }
    apply exec_sound in Hex.
    destruct Hex as (skipped & rest' & st' & w & Hs & _ & Hm & _).
    apply rule3_inv_full in Hm.
    destruct Hm as (e & d & -> & He0 & He & Hd0 & Hd).
    exists (string_of_list_ascii skipped), (string_of_list_ascii e),
      (string_of_list_ascii d).
    unfold string_forall. rewrite !list_ascii_of_string_of_list_ascii.
    repeat split; try assumption; try (apply string_of_nonempty; assumption).
    rewrite <- (string_of_list_ascii_of_string p), Hs.
    rewrite string_of_app. f_equal.
    change (("."%char :: e ++ ["?"%char]) ++ d)
      with (["."%char] ++ (e ++ ["?"%char]) ++ d).
    rewrite <- app_assoc. rewrite !string_of_app. reflexivity.
  - intros (a & e & d & -> & He0 & He & Hd0 & Hd).
    rewrite rule3_apply by assumption.
    intros H. apply (f_equal String.length) in H.
    rewrite !append_length in H.
    destruct d as [|c d]; [congruence|]. simpl in H. lia.
Qed.

(** ** Embed addresses that take two passes *)

Lemma rule6_at_start_rest v (c : ascii) q :
  v <> [] -> forallb (noneof "?&") v = true ->
  oneof "?&" c = true ->
  forallb (fun x => negb (is_line_terminator x)) q = true ->
  m (rmatch rule6)
    (MState [] (list_ascii_of_string embed_canon ++ v ++ c :: q) []) Some
  = Some (MState (rev (c :: q) ++ rev v
                    ++ rev (list_ascii_of_string embed_canon)) []
                 [(1, v)]).
Proof.
  intros Hne Hv Hc Hl. unfold rule6, rmatch. rewrite rule6_prefix.
  change (m (Group 1 (Plus true (Chr (noneof "?&"))) ;; Star true Dot)
            (MState (rev (list_ascii_of_string embed_canon))
               (v ++ c :: q) []) Some)
    with (m (Group 1 (Plus true (Chr (noneof "?&"))))
            (MState (rev (list_ascii_of_string embed_canon))
               (v ++ c :: q) [])
            (fun st1 => m (Star true Dot) st1 Some)).
  rewrite (m_group_plus 1 (noneof "?&") v _ (c :: q) [] _
             (MState (rev (c :: q) ++ rev v
                        ++ rev (list_ascii_of_string embed_canon)) []
                     [(1, v)])); try assumption.
  - reflexivity.
  - simpl. unfold noneof. rewrite Hc. reflexivity.
  - rewrite trailing_star; [reflexivity|].
    cbn [forallb]. rewrite Hl, andb_true_r.
    assert (A : forall x, implb (oneof "?&" x) (negb (is_line_terminator x))
                          = true).
    { apply ascii_forall. vm_compute. reflexivity. }
    specialize (A c). rewrite Hc in A. exact A.
Qed.

Lemma rule6_apply_rest (v q : string) :
  v <> ""%string -> string_forall (noneof "?&") v = true ->
  string_forall (fun x => negb (is_line_terminator x)) q = true ->
  apply_rule rule6 (embed_canon ++ v ++ "&" ++ q)
  = (embed_canon ++ v)%string.
Proof.
  intros Hne Hv Hl. unfold apply_rule, replace, replace_chars, exec.
  rewrite !list_of_append.
  change (list_ascii_of_string "&" ++ list_ascii_of_string q)
    with ("&"%char :: list_ascii_of_string q).
  rewrite (exec_from_here _ _ _ _
             (rule6_at_start_rest (list_ascii_of_string v) "&"%char
                (list_ascii_of_string q) (string_neq_nil v Hne) Hv
                eq_refl Hl)).
  change (ngroups (rmatch rule6)) with 1.
  rewrite get_substitution_embed. unfold cap_or_empty. simpl.
  rewrite app_nil_r.
  rewrite <- (string_of_list_ascii_of_string v) at 2.
  reflexivity.
Qed.

Lemma embed_id_tail (set : string) (v q : string) :
  string_forall (noneof "?&/") v = true ->
  string_forall (noneof "?/") q = true ->
  (forall c, oneof set c = true -> oneof "?/" c = true) ->
  string_forall (noneof set) (v ++ "&" ++ q) = true.
Proof.
  intros Hv Hq Hset. rewrite !string_forall_app.
  assert (Hamp : noneof set "&" = true).
  { unfold noneof. destruct (oneof set "&") eqn:H; [|reflexivity].
    apply Hset in H. discriminate. }
  apply andb_true_iff. split; [|apply andb_true_iff; split].
  - revert Hv. apply forallb_weaken. intros c. unfold noneof.
    rewrite !negb_true_iff. intros Hc.
    destruct (oneof set c) eqn:H; [|reflexivity].
    apply Hset in H. revert Hc H. unfold oneof. simpl.
    rewrite !orb_false_iff. intros (H1 & H2 & H3 & _).
    rewrite H1, H3. discriminate.
  - unfold string_forall. simpl. rewrite Hamp. reflexivity.
  - revert Hq. apply forallb_weaken. intros c. unfold noneof.
    rewrite !negb_true_iff. intros Hc.
    destruct (oneof set c) eqn:H; [|reflexivity].
    apply Hset in H. congruence.
Qed.

(** X14: an embed address whose id goes on with [&] takes two passes:
    rule 5 keeps everything up to the first [?], so the first pass keeps
    the [&] and what follows it; on the canonical text rule 6 cuts at
    the [&], so the second pass gives the bare id. *)
Theorem embed_ampersand_two_passes (v q : string) :
  v <> ""%string -> string_forall (noneof "?&/") v = true ->
  string_forall (noneof "?/") q = true ->
  string_forall (fun c => negb (is_line_terminator c)) q = true ->
  reduce (embed_source ++ v ++ "&" ++ q)
  = (embed_canon ++ v ++ "&" ++ q)%string
  /\ reduce (reduce (embed_source ++ v ++ "&" ++ q))
     = (embed_canon ++ v)%string.
Proof.
  intros Hne Hv Hq Hl.
  assert (Hq1 : string_forall (noneof "?") (v ++ "&" ++ q) = true).
  { apply embed_id_tail; try assumption. intros c. unfold oneof. simpl.
    rewrite !orb_false_r. intros ->. reflexivity. }
  assert (Hq2 : string_forall (noneof "?/") (v ++ "&" ++ q) = true).
  { apply embed_id_tail; try assumption. auto. }
  assert (Hv' : string_forall (noneof "?&") v = true).
  { revert Hv. apply forallb_weaken. intros c. unfold noneof, oneof. simpl.
    rewrite !negb_true_iff, !orb_false_iff. tauto. }
  apply two_passes.
  - assert (H5 : apply_rule rule5 (embed_source ++ v ++ "&" ++ q)
                 = (embed_canon ++ v ++ "&" ++ q)%string).
    { unfold apply_rule, replace. rewrite list_of_append.
      rewrite rule5_replace_source.
      - rewrite string_of_app, !string_of_list_ascii_of_string. reflexivity.
      - apply string_neq_nil. destruct v; [congruence | discriminate].
      - exact Hq1. }
    unfold reduce.
    change fuzzy_rules
      with ([rule1; rule2; rule3; rule4] ++ rule5 :: [rule6; rule7; rule8]).
    rewrite reduce_with_first_change; [exact H5| |].
    + intros r Hr. simpl in Hr. destruct Hr as [<-|[<-|[<-|[<-|[]]]]].
      * by_char Hq2 "?"%char.
      * by_char Hq2 "?"%char.
      * by_char Hq2 "?"%char.
      * by_pair Hq2 "i"%char "/"%char.
    + rewrite H5. unfold embed_canon, embed_source. simpl. discriminate.
  - pose proof (rule6_apply_rest v q Hne Hv' Hl) as H6.
    unfold reduce.
    change fuzzy_rules
      with ([rule1; rule2; rule3; rule4; rule5] ++ rule6 :: [rule7; rule8]).
    rewrite reduce_with_first_change; [exact H6| |].
    + intros r Hr. simpl in Hr. destruct Hr as [<-|[<-|[<-|[<-|[<-|[]]]]]].
      * by_char Hq2 "?"%char.
      * by_char Hq2 "?"%char.
      * by_char Hq2 "?"%char.
      * by_pair Hq2 "i"%char "/"%char.
      * by_pair Hq2 "c"%char "/"%char.
    + rewrite H6. intros H. apply (f_equal String.length) in H.
      rewrite !append_length in H. simpl in H. lia.
Qed.

Lemma embed_ampersand_two_passes_witness :
  reduce "www.youtube.com/embed/dQw4w9WgXcQ&autoplay=1"
  = "youtube.fuzzy.replayweb.page/embed/dQw4w9WgXcQ&autoplay=1"%string
  /\ reduce (reduce "www.youtube.com/embed/dQw4w9WgXcQ&autoplay=1")
     = "youtube.fuzzy.replayweb.page/embed/dQw4w9WgXcQ"%string.
Proof.
  apply (embed_ampersand_two_passes "dQw4w9WgXcQ" "autoplay=1");
    first [discriminate | reflexivity].
Defined.

(** X15: an embed address whose query is a plain number takes two
    passes as well: rule 3 comes before rule 5 and only removes the
    number, the second pass then gives the canonical embed form. *)
Theorem embed_cache_buster_two_passes (v n : string) :
  v <> ""%string -> string_forall (noneof "?/") v = true ->
  n <> ""%string -> string_forall is_digit n = true ->
  reduce (embed_source ++ v ++ "?" ++ n)
  = (embed_source ++ v ++ "?")%string
  /\ reduce (reduce (embed_source ++ v ++ "?" ++ n))
     = (embed_canon ++ v)%string.
Proof.
  intros Hv0 Hv Hn0 Hn.
  assert (Hq : string_forall (noneof "/?") n = true).
  { revert Hn. apply forallb_weaken. exact digit_not_slash. }
  apply two_passes;
    [|exact (embed_query_reduced v "" Hv0 Hv eq_refl eq_refl
               (or_introl eq_refl))].
  assert (H3 : apply_rule rule3 (embed_source ++ v ++ "?" ++ n)
               = (embed_source ++ v ++ "?")%string).
  { change (embed_source ++ v ++ "?" ++ n)%string
      with ("www" ++ "." ++ ("youtube.com/embed/" ++ v) ++ "?" ++ n)%string.
    change (embed_source ++ v ++ "?")%string
      with ("www" ++ "." ++ ("youtube.com/embed/" ++ v) ++ "?")%string.
    apply rule3_apply; try assumption.
    - discriminate.
    - rewrite string_forall_app. apply andb_true_iff.
      split; [reflexivity|].
      revert Hv. apply forallb_weaken. intros c. unfold noneof, oneof. simpl.
      rewrite !negb_true_iff, !orb_false_iff. tauto. }
  pose proof (embed_tail_no_slash v n Hv Hq) as Ht.
  unfold reduce.
  change fuzzy_rules
    with ([rule1; rule2] ++ rule3 :: [rule4; rule5; rule6; rule7; rule8]).
  rewrite reduce_with_first_change; [exact H3| |].
  - intros r Hr. simpl in Hr. destruct Hr as [<-|[<-|[]]].
    + by_pair Ht "g"%char "/"%char.
    + apply rule2_inert_on_embed. exact Ht.
  - rewrite H3. intros H. apply (f_equal String.length) in H.
    rewrite !append_length in H.
    destruct n as [|c n]; [congruence|]. simpl in H. lia.
Qed.

Lemma embed_cache_buster_two_passes_witness :
  reduce "www.youtube.com/embed/dQw4w9WgXcQ?1700000000"
  = "www.youtube.com/embed/dQw4w9WgXcQ?"%string
  /\ reduce (reduce "www.youtube.com/embed/dQw4w9WgXcQ?1700000000")
     = "youtube.fuzzy.replayweb.page/embed/dQw4w9WgXcQ"%string.
Proof.
  apply (embed_cache_buster_two_passes "dQw4w9WgXcQ" "1700000000");
    first [discriminate | reflexivity].
Defined.

(** ** Rule 1: the videoplayback addresses *)

(** A greedy repetition stops at the last position where what follows
    matches. *)
Lemma star_chr_none_after p k : forall t b cs fuel,
  (forall w1 w2, t = w1 ++ w2 -> w1 <> [] ->
     k (MState (rev w1 ++ b) w2 cs) = None) ->
  star_loop (m (Chr p)) true k fuel (MState b t cs) = k (MState b t cs).
Proof.
  induction t as [|c t IH]; intros b cs fuel Hk;
    (destruct fuel as [|fuel]; [reflexivity|]).
  - reflexivity.
  - assert (Hk1 : k (MState (c :: b) t cs) = None).
    { apply (Hk [c] t eq_refl). discriminate. }
    assert (IH' : star_loop (m (Chr p)) true k fuel (MState (c :: b) t cs)
                  = k (MState (c :: b) t cs)).
    { apply IH. intros w1 w2 -> Hne.
      specialize (Hk (c :: w1) w2 eq_refl). simpl in Hk.
      rewrite <- app_assoc in Hk. apply Hk. discriminate. }
    simpl in IH'. simpl. destruct (p c); [|reflexivity].
    unfold progress. simpl.
    destruct (Nat.ltb_spec (length t) (S (length t))); [|lia].
    rewrite IH', Hk1. reflexivity.
Qed.

Lemma star_chr_last p k res : forall h b t cs fuel,
  forallb p h = true ->
  k (MState (rev h ++ b) t cs) = Some res ->
  (forall w1 w2, t = w1 ++ w2 -> w1 <> [] ->
     k (MState (rev w1 ++ rev h ++ b) w2 cs) = None) ->
  length (h ++ t) <= fuel ->
  star_loop (m (Chr p)) true k fuel (MState b (h ++ t) cs) = Some res.
Proof.
  induction h as [|c h IH]; intros b t cs fuel Hh Hk Hfail Hf.
  - simpl app in *. rewrite star_chr_none_after; [exact Hk | exact Hfail].
  - simpl in Hh. apply andb_true_iff in Hh. destruct Hh as [Hc Hh].
    simpl in Hf. destruct fuel as [|fuel]; [lia|].
    assert (IH' : star_loop (m (Chr p)) true k fuel
                    (MState (c :: b) (h ++ t) cs) = Some res).
    { apply IH; try assumption.
      - simpl in Hk. rewrite <- app_assoc in Hk. exact Hk.
      - intros w1 w2 Ht Hne. specialize (Hfail w1 w2 Ht Hne).
        simpl in Hfail. rewrite <- app_assoc in Hfail. exact Hfail.
      - lia. }
    simpl in IH'. simpl. rewrite Hc. unfold progress. simpl.
    destruct (Nat.ltb_spec (length (h ++ t)) (S (length (h ++ t)))); [|lia].
    rewrite IH'. reflexivity.
Qed.

Lemma m_Str_fail s : forall a b cs k,
  starts_with (list_ascii_of_string s) a = false ->
  m (Str s) (MState b a cs) k = None.
Proof.
  induction s as [|c s IH]; intros a b cs k H; simpl in H; [discriminate|].
  destruct a as [|x a]; simpl; [reflexivity|].
  destruct (Ascii.eqb c x); simpl in H; [|reflexivity].
  apply IH. exact H.
Qed.

Lemma occurs_here pat s : occurs pat s = false -> starts_with pat s = false.
Proof.
  destruct s; simpl; intros H; apply orb_false_iff in H; tauto.
Qed.

Lemma occurs_suffix pat : forall x y,
  occurs pat (x ++ y) = false -> occurs pat y = false.
Proof.
  induction x as [|a x IH]; intros y H; [exact H|].
  simpl in H. apply orb_false_iff in H. apply IH. tauto.
Qed.

Lemma m_behind_group n p r (c : ascii) b a cs k :
  m (Group n (Behind p ;; r)) (MState (c :: b) a cs) k
  = if p c then m (Group n r) (MState (c :: b) a cs) k else None.
Proof. reflexivity. Qed.

Lemma m_group_str_lit n s1 (c : ascii) b a cs k :
  m (Group n (Str s1 ;; Lit c))
    (MState b (list_ascii_of_string s1 ++ c :: a) cs) k
  = k (MState (c :: rev (list_ascii_of_string s1) ++ b) a
         ((n, list_ascii_of_string s1 ++ [c]) :: cs)).
Proof.
  change (m (Group n (Str s1 ;; Lit c))
            (MState b (list_ascii_of_string s1 ++ c :: a) cs) k)
    with (m (Str s1)
            (MState b (list_ascii_of_string s1 ++ c :: a) cs)
            (fun st0 =>
               m (Lit c) st0
                 (fun st1 =>
                    k (set_cap n
                         (consumed
                            (MState b (list_ascii_of_string s1 ++ c :: a) cs)
                            st1) st1)))).
  rewrite m_Str. simpl. rewrite Ascii.eqb_refl. unfold set_cap. simpl.
  replace (list_ascii_of_string s1 ++ c :: a)
    with ((list_ascii_of_string s1 ++ [c]) ++ a)
    by (rewrite <- app_assoc; reflexivity).
  rewrite consumed_app. reflexivity.
Qed.

(** The [id] group where the parameter stands. *)
Lemma id_group_here (c : ascii) b v post cs :
  oneof "?&" c = true ->
  v <> [] -> forallb (noneof "&") v = true -> stops (noneof "&") post ->
  forallb (fun x => negb (is_line_terminator x)) post = true ->
  m (Group 2 (Behind (oneof "?&") ;; Str "id=" ;;
              Plus true (Chr (noneof "&"))) ;; Star true Dot)
    (MState (c :: b) (list_ascii_of_string "id=" ++ v ++ post) cs) Some
  = Some (MState (rev post ++ rev v ++ rev (list_ascii_of_string "id=")
                    ++ c :: b) []
                 ((2, list_ascii_of_string "id=" ++ v) :: cs)).
Proof.
  intros Hc Hne Hv Hstop Hpost.
  change (m (Group 2 (Behind (oneof "?&") ;; Str "id=" ;;
                      Plus true (Chr (noneof "&"))) ;; Star true Dot)
            (MState (c :: b) (list_ascii_of_string "id=" ++ v ++ post) cs)
            Some)
    with (m (Group 2 (Behind (oneof "?&") ;; Str "id=" ;;
                      Plus true (Chr (noneof "&"))))
            (MState (c :: b) (list_ascii_of_string "id=" ++ v ++ post) cs)
            (fun st1 => m (Star true Dot) st1 Some)).
  rewrite m_behind_group, Hc.
  apply m_group_str_plus; try assumption.
  rewrite trailing_star by exact Hpost. reflexivity.
Qed.

(** The [id] group after the parameter: it finds no [?] or [&] to stand
    behind, or no [id=] to read. *)
Lemma id_group_later b v post cs w1 w2 :
  forallb (noneof "?&") v = true ->
  occurs (list_ascii_of_string "id=") post = false ->
  list_ascii_of_string "id=" ++ v ++ post = w1 ++ w2 -> w1 <> [] ->
  m (Group 2 (Behind (oneof "?&") ;; Str "id=" ;;
              Plus true (Chr (noneof "&"))) ;; Star true Dot)
    (MState (rev w1 ++ b) w2 cs) Some
  = None.
Proof.
  intros Hv Hocc Hsplit Hne.
  destruct (exists_last Hne) as (w1' & c & ->).
  rewrite rev_app_distr. simpl rev. simpl app.
  change (m (Group 2 (Behind (oneof "?&") ;; Str "id=" ;;
                      Plus true (Chr (noneof "&"))) ;; Star true Dot)
            (MState (c :: rev w1' ++ b) w2 cs) Some)
    with (m (Group 2 (Behind (oneof "?&") ;; Str "id=" ;;
                      Plus true (Chr (noneof "&"))))
            (MState (c :: rev w1' ++ b) w2 cs)
            (fun st1 => m (Star true Dot) st1 Some)).
  rewrite m_behind_group.
  destruct (oneof "?&" c) eqn:Hc; [|reflexivity].
  assert (Hw2 : starts_with (list_ascii_of_string "id=") w2 = false).
  { assert (Hidv : forallb (noneof "?&") (list_ascii_of_string "id=" ++ v)
                   = true).
    { rewrite forallb_app, Hv. reflexivity. }
    rewrite <- app_assoc in Hsplit. simpl in Hsplit.
    change ("i"%char :: "d"%char :: "="%char :: v ++ post)
      with ((list_ascii_of_string "id=" ++ v) ++ post) in Hsplit.
    apply app_eq_app in Hsplit.
    destruct Hsplit as (l & [[H1 H2] | [H1 H2]]).
    - destruct l as [|x l].
      + simpl in H2. rewrite <- H2 in Hocc. simpl in Hocc.
        apply orb_false_iff in Hocc. destruct Hocc as [_ Hocc].
        apply occurs_here. exact Hocc.
      + simpl in H2. injection H2 as -> _. exfalso.
        rewrite H1, forallb_app in Hidv. simpl in Hidv.
        unfold noneof at 2 in Hidv. rewrite Hc in Hidv. simpl in Hidv.
        rewrite andb_false_r in Hidv. discriminate.
    - rewrite H2 in Hocc.
      replace (l ++ c :: w2) with ((l ++ [c]) ++ w2) in Hocc
        by (rewrite <- app_assoc; reflexivity).
      apply occurs_suffix in Hocc. apply occurs_here. exact Hocc. }
  change (m (Group 2 (Str "id=" ;; Plus true (Chr (noneof "&"))))
            (MState (c :: rev w1' ++ b) w2 cs)
            (fun st1 => m (Star true Dot) st1 Some))
    with (m (Str "id=") (MState (c :: rev w1' ++ b) w2 cs)
            (fun st0 =>
               m (Plus true (Chr (noneof "&"))) st0
                 (fun st1 =>
                    m (Star true Dot)
                      (set_cap 2
                         (consumed (MState (c :: rev w1' ++ b) w2 cs) st1)
                         st1) Some))).
  apply m_Str_fail. exact Hw2.
Qed.

Lemma flat_not_slash l : forallb flat_char l = true -> ~ In "/"%char l.
Proof. intros H. apply (forallb_not_in flat_char); auto. Qed.

Lemma flat_dot l :
  forallb flat_char l = true ->
  forallb (fun c => negb (is_line_terminator c)) l = true.
Proof.
  apply forallb_weaken. intros c H. unfold flat_char in H.
  apply andb_true_iff in H. tauto.
Qed.

Lemma suffix_not_in (c : ascii) (w1 w2 l : chars) :
  l = w1 ++ w2 -> ~ In c l -> ~ In c w2.
Proof. intros -> H Hin. apply H. apply in_or_app. right. exact Hin. Qed.

Section Videoplayback.

Variables pre v post : chars.
Hypothesis pre_flat : forallb flat_char pre = true.
Hypothesis pre_end : pre = [] \/ exists pre', pre = pre' ++ ["&"%char].
Hypothesis v_nonempty : v <> [].
Hypothesis v_plain : forallb (noneof "?&/") v = true.
Hypothesis post_flat : forallb flat_char post = true.
Hypothesis post_start : stops (noneof "&") post.
Hypothesis post_no_id : occurs (list_ascii_of_string "id=") post = false.

Lemma videoplayback_query_no_slash :
  ~ In "/"%char (pre ++ list_ascii_of_string "id=" ++ v ++ post).
Proof.
  apply not_in_app; [apply flat_not_slash; exact pre_flat|].
  apply not_in_app; [apply mem_not_in; reflexivity|].
  apply not_in_app; [|apply flat_not_slash; exact post_flat].
  apply (noneof_not_in "?&/"); [exact v_plain | reflexivity].
Qed.

(** From the [?] of [videoplayback?] on: the repetition runs up to the
    last [id] parameter. *)
Lemma rule1_query b cs :
  m (Star true Dot ;;
     Group 2 (Behind (oneof "?&") ;; Str "id=" ;;
              Plus true (Chr (noneof "&"))) ;;
     Star true Dot)
    (MState ("?"%char :: b)
       (pre ++ list_ascii_of_string "id=" ++ v ++ post) cs) Some
  = Some (MState (rev post ++ rev v ++ rev (list_ascii_of_string "id=")
                    ++ rev pre ++ "?"%char :: b) []
                 ((2, list_ascii_of_string "id=" ++ v) :: cs)).
Proof.
  change (m (Star true Dot ;;
             Group 2 (Behind (oneof "?&") ;; Str "id=" ;;
                      Plus true (Chr (noneof "&"))) ;;
             Star true Dot)
            (MState ("?"%char :: b)
               (pre ++ list_ascii_of_string "id=" ++ v ++ post) cs) Some)
    with (star_loop (m (Chr (fun c => negb (is_line_terminator c)))) true
            (fun st1 =>
               m (Group 2 (Behind (oneof "?&") ;; Str "id=" ;;
                           Plus true (Chr (noneof "&"))) ;;
                  Star true Dot) st1 Some)
            (length (pre ++ list_ascii_of_string "id=" ++ v ++ post))
            (MState ("?"%char :: b)
               (pre ++ list_ascii_of_string "id=" ++ v ++ post) cs)).
  assert (Hv : forallb (noneof "&") v = true).
  { revert v_plain. apply forallb_weaken. intros c. unfold noneof, oneof.
    simpl. rewrite !negb_true_iff, !orb_false_iff. tauto. }
  assert (Hv' : forallb (noneof "?&") v = true).
  { revert v_plain. apply forallb_weaken. intros c. unfold noneof, oneof.
    simpl. rewrite !negb_true_iff, !orb_false_iff. tauto. }
  apply star_chr_last.
  - apply flat_dot. exact pre_flat.
  - destruct pre_end as [-> | (pre' & ->)].
    + cbv beta. change (rev [] ++ "?"%char :: b) with ("?"%char :: b).
      change ([] ++ list_ascii_of_string "id=" ++ v ++ post)
        with (list_ascii_of_string "id=" ++ v ++ post).
      apply id_group_here; auto using flat_dot.
    + cbv beta. rewrite rev_app_distr.
      change (rev ["&"%char] ++ rev pre') with ("&"%char :: rev pre').
      rewrite <- !app_comm_cons.
      apply id_group_here; auto using flat_dot.
  - intros w1 w2 Hs Hne. apply (id_group_later _ v post); assumption.
  - apply Nat.le_refl.
Qed.

(** What follows the leading [.*] of rule 1, where the host name
    stands. *)
Lemma rule1_body_here b :
  m (Str "googlevideo" ;; Dot ;; Str "com/" ;;
     Group 1 (Str "videoplayback" ;; Lit "?") ;;
     Star true Dot ;;
     Group 2 (Behind (oneof "?&") ;; Str "id=" ;;
              Plus true (Chr (noneof "&"))) ;;
     Star true Dot)
    (MState b
       (list_ascii_of_string "googlevideo.com/"
          ++ list_ascii_of_string "videoplayback" ++ "?"%char
          :: pre ++ list_ascii_of_string "id=" ++ v ++ post) []) Some
  = Some (MState (rev post ++ rev v ++ rev (list_ascii_of_string "id=")
                    ++ rev pre ++ "?"%char
                    :: rev (list_ascii_of_string "videoplayback")
                    ++ rev (list_ascii_of_string "googlevideo.com/") ++ b) []
                 [(2, list_ascii_of_string "id=" ++ v);
                  (1, list_ascii_of_string "videoplayback?")]).
Proof.
  change (m (Str "googlevideo" ;; Dot ;; Str "com/" ;;
             Group 1 (Str "videoplayback" ;; Lit "?") ;;
             Star true Dot ;;
             Group 2 (Behind (oneof "?&") ;; Str "id=" ;;
                      Plus true (Chr (noneof "&"))) ;;
             Star true Dot)
            (MState b
               (list_ascii_of_string "googlevideo.com/"
                  ++ list_ascii_of_string "videoplayback" ++ "?"%char
                  :: pre ++ list_ascii_of_string "id=" ++ v ++ post) [])
            Some)
    with (m (Group 1 (Str "videoplayback" ;; Lit "?"))
            (MState (rev (list_ascii_of_string "googlevideo.com/") ++ b)
               (list_ascii_of_string "videoplayback" ++ "?"%char
                  :: pre ++ list_ascii_of_string "id=" ++ v ++ post) [])
            (fun st1 =>
               m (Star true Dot ;;
                  Group 2 (Behind (oneof "?&") ;; Str "id=" ;;
                           Plus true (Chr (noneof "&"))) ;;
                  Star true Dot) st1 Some)).
  rewrite m_group_str_lit. rewrite rule1_query. reflexivity.
Qed.

(** At every later position the host name is not found. *)
Lemma rule1_body_later b w1 w2 :
  list_ascii_of_string videoplayback_source
    ++ pre ++ list_ascii_of_string "id=" ++ v ++ post = w1 ++ w2 ->
  w1 <> [] ->
  m (Str "googlevideo" ;; Dot ;; Str "com/" ;;
     Group 1 (Str "videoplayback" ;; Lit "?") ;;
     Star true Dot ;;
     Group 2 (Behind (oneof "?&") ;; Str "id=" ;;
              Plus true (Chr (noneof "&"))) ;;
     Star true Dot)
    (MState (rev w1 ++ b) w2 []) Some
  = None.
Proof.
  intros Hs Hne.
  generalize videoplayback_query_no_slash.
  generalize dependent (pre ++ list_ascii_of_string "id=" ++ v ++ post).
  intros tail Hs Htail.
  destruct w1 as [|c1 w1]; [congruence|]. clear Hne.
  cbn [videoplayback_source list_ascii_of_string app] in Hs.
  injection Hs as <- Hs.
  do 29 (destruct w1 as [|? w1];
         [cbn [app] in Hs; subst w2; reflexivity
         |cbn [app] in Hs; injection Hs as <- Hs]).
  apply m_needs with (c := "/"%char); [vm_compute; reflexivity|].
  simpl after. apply (suffix_not_in _ w1 w2 tail); [exact Hs | exact Htail].
Qed.

Lemma rule1_at_start h :
  forallb (fun c => negb (is_line_terminator c)) h = true ->
  m (rmatch rule1)
    (MState []
       (h ++ list_ascii_of_string videoplayback_source
          ++ pre ++ list_ascii_of_string "id=" ++ v ++ post) []) Some
  = Some (MState (rev post ++ rev v ++ rev (list_ascii_of_string "id=")
                    ++ rev pre ++ "?"%char
                    :: rev (list_ascii_of_string "videoplayback")
                    ++ rev (list_ascii_of_string "googlevideo.com/")
                    ++ rev h ++ []) []
                 [(2, list_ascii_of_string "id=" ++ v);
                  (1, list_ascii_of_string "videoplayback?")]).
Proof.
  intros Hh. unfold rule1, rmatch.
  change (m (Star true Dot ;; ?r) ?st Some)
    with (star_loop (m (Chr (fun c => negb (is_line_terminator c)))) true
            (fun st1 => m r st1 Some) (length (after st)) st).
  apply star_chr_last.
  - exact Hh.
  - apply rule1_body_here.
  - intros w1 w2 Hs Hne. apply rule1_body_later; assumption.
  - apply Nat.le_refl.
Qed.

End Videoplayback.

Lemma get_substitution_videoplayback res :
  get_substitution 2 res (list_ascii_of_string (rreplace rule1))
  = list_ascii_of_string "youtube.fuzzy.replayweb.page/"
      ++ cap_or_empty 1 res ++ cap_or_empty 2 res.
Proof. reflexivity. Qed.

Lemma empty_or_ends_chars c s :
  empty_or_ends c s ->
  list_ascii_of_string s = []
  \/ exists l, list_ascii_of_string s = l ++ [c].
Proof.
  intros [-> | (s' & ->)]; [left; reflexivity|].
  right. exists (list_ascii_of_string s'). apply list_of_append.
Qed.

Lemma empty_or_starts_stops (c : ascii) (p : ascii -> bool) s :
  p c = false -> empty_or_starts c s -> stops p (list_ascii_of_string s).
Proof. intros Hc [-> | (s' & ->)]; simpl; auto. Qed.

Lemma first_separator (c : ascii) : forall x y d d',
  x ++ c :: d = y ++ c :: d' -> ~ In c x -> ~ In c y -> x = y.
Proof.
  induction x as [|a x IH]; intros y d d' H Hx Hy.
  - destruct y as [|b y]; [reflexivity|]. simpl in H. injection H as <- _.
    exfalso. apply Hy. left. reflexivity.
  - destruct y as [|b y]; simpl in H.
    + injection H as -> _. exfalso. apply Hx. left. reflexivity.
    + injection H as -> H. f_equal. apply (IH y d d' H).
      * intros Hin. apply Hx. right. exact Hin.
      * intros Hin. apply Hy. right. exact Hin.
Qed.

(** What rule 1 writes for a videoplayback address. *)
Lemma rule1_apply (h pre v post : string) :
  string_forall flat_char h = true ->
  string_forall flat_char pre = true -> empty_or_ends "&" pre ->
  v <> ""%string -> string_forall (noneof "?&/") v = true ->
  string_forall flat_char post = true -> empty_or_starts "&" post ->
  occurs (list_ascii_of_string "id=") (list_ascii_of_string post) = false ->
  apply_rule rule1 (h ++ videoplayback_source ++ pre ++ "id=" ++ v ++ post)
  = (videoplayback_canon ++ v)%string.
Proof.
  intros Hh Hpre Hend Hne Hv Hpost Hstart Hocc.
  pose proof (rule1_at_start (list_ascii_of_string pre)
                (list_ascii_of_string v) (list_ascii_of_string post)
                Hpre (empty_or_ends_chars _ _ Hend) (string_neq_nil v Hne)
                Hv Hpost
                (empty_or_starts_stops "&" (noneof "&") post eq_refl Hstart)
                Hocc (list_ascii_of_string h) (flat_dot _ Hh)) as Hm.
  unfold apply_rule, replace, replace_chars, exec.
  rewrite !list_of_append.
  rewrite (exec_from_here _ _ _ _ Hm).
  change (ngroups (rmatch rule1)) with 2.
  rewrite get_substitution_videoplayback. unfold cap_or_empty. simpl.
  rewrite app_nil_r.
  rewrite <- (string_of_list_ascii_of_string v) at 2.
  reflexivity.
Qed.

(** X16: a googlevideo videoplayback address is reduced to the canonical
    videoplayback form with the value of its last [id] parameter: the
    host name before [googlevideo.com] and every other parameter,
    earlier [id] parameters included, are dropped. *)
Theorem reduce_videoplayback (h pre v post : string) :
  string_forall flat_char h = true ->
  string_forall flat_char pre = true -> empty_or_ends "&" pre ->
  v <> ""%string -> string_forall (noneof "?&/") v = true ->
  string_forall flat_char post = true -> empty_or_starts "&" post ->
  occurs (list_ascii_of_string "id=") (list_ascii_of_string post) = false ->
  reduce (h ++ videoplayback_source ++ pre ++ "id=" ++ v ++ post)
  = (videoplayback_canon ++ v)%string.
Proof.
  intros Hh Hpre Hend Hne Hv Hpost Hstart Hocc.
  pose proof (rule1_apply h pre v post Hh Hpre Hend Hne Hv Hpost Hstart Hocc)
    as H1.
  unfold reduce, fuzzy_rules. rewrite reduce_with_fire; [exact H1|].
  rewrite H1. intros H. apply (f_equal list_ascii_of_string) in H.
  rewrite !list_of_append in H.
  change (list_ascii_of_string videoplayback_canon)
    with (list_ascii_of_string "youtube.fuzzy.replayweb.page"
            ++ "/"%char :: list_ascii_of_string "videoplayback?id=") in H.
  change (list_ascii_of_string videoplayback_source)
    with (list_ascii_of_string "googlevideo.com"
            ++ "/"%char :: list_ascii_of_string "videoplayback?") in H.
  rewrite <- !app_assoc in H. rewrite <- app_comm_cons in H.
  rewrite (app_assoc (list_ascii_of_string h)) in H.
  apply first_separator in H.
  - apply (f_equal (@rev ascii)) in H. rewrite rev_app_distr in H.
    simpl in H. discriminate.
  - apply mem_not_in. reflexivity.
  - apply not_in_app; [apply flat_not_slash; exact Hh|].
    apply mem_not_in. reflexivity.
Qed.

Lemma reduce_videoplayback_witness :
  reduce ("r4---sn-4g5e6nsz." ++ videoplayback_source
            ++ "expire=1700000000&id=old&ei=Xy&" ++ "id=" ++ "o-AGx1_k"
            ++ "&itag=22&source=youtube")
  = "youtube.fuzzy.replayweb.page/videoplayback?id=o-AGx1_k"%string.
Proof.
  apply (reduce_videoplayback "r4---sn-4g5e6nsz."
           "expire=1700000000&id=old&ei=Xy&" "o-AGx1_k"
           "&itag=22&source=youtube");
    try reflexivity.
  - right. exists "expire=1700000000&id=old&ei=Xy". reflexivity.
  - discriminate.
  - right. exists "itag=22&source=youtube". reflexivity.
Defined.

(** ** The text that a match reads *)

Lemma m_no_match r st k :
  (forall st', ~ Matches r st st') -> m r st k = None.
Proof.
  intros H. destruct (m r st k) as [res|] eqn:Hm; [|reflexivity].
  apply m_sound in Hm. destruct Hm as (st' & Hm & _).
  exfalso. exact (H st' Hm).
Qed.

Lemma Matches_Str_inv s : forall st st',
  Matches (Str s) st st' ->
  after st = list_ascii_of_string s ++ after st' /\ caps st' = caps st.
Proof.
  induction s as [|c s IH]; intros st st' H; cbn [Str] in H.
  - inversion H; subst. split; reflexivity.
  - inv_matches. match goal with
    | Hs : Matches (Str s) _ _ |- _ => apply IH in Hs; destruct Hs as [Ha Hc]
    end.
    simpl in *. rewrite Ha. split; [reflexivity | assumption].
Qed.

Lemma Matches_after r st st' :
  Matches r st st' -> exists w, after st = w ++ after st'.
Proof.
  intros H. destruct (Matches_spans _ _ _ H) as (w & Ha & _).
  exists w. exact Ha.
Qed.

Lemma Matches_opt_str_inv s st st' :
  Matches (Opt (Str s)) st st' ->
  (after st = after st' \/ after st = list_ascii_of_string s ++ after st')
  /\ caps st' = caps st.
Proof.
  unfold Opt. intros H.
  inversion H as [| | |? ? ? ? HL|? ? ? ? HR| | | | | |]; subst.
  - apply Matches_Str_inv in HL. destruct HL as [Ha Hc]. auto.
  - inversion HR; subst. auto.
Qed.

(** The four host names that the youtube rules read. *)
Lemma youtube_head_inv (t : string) (r : regex) st st' :
  Matches (Opt (Str "www.") ;; Str "youtube" ;; Opt (Str "-nocookie") ;;
           Str (".com/" ++ t) ;; r) st st' ->
  exists host st1,
    In host youtube_hosts
    /\ after st = list_ascii_of_string host
                    ++ "/"%char :: list_ascii_of_string t ++ after st1
    /\ caps st1 = caps st
    /\ Matches r st1 st'.
Proof.
  intros H.
  inversion H as [| |? ? ? sa ? H1 H2| | | | | | | |]; subst; clear H.
  inversion H2 as [| |? ? ? sb ? H3 H4| | | | | | | |]; subst; clear H2.
  inversion H4 as [| |? ? ? sc ? H5 H6| | | | | | | |]; subst; clear H4.
  inversion H6 as [| |? ? ? sd ? H7 H8| | | | | | | |]; subst; clear H6.
  apply (Matches_opt_str_inv "www.") in H1. destruct H1 as [H1 C1].
  apply (Matches_Str_inv "youtube") in H3. destruct H3 as [H3 C3].
  apply (Matches_opt_str_inv "-nocookie") in H5. destruct H5 as [H5 C5].
  apply (Matches_Str_inv (".com/" ++ t)) in H7. destruct H7 as [H7 C7].
  rewrite list_of_append in H7.
  assert (Hc : caps sd = caps st) by congruence.
  destruct H1 as [H1 | H1], H5 as [H5 | H5].
  - exists "youtube.com"%string, sd. split; [simpl; tauto|].
    split; [|auto]. rewrite H1, H3, H5, H7. reflexivity.
  - exists "youtube-nocookie.com"%string, sd. split; [simpl; tauto|].
    split; [|auto]. rewrite H1, H3, H5, H7. reflexivity.
  - exists "www.youtube.com"%string, sd. split; [simpl; tauto|].
    split; [|auto]. rewrite H1, H3, H5, H7. reflexivity.
  - exists "www.youtube-nocookie.com"%string, sd. split; [simpl; tauto|].
    split; [|auto]. rewrite H1, H3, H5, H7. reflexivity.
Qed.

Lemma Matches_seq_any r1 r2 st st' :
  Matches (r1 ;; r2) st st' ->
  exists w st1, after st = w ++ after st1 /\ Matches r2 st1 st'.
Proof.
  intros H. inversion H as [| |? ? ? s1 ? H1 H2| | | | | | | |]; subst.
  destruct (Matches_after _ _ _ H1) as (w & Hw). exists w, s1. auto.
Qed.

Lemma Matches_seq_str s r st st' :
  Matches (Str s ;; r) st st' ->
  exists st1, after st = list_ascii_of_string s ++ after st1
              /\ caps st1 = caps st /\ Matches r st1 st'.
Proof.
  intros H. inversion H as [| |? ? ? s1 ? H1 H2| | | | | | | |]; subst.
  apply (Matches_Str_inv s) in H1. destruct H1 as [Ha Hc].
  exists s1. auto.
Qed.

Lemma Matches_seq_chr p r st st' :
  Matches (Chr p ;; r) st st' ->
  exists c st1, after st = c :: after st1 /\ caps st1 = caps st
                /\ Matches r st1 st'.
Proof.
  intros H. inversion H as [| |? ? ? s1 ? H1 H2| | | | | | | |]; subst.
  inversion H1; subst.
  exists c, (MState (c :: b) a cs). simpl. auto.
Qed.

Lemma Matches_seq_group_str_lit n s (c : ascii) r st st' :
  Matches (Group n (Str s ;; Lit c) ;; r) st st' ->
  exists st1, after st = list_ascii_of_string s ++ c :: after st1
              /\ Matches r st1 st'.
Proof.
  intros H. inversion H as [| |? ? ? s1 ? H1 H2| | | | | | | |]; subst.
  inversion H1 as [| | | | | | |? ? ? s2 H3| | |]; subst.
  apply (Matches_seq_str s) in H3. destruct H3 as (s3 & Ha & _ & H3).
  unfold Lit in H3. inversion H3; subst.
  match goal with Hc : Ascii.eqb _ _ = true |- _ =>
    apply Ascii.eqb_eq in Hc; subst end.
  eexists. split; [|exact H2]. simpl in *. exact Ha.
Qed.

(** The text that rule 1 reads has [/videoplayback?] in it. *)
Lemma rule1_text st st' :
  Matches (rmatch rule1) st st' ->
  exists a0 a,
    after st = a0 ++ "/"%char :: list_ascii_of_string "videoplayback"
                  ++ "?"%char :: a.
Proof.
  unfold rule1, rmatch. intros H.
  apply Matches_seq_any in H. destruct H as (w0 & s1 & H0 & H).
  apply (Matches_seq_str "googlevideo") in H.
  destruct H as (s2 & H1 & _ & H).
  apply Matches_seq_chr in H. destruct H as (c & s3 & H2 & _ & H).
  apply (Matches_seq_str "com/") in H. destruct H as (s4 & H3 & _ & H).
  apply (Matches_seq_group_str_lit 1 "videoplayback" "?") in H.
  destruct H as (s5 & H4 & _).
  exists (w0 ++ list_ascii_of_string "googlevideo" ++ c
             :: list_ascii_of_string "com"), (after s5).
  rewrite H0, H1, H2, H3, H4. rewrite <- !app_assoc. simpl.
  reflexivity.
Qed.

(** The text that rule 2 reads has [get_video_info?] in it. *)
Lemma rule2_text st st' :
  Matches (rmatch rule2) st st' ->
  exists a0 a,
    after st = a0 ++ list_ascii_of_string "get_video_info" ++ "?"%char :: a.
Proof.
  unfold rule2, rmatch. intros H.
  apply (youtube_head_inv "") in H.
  destruct H as (h & s1 & _ & H0 & _ & H).
  apply (Matches_seq_group_str_lit 1 "get_video_info" "?") in H.
  destruct H as (s2 & H1 & _).
  exists (list_ascii_of_string h ++ ["/"%char]), (after s2).
  rewrite H0, H1. rewrite <- !app_assoc. reflexivity.
Qed.

(** The text that rules 4, 5 and 6 read has [youtube] in it. *)
Lemma youtube_text (r : rule) st st' :
  In r [rule4; rule5; rule6] ->
  Matches (rmatch r) st st' ->
  exists a0 a, after st = a0 ++ list_ascii_of_string "youtube" ++ a.
Proof.
  assert (Hhost : forall h, In h youtube_hosts ->
            exists a0 a, list_ascii_of_string h
                         = a0 ++ list_ascii_of_string "youtube" ++ a).
  { intros h Hh. simpl in Hh. destruct Hh as [<-|[<-|[<-|[<-|[]]]]].
    - exists [], (list_ascii_of_string ".com"). reflexivity.
    - exists (list_ascii_of_string "www."), (list_ascii_of_string ".com").
      reflexivity.
    - exists [], (list_ascii_of_string "-nocookie.com"). reflexivity.
    - exists (list_ascii_of_string "www."),
             (list_ascii_of_string "-nocookie.com"). reflexivity. }
  intros Hr Hm. simpl in Hr. destruct Hr as [<-|[<-|[<-|[]]]].
  - unfold rule4, rmatch in Hm. apply (youtube_head_inv "") in Hm.
    destruct Hm as (h & st1 & Hh & Ha & _).
    destruct (Hhost h Hh) as (a0 & a & E). rewrite E in Ha.
    exists a0. eexists. rewrite Ha. rewrite <- !app_assoc. reflexivity.
  - unfold rule5, rmatch in Hm. apply (youtube_head_inv "embed/") in Hm.
    destruct Hm as (h & st1 & Hh & Ha & _).
    destruct (Hhost h Hh) as (a0 & a & E). rewrite E in Ha.
    exists a0. eexists. rewrite Ha. rewrite <- !app_assoc. reflexivity.
  - unfold rule6, rmatch in Hm. apply (Matches_seq_str "youtube") in Hm.
    destruct Hm as (st1 & Ha & _). exists [], (after st1). exact Ha.
Qed.

(** No match of [r] in a subject: none at any position. *)
Lemma exec_no_match r s :
  (forall w1 w2 st', s = w1 ++ w2 ->
     ~ Matches r (MState (rev w1) w2 []) st') ->
  exec r s = None.
Proof.
  intros H. destruct (exec r s) as [res|] eqn:Hex; [|reflexivity].
  exfalso. apply exec_sound in Hex.
  destruct Hex as (skipped & rest' & st' & w & Hs & _ & Hm & _).
  exact (H skipped rest' st' Hs Hm).
Qed.

Lemma ends_with_app (pat s : string) l :
  list_ascii_of_string s = l ++ list_ascii_of_string pat ->
  ends_with pat s = true.
Proof.
  intros H. unfold ends_with. rewrite H, rev_app_distr.
  generalize (rev (list_ascii_of_string pat)) (rev l).
  induction l0 as [|c p IH]; intros l1; [reflexivity|].
  simpl. rewrite Ascii.eqb_refl. apply IH.
Qed.

Lemma cons_eq_inv (a b : ascii) (l l' : chars) :
  a :: l = b :: l' -> a = b /\ l = l'.
Proof. intros H. injection H as -> ->. auto. Qed.

(** A youtube host name that ends where another one ends is that one,
    or that one after [www.]. *)
Lemma host_suffix x2 (host h : string) :
  In host youtube_hosts -> In h youtube_hosts ->
  x2 ++ list_ascii_of_string host = list_ascii_of_string h ->
  x2 = [] \/ (x2 = list_ascii_of_string "www."
              /\ String.prefix "www." host = false).
Proof.
  intros Hhost Hh H.
  apply (f_equal (@rev ascii)) in H. rewrite rev_app_distr in H.
  assert (Hr : forall l, rev x2 = rev l -> x2 = l).
  { intros l Hl. apply (f_equal (@rev ascii)) in Hl.
    rewrite !rev_involutive in Hl. exact Hl. }
  simpl in Hhost, Hh.
  destruct Hhost as [<-|[<-|[<-|[<-|[]]]]];
    destruct Hh as [<-|[<-|[<-|[<-|[]]]]];
    cbn [list_ascii_of_string rev app] in H;
    repeat (match type of H with
            | _ :: _ = _ :: _ =>
                first [ discriminate H
                      | apply cons_eq_inv in H; destruct H as [_ H] ]
            end);
    try discriminate H;
    first [ left; apply (Hr []); exact H
          | right; split; [apply (Hr (list_ascii_of_string "www.")); exact H
                          | reflexivity] ].
Qed.

Lemma unique_sep (c : ascii) : forall x y d d',
  x ++ c :: d = y ++ c :: d' -> ~ In c x -> ~ In c d -> x = y /\ d = d'.
Proof.
  induction x as [|a x IH]; intros y d d' H Hx Hd.
  - destruct y as [|b y]; simpl in H.
    + injection H as ->. auto.
    + injection H as <- ->. exfalso. apply Hd.
      apply in_or_app. right. left. reflexivity.
  - destruct y as [|b y]; simpl in H.
    + injection H as -> _. exfalso. apply Hx. left. reflexivity.
    + injection H as -> H. apply IH in H.
      * destruct H as [-> ->]. auto.
      * intros Hin. apply Hx. right. exact Hin.
      * exact Hd.
Qed.

(** A text without [c] that ends a text with a [c] in it lies after
    that [c]. *)
Lemma ends_after_sep (c : ascii) A p Z V :
  A ++ c :: p = Z ++ V -> ~ In c V -> exists l, p = l ++ V.
Proof.
  intros H Hc.
  replace (A ++ c :: p) with ((A ++ [c]) ++ p) in H
    by (rewrite <- app_assoc; reflexivity).
  apply app_eq_app in H. destruct H as (l & [[H1 H2] | [H1 H2]]).
  - destruct l as [|a l]; [exists []; simpl in H2; auto|].
    exfalso. destruct (@exists_last _ (a :: l)) as (l' & z & Hl);
      [discriminate|].
    rewrite Hl in H1, H2. rewrite app_assoc in H1.
    apply app_inj_tail in H1. destruct H1 as [_ <-].
    apply Hc. rewrite H2. apply in_or_app. left. apply in_or_app. right.
    left. reflexivity.
  - exists l. exact H2.
Qed.

Lemma occurs_intro pat : forall a b, occurs pat (a ++ pat ++ b) = true.
Proof.
  assert (Hs : forall b, starts_with pat (pat ++ b) = true).
  { induction pat as [|c pat IH]; intros b; [reflexivity|].
    simpl. rewrite Ascii.eqb_refl. apply IH. }
  induction a as [|c a IH]; intros b.
  - simpl app. destruct (pat ++ b) eqn:E; simpl; rewrite <- E, Hs;
      reflexivity.
  - simpl. rewrite IH. apply orb_true_r.
Qed.

(** ** Where the first match starts *)

Lemma exec_from_skip_suffixes r : forall x pre rest,
  (forall x1 x2 b, x = x1 ++ x2 -> x2 <> [] ->
     m r (MState b (x2 ++ rest) []) Some = None) ->
  exec_from r pre (x ++ rest) = exec_from r (rev x ++ pre) rest.
Proof.
  induction x as [|c x IH]; intros pre rest H; [reflexivity|].
  simpl app. rewrite exec_from_skip.
  - rewrite IH.
    + simpl rev. rewrite <- app_assoc. reflexivity.
    + intros x1 x2 b -> Hne. apply (H (c :: x1) x2); [reflexivity | exact Hne].
  - apply (H [] (c :: x)); [reflexivity | discriminate].
Qed.

Lemma exec_after_prefix r x rest st :
  (forall x1 x2 b, x = x1 ++ x2 -> x2 <> [] ->
     m r (MState b (x2 ++ rest) []) Some = None) ->
  m r (MState (rev x) rest []) Some = Some st ->
  exec r (x ++ rest)
  = Some (MatchResult (rev x) (consumed (MState (rev x) rest []) st)
                      (after st) (caps st)).
Proof.
  intros Hx Hm. unfold exec. rewrite exec_from_skip_suffixes by exact Hx.
  rewrite app_nil_r. apply exec_from_here. exact Hm.
Qed.

(** A youtube rule does not match from inside the text before the host
    name, when that text has no [/] and the host name is whole. *)
Lemma youtube_head_not_before (t : string) (r : regex) (x host : string)
  rest x1 x2 b :
  In host youtube_hosts ->
  string_forall (noneof "/") x = true ->
  whole_host x host = true ->
  list_ascii_of_string x = x1 ++ x2 -> x2 <> [] ->
  m (Opt (Str "www.") ;; Str "youtube" ;; Opt (Str "-nocookie") ;;
     Str (".com/" ++ t) ;; r)
    (MState b (x2 ++ list_ascii_of_string host ++ "/"%char :: rest) []) Some
  = None.
Proof.
  intros Hhost Hx Hw Hs Hne. apply m_no_match. intros st' Hm.
  apply youtube_head_inv in Hm.
  destruct Hm as (h & st1 & Hh & Ha & _). simpl after in Ha.
  assert (Hx2 : ~ In "/"%char x2).
  { apply (suffix_not_in _ x1 x2 _ Hs).
    apply (noneof_not_in "/"); [exact Hx | reflexivity]. }
  assert (Hno : forall s, In s youtube_hosts ->
                ~ In "/"%char (list_ascii_of_string s)).
  { intros s Hin. apply mem_not_in. simpl in Hin.
    destruct Hin as [<-|[<-|[<-|[<-|[]]]]]; reflexivity. }
  rewrite app_assoc in Ha. apply first_separator in Ha.
  - destruct (host_suffix x2 host h Hhost Hh Ha) as [-> | [-> Hp]];
      [congruence|].
    unfold whole_host in Hw. rewrite Hp, orb_false_r in Hw.
    rewrite (ends_with_app "www." x x1) in Hw by exact Hs. discriminate.
  - apply not_in_app; [exact Hx2 | apply Hno; exact Hhost].
  - apply Hno. exact Hh.
Qed.

Lemma without_slash (x : string) :
  string_forall (noneof "?/") x = true -> string_forall (noneof "/") x = true.
Proof.
  apply forallb_weaken. intros c. unfold noneof, oneof. simpl.
  rewrite !negb_true_iff, !orb_false_iff. tauto.
Qed.

(** ** Rule 5 is not anchored: what stands before the host stays *)

Lemma youtube_host_embed (tail : regex) (host : string) b a cs k res :
  In host youtube_hosts ->
  m tail
    (MState (rev (list_ascii_of_string (host ++ "/embed/")) ++ b) a cs) k
  = Some res ->
  m (Opt (Str "www.") ;; Str "youtube" ;; Opt (Str "-nocookie") ;;
     Str ".com/embed/" ;; tail)
    (MState b (list_ascii_of_string (host ++ "/embed/") ++ a) cs) k
  = Some res.
Proof.
  intros Hhost Hk. simpl in Hhost.
  destruct Hhost as [<-|[<-|[<-|[<-|[]]]]];
    match type of Hk with
    | ?X = _ =>
        first [ change (X = Some res)
              | change (orelse X None = Some res)
              | change (orelse (orelse X None) None = Some res) ]
    end;
    rewrite Hk; reflexivity.
Qed.

Lemma rule5_after_prefix (host : string) b v :
  In host youtube_hosts ->
  v <> [] -> forallb (noneof "?") v = true ->
  m (rmatch rule5)
    (MState b (list_ascii_of_string (host ++ "/embed/") ++ v) []) Some
  = Some (MState (rev v ++ rev (list_ascii_of_string (host ++ "/embed/"))
                    ++ b) [] [(1, v)]).
Proof.
  intros Hhost Hne Hv. unfold rule5, rmatch.
  apply youtube_host_embed; [exact Hhost|].
  change (m (Group 1 (Plus true (Chr (noneof "?"))) ;; Star true Dot)
            (MState (rev (list_ascii_of_string (host ++ "/embed/")) ++ b)
               v []) Some)
    with (m (Group 1 (Plus true (Chr (noneof "?"))))
            (MState (rev (list_ascii_of_string (host ++ "/embed/")) ++ b)
               v [])
            (fun st1 => m (Star true Dot) st1 Some)).
  apply m_group_plus_end; try assumption. reflexivity.
Qed.

Lemma rule4_inert_on_embed (x host v : string) :
  In host youtube_hosts ->
  string_forall (noneof "?/") x = true ->
  whole_host x host = true ->
  string_forall (noneof "?/") v = true ->
  apply_rule rule4 (x ++ host ++ "/embed/" ++ v)
  = (x ++ host ++ "/embed/" ++ v)%string.
Proof.
  intros Hhost Hx Hw Hv. apply apply_rule_no_match. rewrite list_of_append.
  unfold exec. rewrite exec_from_skip_suffixes.
  2:{ intros x1 x2 b Hs Hne. rewrite !list_of_append.
      apply (youtube_head_not_before "" _ x host _ x1 x2 b Hhost
               (without_slash x Hx) Hw Hs Hne). }
  rewrite !list_of_append.
  generalize (rev (list_ascii_of_string x) ++ []).
  generalize (list_ascii_of_string v)
             (noneof_not_in "?/" "/"%char _ Hv eq_refl).
  intros l Hl pre. simpl in Hhost.
  destruct Hhost as [<-|[<-|[<-|[<-|[]]]]];
    cbn [list_ascii_of_string app];
    repeat (rewrite exec_from_skip by (vm_compute; reflexivity));
    (apply exec_from_needs with (c := "/"%char);
     [vm_compute; reflexivity | exact Hl]).
Qed.

Lemma rule5_apply_hosts (x host v : string) :
  In host youtube_hosts ->
  string_forall (noneof "?/") x = true ->
  whole_host x host = true ->
  v <> ""%string -> string_forall (noneof "?/") v = true ->
  apply_rule rule5 (x ++ host ++ "/embed/" ++ v)
  = (x ++ embed_canon ++ v)%string.
Proof.
  intros Hhost Hx Hw Hne Hv.
  assert (Hv' : forallb (noneof "?") (list_ascii_of_string v) = true).
  { revert Hv. apply forallb_weaken. intros c. unfold noneof, oneof. simpl.
    rewrite !negb_true_iff, !orb_false_iff. tauto. }
  pose proof (rule5_after_prefix host (rev (list_ascii_of_string x))
                (list_ascii_of_string v) Hhost (string_neq_nil v Hne) Hv')
    as Hm.
  unfold apply_rule, replace, replace_chars.
  rewrite <- (string_append_assoc host "/embed/" v).
  rewrite (list_of_append x), (list_of_append (host ++ "/embed/") v).
  assert (Hfail : forall x1 x2 b,
             list_ascii_of_string x = x1 ++ x2 -> x2 <> [] ->
             m (rmatch rule5)
               (MState b (x2 ++ list_ascii_of_string (host ++ "/embed/")
                            ++ list_ascii_of_string v) []) Some = None).
  { intros x1 x2 b Hs Hne2. rewrite list_of_append, <- app_assoc.
    apply (youtube_head_not_before "embed/" _ x host _ x1 x2 b Hhost
             (without_slash x Hx) Hw Hs Hne2). }
  rewrite (exec_after_prefix _ _ _ _ Hfail Hm).
  change (ngroups (rmatch rule5)) with 1.
  change (rreplace rule5) with (rreplace rule6).
  rewrite get_substitution_embed. unfold cap_or_empty. simpl.
  rewrite rev_involutive, app_nil_r.
  rewrite string_of_app, string_of_list_ascii_of_string.
  f_equal. rewrite <- (string_of_list_ascii_of_string v) at 2.
  reflexivity.
Qed.

(** X17: the embed rule accepts the four youtube host names and is not
    anchored: an embed address under any of them is reduced to the
    canonical embed form, and the text that stands before the host name
    (a sub-domain such as [m.]) stays in front of the canonical form.
    The text before the host name has no [?] and no [/], and the host
    name is whole: a [www.] before [youtube] belongs to the host name;
    the id is not empty and has no [?] and no [/]. *)
Theorem reduce_embed_hosts (x host v : string) :
  In host youtube_hosts ->
  string_forall (noneof "?/") x = true ->
  whole_host x host = true ->
  v <> ""%string -> string_forall (noneof "?/") v = true ->
  reduce (x ++ host ++ "/embed/" ++ v) = (x ++ embed_canon ++ v)%string.
Proof.
  intros Hhost Hx Hw Hne Hv.
  pose proof (rule5_apply_hosts x host v Hhost Hx Hw Hne Hv) as H5.
  assert (Hp : string_forall (noneof "?") (x ++ host ++ "/embed/" ++ v)
               = true).
  { rewrite !string_forall_app.
    apply andb_true_iff; split; [|apply andb_true_iff; split;
                                   [|apply andb_true_iff; split]].
    - revert Hx. apply forallb_weaken. intros c. unfold noneof, oneof.
      simpl. rewrite !negb_true_iff, !orb_false_iff. tauto.
    - simpl in Hhost. destruct Hhost as [<-|[<-|[<-|[<-|[]]]]]; reflexivity.
    - reflexivity.
    - revert Hv. apply forallb_weaken. intros c. unfold noneof, oneof.
      simpl. rewrite !negb_true_iff, !orb_false_iff. tauto. }
  unfold reduce.
  change fuzzy_rules
    with ([rule1; rule2; rule3; rule4] ++ rule5 :: [rule6; rule7; rule8]).
  rewrite reduce_with_first_change; [exact H5| |].
  - intros r Hr. simpl in Hr. destruct Hr as [<-|[<-|[<-|[<-|[]]]]].
    + apply (no_match_without _ "?"%char "?"); [vm_compute| |exact Hp];
        reflexivity.
    + apply (no_match_without _ "?"%char "?"); [vm_compute| |exact Hp];
        reflexivity.
    + apply (no_match_without _ "?"%char "?"); [vm_compute| |exact Hp];
        reflexivity.
    + apply rule4_inert_on_embed; assumption.
  - rewrite H5. intros H. apply (f_equal String.length) in H.
    rewrite !append_length in H. simpl in Hhost.
    destruct Hhost as [<-|[<-|[<-|[<-|[]]]]]; simpl in H; lia.
Qed.

Lemma reduce_embed_hosts_witness :
  reduce ("my." ++ "youtube.com" ++ "/embed/" ++ "dQw4w9WgXcQ")
  = "my.youtube.fuzzy.replayweb.page/embed/dQw4w9WgXcQ"%string.
Proof.
  apply (reduce_embed_hosts "my." "youtube.com" "dQw4w9WgXcQ");
    try reflexivity.
  - simpl. tauto.
  - discriminate.
Defined.

(** After [www.] the host name [youtube.com] is not whole: the rule
    reads [www.youtube.com], and the [www.] does not stay. *)
Lemma embed_host_with_www :
  reduce ("www." ++ "youtube.com" ++ "/embed/" ++ "dQw4w9WgXcQ")
  = "youtube.fuzzy.replayweb.page/embed/dQw4w9WgXcQ"%string
  /\ whole_host "www." "youtube.com" = false
  /\ whole_host "www." "www.youtube.com" = true.
Proof. repeat split; vm_compute; reflexivity. Qed.

(** ** Rule 2: the get_video_info addresses *)

Lemma youtube_host_slash (tail : regex) (host : string) b a cs k res :
  In host youtube_hosts ->
  m tail (MState (rev (list_ascii_of_string (host ++ "/")) ++ b) a cs) k
  = Some res ->
  m (Opt (Str "www.") ;; Str "youtube" ;; Opt (Str "-nocookie") ;;
     Str ".com/" ;; tail)
    (MState b (list_ascii_of_string (host ++ "/") ++ a) cs) k
  = Some res.
Proof.
  intros Hhost Hk. simpl in Hhost.
  destruct Hhost as [<-|[<-|[<-|[<-|[]]]]];
    match type of Hk with
    | ?X = _ =>
        first [ change (X = Some res)
              | change (orelse X None = Some res)
              | change (orelse (orelse X None) None = Some res) ]
    end;
    rewrite Hk; reflexivity.
Qed.

Lemma video_id_here b v post cs :
  v <> [] -> forallb (noneof "&") v = true -> stops (noneof "&") post ->
  forallb (fun x => negb (is_line_terminator x)) post = true ->
  m (Group 2 (Str "video_id=" ;; Plus true (Chr (noneof "&"))) ;;
     Star true Dot)
    (MState b (list_ascii_of_string "video_id=" ++ v ++ post) cs) Some
  = Some (MState (rev post ++ rev v
                    ++ rev (list_ascii_of_string "video_id=") ++ b) []
                 ((2, list_ascii_of_string "video_id=" ++ v) :: cs)).
Proof.
  intros Hne Hv Hstop Hpost.
  change (m (Group 2 (Str "video_id=" ;; Plus true (Chr (noneof "&"))) ;;
             Star true Dot)
            (MState b (list_ascii_of_string "video_id=" ++ v ++ post) cs)
            Some)
    with (m (Group 2 (Str "video_id=" ;; Plus true (Chr (noneof "&"))))
            (MState b (list_ascii_of_string "video_id=" ++ v ++ post) cs)
            (fun st1 => m (Star true Dot) st1 Some)).
  apply m_group_str_plus; try assumption.
  rewrite trailing_star by exact Hpost. reflexivity.
Qed.

Lemma video_id_later b v post cs w1 w2 :
  occurs (list_ascii_of_string "video_id=") (v ++ post) = false ->
  list_ascii_of_string "video_id=" ++ v ++ post = w1 ++ w2 -> w1 <> [] ->
  m (Group 2 (Str "video_id=" ;; Plus true (Chr (noneof "&"))) ;;
     Star true Dot)
    (MState (rev w1 ++ b) w2 cs) Some
  = None.
Proof.
  intros Hocc Hs Hne.
  assert (Hw2 : starts_with (list_ascii_of_string "video_id=") w2 = false).
  { generalize dependent (v ++ post). intros rest Hocc Hs.
    destruct w1 as [|c1 w1]; [congruence|]. clear Hne.
    cbn [list_ascii_of_string app] in Hs. injection Hs as <- Hs.
    do 8 (destruct w1 as [|? w1];
          [cbn [app] in Hs; subst w2; reflexivity
          |cbn [app] in Hs; injection Hs as <- Hs]).
    rewrite Hs in Hocc. apply occurs_suffix in Hocc.
    apply occurs_here. exact Hocc. }
  change (m (Group 2 (Str "video_id=" ;; Plus true (Chr (noneof "&"))) ;;
             Star true Dot)
            (MState (rev w1 ++ b) w2 cs) Some)
    with (m (Str "video_id=") (MState (rev w1 ++ b) w2 cs)
            (fun st0 =>
               m (Plus true (Chr (noneof "&"))) st0
                 (fun st1 =>
                    m (Star true Dot)
                      (set_cap 2
                         (consumed (MState (rev w1 ++ b) w2 cs) st1) st1)
                      Some))).
  apply m_Str_fail. exact Hw2.
Qed.

Lemma rule2_after_prefix (host : string) b pre v post :
  In host youtube_hosts ->
  forallb (fun x => negb (is_line_terminator x)) pre = true ->
  v <> [] -> forallb (noneof "&") v = true ->
  stops (noneof "&") post ->
  forallb (fun x => negb (is_line_terminator x)) post = true ->
  occurs (list_ascii_of_string "video_id=") (v ++ post) = false ->
  m (rmatch rule2)
    (MState b
       (list_ascii_of_string (host ++ "/")
          ++ list_ascii_of_string "get_video_info" ++ "?"%char
          :: pre ++ list_ascii_of_string "video_id=" ++ v ++ post) []) Some
  = Some (MState (rev post ++ rev v
                    ++ rev (list_ascii_of_string "video_id=")
                    ++ rev pre ++ "?"%char
                    :: rev (list_ascii_of_string "get_video_info")
                    ++ rev (list_ascii_of_string (host ++ "/")) ++ b) []
                 [(2, list_ascii_of_string "video_id=" ++ v);
                  (1, list_ascii_of_string "get_video_info?")]).
Proof.
  intros Hhost Hpre Hne Hv Hstop Hpost Hocc. unfold rule2, rmatch.
  apply youtube_host_slash; [exact Hhost|].
  change (m (Group 1 (Str "get_video_info" ;; Lit "?") ;; ?r) ?st Some)
    with (m (Group 1 (Str "get_video_info" ;; Lit "?")) st
            (fun st1 => m r st1 Some)).
  rewrite m_group_str_lit.
  change (m (Star true Dot ;; ?r) ?st Some)
    with (star_loop (m (Chr (fun c => negb (is_line_terminator c)))) true
            (fun st1 => m r st1 Some) (length (after st)) st).
  apply star_chr_last.
  - exact Hpre.
  - cbv beta. rewrite video_id_here by assumption. reflexivity.
  - intros w1 w2 Hs Hne'. apply (video_id_later _ v post); assumption.
  - apply Nat.le_refl.
Qed.

(** What rule 2 writes, with the text before the host name. *)
Lemma rule2_apply (x host pre v post : string) :
  In host youtube_hosts ->
  string_forall (noneof "/") x = true ->
  whole_host x host = true ->
  string_forall flat_char pre = true ->
  v <> ""%string -> string_forall (noneof "&/") v = true ->
  string_forall flat_char post = true -> empty_or_starts "&" post ->
  occurs (list_ascii_of_string "video_id=") (list_ascii_of_string (v ++ post))
  = false ->
  apply_rule rule2
    (x ++ host ++ video_info_source ++ pre ++ "video_id=" ++ v ++ post)
  = (x ++ video_info_canon ++ v)%string.
Proof.
  intros Hhost Hx Hw Hpre Hne Hv Hpost Hstart Hocc.
  assert (Hv' : forallb (noneof "&") (list_ascii_of_string v) = true).
  { revert Hv. apply forallb_weaken. intros c. unfold noneof, oneof. simpl.
    rewrite !negb_true_iff, !orb_false_iff. tauto. }
  rewrite list_of_append in Hocc.
  pose proof (rule2_after_prefix host (rev (list_ascii_of_string x))
                (list_ascii_of_string pre) (list_ascii_of_string v)
                (list_ascii_of_string post) Hhost (flat_dot _ Hpre)
                (string_neq_nil v Hne) Hv'
                (empty_or_starts_stops "&" (noneof "&") post eq_refl Hstart)
                (flat_dot _ Hpost) Hocc) as Hm.
  unfold apply_rule, replace, replace_chars.
  replace (list_ascii_of_string
             (x ++ host ++ video_info_source ++ pre ++ "video_id=" ++ v
                ++ post))
    with (list_ascii_of_string x
            ++ list_ascii_of_string (host ++ "/")
            ++ list_ascii_of_string "get_video_info" ++ "?"%char
            :: list_ascii_of_string pre ++ list_ascii_of_string "video_id="
            ++ list_ascii_of_string v ++ list_ascii_of_string post).
  2:{ rewrite !list_of_append. rewrite <- !app_assoc. reflexivity. }
  assert (Hfail : forall x1 x2 b,
             list_ascii_of_string x = x1 ++ x2 -> x2 <> [] ->
             m (rmatch rule2)
               (MState b
                  (x2 ++ list_ascii_of_string (host ++ "/")
                     ++ list_ascii_of_string "get_video_info" ++ "?"%char
                     :: list_ascii_of_string pre
                     ++ list_ascii_of_string "video_id="
                     ++ list_ascii_of_string v ++ list_ascii_of_string post)
                  []) Some = None).
  { intros x1 x2 b Hs Hne2. rewrite list_of_append, <- app_assoc.
    apply (youtube_head_not_before "" _ x host _ x1 x2 b Hhost Hx Hw Hs
             Hne2). }
  rewrite (exec_after_prefix _ _ _ _ Hfail Hm).
  change (ngroups (rmatch rule2)) with 2.
  change (rreplace rule2) with (rreplace rule1).
  rewrite get_substitution_videoplayback. unfold cap_or_empty. simpl.
  rewrite rev_involutive, app_nil_r.
  rewrite string_of_app, string_of_list_ascii_of_string.
  f_equal. rewrite <- (string_of_list_ascii_of_string v) at 2.
  reflexivity.
Qed.

(** X18: a get_video_info address under one of the youtube host names
    is reduced to the canonical get_video_info form with the value of
    its last [video_id] parameter; every other parameter is dropped, and
    the text before the host name stays in front. The text before the
    host name has no [/] and the host name is whole; the parameters
    have no [/] and no line terminator, the value is not empty and has
    no [&], what follows it is empty or starts with [&], and there is
    no [video_id=] after it. *)
Theorem reduce_get_video_info (x host pre v post : string) :
  In host youtube_hosts ->
  string_forall (noneof "/") x = true ->
  whole_host x host = true ->
  string_forall flat_char pre = true ->
  v <> ""%string -> string_forall (noneof "&/") v = true ->
  string_forall flat_char post = true -> empty_or_starts "&" post ->
  occurs (list_ascii_of_string "video_id=") (list_ascii_of_string (v ++ post))
  = false ->
  reduce (x ++ host ++ video_info_source ++ pre ++ "video_id=" ++ v ++ post)
  = (x ++ video_info_canon ++ v)%string.
Proof.
  intros Hhost Hx Hw Hpre Hne Hv Hpost Hstart Hocc.
  pose proof (rule2_apply x host pre v post Hhost Hx Hw Hpre Hne Hv Hpost
                Hstart Hocc) as H2.
  unfold reduce.
  change fuzzy_rules
    with ([rule1] ++ rule2
            :: [rule3; rule4; rule5; rule6; rule7; rule8]).
  rewrite reduce_with_first_change; [exact H2| |].
  - intros r [<-|[]]. apply apply_rule_no_match.
    replace (list_ascii_of_string
               (x ++ host ++ video_info_source ++ pre ++ "video_id=" ++ v
                  ++ post))
      with ((list_ascii_of_string x ++ list_ascii_of_string host)
              ++ "/"%char
              :: list_ascii_of_string "get_video_info?"
              ++ list_ascii_of_string pre
              ++ list_ascii_of_string "video_id="
              ++ list_ascii_of_string v ++ list_ascii_of_string post).
    2:{ rewrite !list_of_append. rewrite <- !app_assoc. reflexivity. }
    apply exec_no_match. intros w1 w2 st' Hs Hm.
    apply rule1_text in Hm. destruct Hm as (a0 & a & Ha). simpl after in Ha.
    rewrite Ha in Hs. rewrite (app_assoc w1 a0) in Hs.
    apply unique_sep in Hs.
    + destruct Hs as [_ Hs]. discriminate Hs.
    + apply not_in_app.
      * apply (noneof_not_in "/"); [exact Hx | reflexivity].
      * apply mem_not_in. simpl in Hhost.
        destruct Hhost as [<-|[<-|[<-|[<-|[]]]]]; reflexivity.
    + apply not_in_app; [apply mem_not_in; reflexivity|].
      apply not_in_app; [apply flat_not_slash; exact Hpre|].
      apply not_in_app; [apply mem_not_in; reflexivity|].
      apply not_in_app; [|apply flat_not_slash; exact Hpost].
      apply (noneof_not_in "&/"); [exact Hv | reflexivity].
  - rewrite H2. intros H. apply (f_equal list_ascii_of_string) in H.
    rewrite !list_of_append in H. apply app_inv_head in H.
    change (list_ascii_of_string video_info_canon)
      with (list_ascii_of_string "youtube.fuzzy.replayweb.page"
              ++ "/"%char
              :: list_ascii_of_string "get_video_info?video_id=") in H.
    change (list_ascii_of_string video_info_source)
      with ("/"%char :: list_ascii_of_string "get_video_info?") in H.
    rewrite <- !app_assoc in H. rewrite <- !app_comm_cons in H.
    apply first_separator in H.
    + simpl in Hhost.
      destruct Hhost as [<-|[<-|[<-|[<-|[]]]]]; discriminate H.
    + apply mem_not_in. reflexivity.
    + apply mem_not_in. simpl in Hhost.
      destruct Hhost as [<-|[<-|[<-|[<-|[]]]]]; reflexivity.
Qed.

Lemma reduce_get_video_info_witness :
  reduce ("gaming." ++ "youtube.com" ++ video_info_source
            ++ "html5=1&video_id=old&el=embedded&" ++ "video_id="
            ++ "dQw4w9WgXcQ" ++ "&eurl=x&c=WEB")
  = "gaming.youtube.fuzzy.replayweb.page/get_video_info?video_id=dQw4w9WgXcQ"%string.
Proof.
  apply (reduce_get_video_info "gaming." "youtube.com"
           "html5=1&video_id=old&el=embedded&" "dQw4w9WgXcQ"
           "&eurl=x&c=WEB");
    try reflexivity.
  - simpl. tauto.
  - discriminate.
  - right. exists "eurl=x&c=WEB". reflexivity.
Defined.

(** ** Rule 4: the youtubei addresses *)

Lemma video_key_here b v post cs :
  v <> [] -> forallb (noneof "&") v = true -> stops (noneof "&") post ->
  forallb (fun x => negb (is_line_terminator x)) post = true ->
  m (Group 2 (Str "videoId" ;; Plus true (Chr (noneof "&"))) ;;
     Star true Dot)
    (MState b (list_ascii_of_string "videoId" ++ v ++ post) cs) Some
  = Some (MState (rev post ++ rev v
                    ++ rev (list_ascii_of_string "videoId") ++ b) []
                 ((2, list_ascii_of_string "videoId" ++ v) :: cs)).
Proof.
  intros Hne Hv Hstop Hpost.
  change (m (Group 2 (Str "videoId" ;; Plus true (Chr (noneof "&"))) ;;
             Star true Dot)
            (MState b (list_ascii_of_string "videoId" ++ v ++ post) cs)
            Some)
    with (m (Group 2 (Str "videoId" ;; Plus true (Chr (noneof "&"))))
            (MState b (list_ascii_of_string "videoId" ++ v ++ post) cs)
            (fun st1 => m (Star true Dot) st1 Some)).
  apply m_group_str_plus; try assumption.
  rewrite trailing_star by exact Hpost. reflexivity.
Qed.

Lemma video_key_later b v post cs w1 w2 :
  occurs (list_ascii_of_string "videoId") (v ++ post) = false ->
  list_ascii_of_string "videoId" ++ v ++ post = w1 ++ w2 -> w1 <> [] ->
  m (Group 2 (Str "videoId" ;; Plus true (Chr (noneof "&"))) ;;
     Star true Dot)
    (MState (rev w1 ++ b) w2 cs) Some
  = None.
Proof.
  intros Hocc Hs Hne.
  assert (Hw2 : starts_with (list_ascii_of_string "videoId") w2 = false).
  { generalize dependent (v ++ post). intros rest Hocc Hs.
    destruct w1 as [|c1 w1]; [congruence|]. clear Hne.
    cbn [list_ascii_of_string app] in Hs. injection Hs as <- Hs.
    do 6 (destruct w1 as [|? w1];
          [cbn [app] in Hs; subst w2; reflexivity
          |cbn [app] in Hs; injection Hs as <- Hs]).
    rewrite Hs in Hocc. apply occurs_suffix in Hocc.
    apply occurs_here. exact Hocc. }
  change (m (Group 2 (Str "videoId" ;; Plus true (Chr (noneof "&"))) ;;
             Star true Dot)
            (MState (rev w1 ++ b) w2 cs) Some)
    with (m (Str "videoId") (MState (rev w1 ++ b) w2 cs)
            (fun st0 =>
               m (Plus true (Chr (noneof "&"))) st0
                 (fun st1 =>
                    m (Star true Dot)
                      (set_cap 2
                         (consumed (MState (rev w1 ++ b) w2 cs) st1) st1)
                      Some))).
  apply m_Str_fail. exact Hw2.
Qed.

Lemma rule4_after_prefix (host : string) b p pre v post :
  In host youtube_hosts ->
  p <> [] -> forallb (noneof "?") p = true ->
  forallb (fun x => negb (is_line_terminator x)) pre = true ->
  v <> [] -> forallb (noneof "&") v = true ->
  stops (noneof "&") post ->
  forallb (fun x => negb (is_line_terminator x)) post = true ->
  occurs (list_ascii_of_string "videoId") (v ++ post) = false ->
  m (rmatch rule4)
    (MState b
       (list_ascii_of_string (host ++ "/")
          ++ list_ascii_of_string "youtubei/" ++ p
          ++ ("?"%char :: pre) ++ list_ascii_of_string "videoId" ++ v
          ++ post) []) Some
  = Some (MState (rev post ++ rev v
                    ++ rev (list_ascii_of_string "videoId")
                    ++ rev ("?"%char :: pre)
                    ++ rev p ++ rev (list_ascii_of_string "youtubei/")
                    ++ rev (list_ascii_of_string (host ++ "/")) ++ b) []
                 [(2, list_ascii_of_string "videoId" ++ v);
                  (1, list_ascii_of_string "youtubei/" ++ p)]).
Proof.
  intros Hhost Hp0 Hp Hpre Hne Hv Hstop Hpost Hocc. unfold rule4, rmatch.
  apply youtube_host_slash; [exact Hhost|].
  change (m (Group 1 (Str "youtubei/" ;; Plus true (Chr (noneof "?"))) ;; ?r)
            ?st Some)
    with (m (Group 1 (Str "youtubei/" ;; Plus true (Chr (noneof "?")))) st
            (fun st1 => m r st1 Some)).
  apply m_group_str_plus; try assumption; [reflexivity|].
  change (m (Star true Dot ;; ?r) ?st Some)
    with (star_loop (m (Chr (fun c => negb (is_line_terminator c)))) true
            (fun st1 => m r st1 Some) (length (after st)) st).
  apply star_chr_last.
  - cbn [forallb]. rewrite Hpre. reflexivity.
  - cbv beta. rewrite video_key_here by assumption. reflexivity.
  - intros w1 w2 Hs Hne'. apply (video_key_later _ v post); assumption.
  - apply Nat.le_refl.
Qed.

Lemma get_substitution_youtubei res :
  get_substitution 2 res (list_ascii_of_string (rreplace rule4))
  = list_ascii_of_string "youtube.fuzzy.replayweb.page/"
      ++ cap_or_empty 1 res ++ "?"%char :: cap_or_empty 2 res.
Proof. reflexivity. Qed.

Lemma no_query_dot l :
  forallb no_query_char l = true ->
  forallb (fun c => negb (is_line_terminator c)) l = true.
Proof.
  apply forallb_weaken. intros c Hc. apply andb_true_iff in Hc. tauto.
Qed.

Lemma no_query_not_in l : forallb no_query_char l = true -> ~ In "?"%char l.
Proof. intros H. apply (forallb_not_in no_query_char); auto. Qed.

Lemma rule4_apply (x host p pre v post : string) :
  In host youtube_hosts ->
  string_forall (noneof "?/") x = true ->
  whole_host x host = true ->
  p <> ""%string -> string_forall (noneof "?") p = true ->
  string_forall no_query_char pre = true ->
  v <> ""%string -> string_forall (noneof "&?") v = true ->
  string_forall no_query_char post = true ->
  empty_or_starts "&" post ->
  occurs (list_ascii_of_string "videoId") (list_ascii_of_string (v ++ post))
  = false ->
  apply_rule rule4
    (x ++ host ++ "/youtubei/" ++ p ++ "?" ++ pre ++ "videoId" ++ v ++ post)
  = (x ++ "youtube.fuzzy.replayweb.page/youtubei/" ++ p ++ "?videoId"
       ++ v)%string.
Proof.
  intros Hhost Hx Hw Hp0 Hp Hpre Hne Hv Hpost Hstart Hocc.
  assert (Hv' : forallb (noneof "&") (list_ascii_of_string v) = true).
  { revert Hv. apply forallb_weaken. intros c. unfold noneof, oneof. simpl.
    rewrite !negb_true_iff, !orb_false_iff. tauto. }
  rewrite list_of_append in Hocc.
  pose proof (rule4_after_prefix host (rev (list_ascii_of_string x))
                (list_ascii_of_string p) (list_ascii_of_string pre)
                (list_ascii_of_string v) (list_ascii_of_string post)
                Hhost (string_neq_nil p Hp0) Hp (no_query_dot _ Hpre)
                (string_neq_nil v Hne) Hv'
                (empty_or_starts_stops "&" (noneof "&") post eq_refl Hstart)
                (no_query_dot _ Hpost) Hocc) as Hm.
  assert (Hfail : forall x1 x2 b,
             list_ascii_of_string x = x1 ++ x2 -> x2 <> [] ->
             m (rmatch rule4)
               (MState b
                  (x2 ++ list_ascii_of_string (host ++ "/")
                     ++ list_ascii_of_string "youtubei/"
                     ++ list_ascii_of_string p
                     ++ ("?"%char :: list_ascii_of_string pre)
                     ++ list_ascii_of_string "videoId"
                     ++ list_ascii_of_string v ++ list_ascii_of_string post)
                  []) Some = None).
  { intros x1 x2 b Hs Hne2. rewrite list_of_append, <- app_assoc.
    apply (youtube_head_not_before "" _ x host _ x1 x2 b Hhost
             (without_slash x Hx) Hw Hs Hne2). }
  unfold apply_rule, replace, replace_chars.
  replace (list_ascii_of_string
             (x ++ host ++ "/youtubei/" ++ p ++ "?" ++ pre ++ "videoId" ++ v
                ++ post))
    with (list_ascii_of_string x
            ++ list_ascii_of_string (host ++ "/")
            ++ list_ascii_of_string "youtubei/" ++ list_ascii_of_string p
            ++ ("?"%char :: list_ascii_of_string pre)
            ++ list_ascii_of_string "videoId"
            ++ list_ascii_of_string v ++ list_ascii_of_string post).
  2:{ rewrite !list_of_append. rewrite <- !app_assoc. reflexivity. }
  rewrite (exec_after_prefix _ _ _ _ Hfail Hm).
  change (ngroups (rmatch rule4)) with 2.
  rewrite get_substitution_youtubei. unfold cap_or_empty. simpl.
  rewrite rev_involutive, app_nil_r.
  rewrite string_of_app, string_of_list_ascii_of_string.
  f_equal. simpl. repeat f_equal.
  rewrite string_of_app, string_of_list_ascii_of_string. f_equal.
  simpl. repeat f_equal. apply string_of_list_ascii_of_string.
Qed.

(** X19: a youtubei address under one of the youtube host names is
    reduced to the canonical youtubei form: the path up to the [?] is
    kept, of the query only the last [videoId] parameter stays, and the
    text before the host name stays in front. The text before the host
    name has no [?] and no [/] and the host name is whole; the path is
    not empty, has no [?] and does not end in [videoplayback] or
    [get_video_info]; the parameters have no [?] and no line
    terminator, the text after [videoId] is not empty and has no [&]
    and no [?], what follows it is empty or starts with [&], and there
    is no [videoId] after it. *)
Theorem reduce_youtubei (x host p pre v post : string) :
  In host youtube_hosts ->
  string_forall (noneof "?/") x = true ->
  whole_host x host = true ->
  p <> ""%string -> string_forall (noneof "?") p = true ->
  ends_with "videoplayback" p = false ->
  ends_with "get_video_info" p = false ->
  string_forall no_query_char pre = true ->
  v <> ""%string -> string_forall (noneof "&?") v = true ->
  string_forall no_query_char post = true ->
  empty_or_starts "&" post ->
  occurs (list_ascii_of_string "videoId") (list_ascii_of_string (v ++ post))
  = false ->
  reduce
    (x ++ host ++ "/youtubei/" ++ p ++ "?" ++ pre ++ "videoId" ++ v ++ post)
  = (x ++ "youtube.fuzzy.replayweb.page/youtubei/" ++ p ++ "?videoId"
       ++ v)%string.
Proof.
  intros Hhost Hx Hw Hp0 Hp Hp1 Hp2 Hpre Hne Hv Hpost Hstart Hocc.
  pose proof (rule4_apply x host p pre v post Hhost Hx Hw Hp0 Hp Hpre Hne Hv
                Hpost Hstart Hocc) as H4.
  assert (Hlist :
            list_ascii_of_string
              (x ++ host ++ "/youtubei/" ++ p ++ "?" ++ pre ++ "videoId"
                 ++ v ++ post)
            = ((list_ascii_of_string x ++ list_ascii_of_string host
                  ++ list_ascii_of_string "/youtubei")
                 ++ "/"%char :: list_ascii_of_string p)
                ++ "?"%char
                :: (list_ascii_of_string pre
                      ++ list_ascii_of_string "videoId"
                      ++ list_ascii_of_string v
                      ++ list_ascii_of_string post)).
  { rewrite !list_of_append. rewrite <- !app_assoc. reflexivity. }
  assert (Htail : ~ In "?"%char
                    (list_ascii_of_string pre
                       ++ list_ascii_of_string "videoId"
                       ++ list_ascii_of_string v
                       ++ list_ascii_of_string post)).
  { apply not_in_app; [apply no_query_not_in; exact Hpre|].
    apply not_in_app; [apply mem_not_in; reflexivity|].
    apply not_in_app; [|apply no_query_not_in; exact Hpost].
    apply (noneof_not_in "&?"); [exact Hv | reflexivity]. }
  assert (Hhead : ~ In "?"%char
                    ((list_ascii_of_string x ++ list_ascii_of_string host
                        ++ list_ascii_of_string "/youtubei")
                       ++ "/"%char :: list_ascii_of_string p)).
  { apply not_in_app.
    - apply not_in_app;
        [apply (noneof_not_in "?/"); [exact Hx | reflexivity]|].
      apply not_in_app; [|apply mem_not_in; reflexivity].
      apply mem_not_in. simpl in Hhost.
      destruct Hhost as [<-|[<-|[<-|[<-|[]]]]]; reflexivity.
    - apply not_in_cons; [discriminate|].
      apply (noneof_not_in "?"); [exact Hp | reflexivity]. }
  (* the path would have to end in the name that the rule reads *)
  assert (Hname : forall (name : string) w1 a0 a,
             ~ In "/"%char (list_ascii_of_string name) ->
             ends_with name p = false ->
             ((list_ascii_of_string x ++ list_ascii_of_string host
                 ++ list_ascii_of_string "/youtubei")
                ++ "/"%char :: list_ascii_of_string p)
               ++ "?"%char
               :: (list_ascii_of_string pre
                     ++ list_ascii_of_string "videoId"
                     ++ list_ascii_of_string v
                     ++ list_ascii_of_string post)
             = w1 ++ a0 ++ list_ascii_of_string name ++ "?"%char :: a ->
             False).
  { intros name w1 a0 a Hn He Hs.
    replace (w1 ++ a0 ++ list_ascii_of_string name ++ "?"%char :: a)
      with (((w1 ++ a0) ++ list_ascii_of_string name) ++ "?"%char :: a) in Hs
      by (rewrite <- !app_assoc; reflexivity).
    apply unique_sep in Hs; [|exact Hhead|exact Htail].
    destruct Hs as [Hs _]. apply ends_after_sep in Hs; [|exact Hn].
    destruct Hs as (l & Hl).
    rewrite (ends_with_app name p l Hl) in He. discriminate. }
  unfold reduce.
  change fuzzy_rules
    with ([rule1; rule2; rule3] ++ rule4
            :: [rule5; rule6; rule7; rule8]).
  rewrite reduce_with_first_change; [exact H4| |].
  - intros r Hr. apply apply_rule_no_match. rewrite Hlist.
    simpl in Hr. destruct Hr as [<-|[<-|[<-|[]]]].
    + apply exec_no_match. intros w1 w2 st' Hs Hm.
      apply rule1_text in Hm. destruct Hm as (a0 & a & Ha).
      simpl after in Ha. rewrite Ha in Hs.
      apply (Hname "videoplayback" w1 (a0 ++ ["/"%char]) a);
        [apply mem_not_in; reflexivity | exact Hp1 |].
      rewrite Hs. rewrite <- !app_assoc. reflexivity.
    + apply exec_no_match. intros w1 w2 st' Hs Hm.
      apply rule2_text in Hm. destruct Hm as (a0 & a & Ha).
      simpl after in Ha. rewrite Ha in Hs.
      apply (Hname "get_video_info" w1 a0 a);
        [apply mem_not_in; reflexivity | exact Hp2 | exact Hs].
    + apply rule3_no_match_plain; [exact Htail|]. right.
      rewrite forallb_app. simpl. apply andb_false_r.
  - rewrite H4. intros H. apply (f_equal list_ascii_of_string) in H.
    rewrite !list_of_append in H. apply app_inv_head in H.
    change (list_ascii_of_string "youtube.fuzzy.replayweb.page/youtubei/")
      with (list_ascii_of_string "youtube.fuzzy.replayweb.page"
              ++ "/"%char :: list_ascii_of_string "youtubei/") in H.
    change (list_ascii_of_string "/youtubei/")
      with ("/"%char :: list_ascii_of_string "youtubei/") in H.
    rewrite <- !app_assoc in H. rewrite <- !app_comm_cons in H.
    apply first_separator in H.
    + simpl in Hhost.
      destruct Hhost as [<-|[<-|[<-|[<-|[]]]]]; discriminate H.
    + apply mem_not_in. reflexivity.
    + apply mem_not_in. simpl in Hhost.
      destruct Hhost as [<-|[<-|[<-|[<-|[]]]]]; reflexivity.
Qed.

Lemma reduce_youtubei_witness :
  reduce ("" ++ "www.youtube.com" ++ "/youtubei/" ++ "v1/log_event" ++ "?"
            ++ "key=AIza&" ++ "videoId" ++ "=dQw4w9WgXcQ" ++ "&cpn=xyz")
  = "youtube.fuzzy.replayweb.page/youtubei/v1/log_event?videoId=dQw4w9WgXcQ"%string.
Proof.
  apply (reduce_youtubei "" "www.youtube.com" "v1/log_event" "key=AIza&"
           "=dQw4w9WgXcQ" "&cpn=xyz");
    try reflexivity.
  - simpl. tauto.
  - discriminate.
  - discriminate.
  - right. exists "cpn=xyz". reflexivity.
Defined.

(** ** Rule 7: the vimeo files *)

(** A lazy repetition stops at the first position where what follows
    matches. *)
Lemma star_chr_lazy p k res : forall h b t cs fuel,
  forallb p h = true ->
  k (MState (rev h ++ b) t cs) = Some res ->
  (forall h1 h2, h = h1 ++ h2 -> h2 <> [] ->
     k (MState (rev h1 ++ b) (h2 ++ t) cs) = None) ->
  length (h ++ t) <= fuel ->
  star_loop (m (Chr p)) false k fuel (MState b (h ++ t) cs) = Some res.
Proof.
  induction h as [|c h IH]; intros b t cs fuel Hh Hk Hfail Hf.
  - simpl app in *. destruct fuel as [|fuel]; simpl; [exact Hk|].
    rewrite Hk. reflexivity.
  - simpl in Hh. apply andb_true_iff in Hh. destruct Hh as [Hc Hh].
    simpl in Hf. destruct fuel as [|fuel]; [lia|].
    assert (Hk0 : k (MState b ((c :: h) ++ t) cs) = None).
    { apply (Hfail [] (c :: h) eq_refl). discriminate. }
    assert (IH' : star_loop (m (Chr p)) false k fuel
                    (MState (c :: b) (h ++ t) cs) = Some res).
    { apply IH; try assumption.
      - simpl in Hk. rewrite <- app_assoc in Hk. exact Hk.
      - intros h1 h2 Hs Hne. specialize (Hfail (c :: h1) h2).
        simpl in Hfail. rewrite <- app_assoc in Hfail. apply Hfail.
        + rewrite Hs. reflexivity.
        + exact Hne.
      - lia. }
    simpl in IH'. simpl in Hk0. simpl. rewrite Hk0, Hc.
    unfold progress. simpl.
    destruct (Nat.ltb_spec (length (h ++ t)) (S (length (h ++ t)))); [|lia].
    rewrite IH'. reflexivity.
Qed.

Lemma cdn_group_here b w cs :
  w <> [] -> forallb (fun c => is_digit c || Ascii.eqb c "/") w = true ->
  m (Lit "/" ;;
     Group 1 (Plus true (Chr (fun c => is_digit c || Ascii.eqb c "/")) ;;
              Dot ;; Str "mp4") ;;
     Eol)
    (MState b ("/"%char :: w ++ list_ascii_of_string ".mp4") cs) Some
  = Some (MState (rev (list_ascii_of_string ".mp4") ++ rev w
                    ++ "/"%char :: b) []
                 ((1, w ++ list_ascii_of_string ".mp4") :: cs)).
Proof.
  intros Hne Hw.
  change (m (Lit "/" ;;
             Group 1 (Plus true (Chr (fun c => is_digit c || Ascii.eqb c "/"))
                      ;; Dot ;; Str "mp4") ;;
             Eol)
            (MState b ("/"%char :: w ++ list_ascii_of_string ".mp4") cs) Some)
    with (m (Plus true (Chr (fun c => is_digit c || Ascii.eqb c "/")))
            (MState ("/"%char :: b) (w ++ list_ascii_of_string ".mp4") cs)
            (fun st1 =>
               m (Dot ;; Str "mp4") st1
                 (fun st2 =>
                    m Eol
                      (set_cap 1
                         (consumed
                            (MState ("/"%char :: b)
                               (w ++ list_ascii_of_string ".mp4") cs) st2)
                         st2) Some))).
  apply plus_chr_greedy; try assumption; [reflexivity|].
  simpl. unfold set_cap. simpl.
  rewrite <- (app_nil_r (w ++ _)) at 1.
  rewrite consumed_app. reflexivity.
Qed.

Lemma cdn_tail_inv b a cs st' :
  Matches
    (Lit "/" ;;
     Group 1 (Plus true (Chr (fun c => is_digit c || Ascii.eqb c "/")) ;;
              Dot ;; Str "mp4") ;;
     Eol)
    (MState b a cs) st' ->
  exists u d,
    a = "/"%char :: u ++ d :: list_ascii_of_string "mp4"
    /\ forallb (fun c => is_digit c || Ascii.eqb c "/") u = true.
Proof.
  intros H. unfold Dot in H. cbn [Str] in H. inv_matches. simpl in *.
  subst. eexists _, _. split; [reflexivity|]. assumption.
Qed.

Lemma tail4_inj (x y : chars) (a b c d a' b' c' d' : ascii) :
  x ++ [a; b; c; d] = y ++ [a'; b'; c'; d'] -> x = y.
Proof.
  intros H. apply (f_equal (@rev ascii)) in H.
  rewrite !rev_app_distr in H. simpl in H.
  injection H as _ _ _ _ H.
  apply (f_equal (@rev ascii)) in H. rewrite !rev_involutive in H. exact H.
Qed.

(** Before the last segment of the text between host and number the
    group does not match: the rest is not made of digits and [/]. *)
Lemma cdn_group_earlier b mid2 (z : ascii) w cs :
  is_digit z || Ascii.eqb z "/" = false ->
  m (Lit "/" ;;
     Group 1 (Plus true (Chr (fun c => is_digit c || Ascii.eqb c "/")) ;;
              Dot ;; Str "mp4") ;;
     Eol)
    (MState b ((mid2 ++ [z]) ++ "/"%char :: w ++ list_ascii_of_string ".mp4")
       cs) Some
  = None.
Proof.
  intros Hz.
  destruct (m _ _ Some) as [res|] eqn:H; [|reflexivity].
  exfalso. apply m_sound in H. destruct H as (st' & Hm & _).
  apply cdn_tail_inv in Hm. destruct Hm as (u & d & Heq & Hu).
  assert (Hx : (mid2 ++ [z]) ++ "/"%char :: w = "/"%char :: u).
  { apply (tail4_inj _ _ "." "m" "p" "4" d "m" "p" "4").
    rewrite <- app_assoc. simpl. simpl in Heq. rewrite <- Heq.
    rewrite <- !app_assoc. reflexivity. }
  assert (Hin : In z ("/"%char :: u)).
  { rewrite <- Hx. apply in_or_app. left. apply in_or_app. right.
    left. reflexivity. }
  destruct Hin as [<- | Hin]; [discriminate Hz|].
  rewrite forallb_forall in Hu. rewrite (Hu z Hin) in Hz. discriminate.
Qed.

Lemma cdn_lazy b mid w cs :
  forallb (fun c => negb (is_line_terminator c)) mid = true ->
  (mid = []
   \/ exists mid' z, mid = mid' ++ [z]
                     /\ is_digit z || Ascii.eqb z "/" = false) ->
  w <> [] -> forallb (fun c => is_digit c || Ascii.eqb c "/") w = true ->
  m (Star false Dot ;; Lit "/" ;;
     Group 1 (Plus true (Chr (fun c => is_digit c || Ascii.eqb c "/")) ;;
              Dot ;; Str "mp4") ;;
     Eol)
    (MState b (mid ++ "/"%char :: w ++ list_ascii_of_string ".mp4") cs) Some
  = Some (MState (rev (list_ascii_of_string ".mp4") ++ rev w
                    ++ "/"%char :: rev mid ++ b) []
                 ((1, w ++ list_ascii_of_string ".mp4") :: cs)).
Proof.
  intros Hmid Hend Hne Hw.
  change (m (Star false Dot ;; ?r) ?st Some)
    with (star_loop (m (Chr (fun c => negb (is_line_terminator c)))) false
            (fun st1 => m r st1 Some) (length (after st)) st).
  apply star_chr_lazy.
  - exact Hmid.
  - cbv beta. apply cdn_group_here; assumption.
  - intros h1 h2 Hs Hne2. cbv beta.
    destruct Hend as [-> | (mid' & z & -> & Hz)].
    + symmetry in Hs. apply app_eq_nil in Hs. destruct Hs as [_ ->].
      congruence.
    + destruct (exists_last Hne2) as (h2' & z' & ->).
      rewrite app_assoc in Hs. apply app_inj_tail in Hs.
      destruct Hs as [_ <-]. apply cdn_group_earlier. exact Hz.
  - apply Nat.le_refl.
Qed.

Lemma cdn_host_here (r : regex) (host : string) b a cs k res :
  In host cdn_hosts ->
  m r (MState (rev (list_ascii_of_string (host ++ ".akamaized.net")) ++ b)
         a cs) k
  = Some res ->
  m (Alt (Str "gcs-vimeo") (Alt (Str "vod") (Str "vod-progressive")) ;;
     Str ".akamaized.net" ;; r)
    (MState b (list_ascii_of_string (host ++ ".akamaized.net") ++ a) cs) k
  = Some res.
Proof.
  intros Hhost Hk. simpl in Hhost.
  destruct Hhost as [<-|[<-|[<-|[]]]];
    match type of Hk with
    | ?X = _ =>
        first [ change (X = Some res)
              | change (orelse X None = Some res)
              | change (orelse (orelse X None) None = Some res) ]
    end;
    rewrite Hk; reflexivity.
Qed.

Lemma Matches_cdn_host st st' :
  Matches (Alt (Str "gcs-vimeo") (Alt (Str "vod") (Str "vod-progressive")))
    st st' ->
  (exists X, after st = X ++ after st') /\ caps st' = caps st.
Proof.
  intros H. split; [exact (Matches_after _ _ _ H)|].
  inversion H as [| | |? ? ? ? HL|? ? ? ? HR| | | | | |]; subst.
  - apply (Matches_Str_inv "gcs-vimeo") in HL. tauto.
  - inversion HR as [| | |? ? ? ? HL'|? ? ? ? HR'| | | | | |]; subst.
    + apply (Matches_Str_inv "vod") in HL'. tauto.
    + apply (Matches_Str_inv "vod-progressive") in HR'. tauto.
Qed.

(** Wherever the host name is read, the lazy [.*?] stops at the [/]
    before the trailing run of digits and [/]: what comes before that
    [/] does not end in a digit or a [/]. *)
Lemma cdn_body_result PRE (z : ascii) w w1 w2 b res :
  forallb (fun c => negb (is_line_terminator c)) (PRE ++ [z]) = true ->
  is_digit z || Ascii.eqb z "/" = false ->
  w <> [] -> forallb (fun c => is_digit c || Ascii.eqb c "/") w = true ->
  (PRE ++ [z]) ++ "/"%char :: w ++ list_ascii_of_string ".mp4" = w1 ++ w2 ->
  m (Alt (Str "gcs-vimeo") (Alt (Str "vod") (Str "vod-progressive")) ;;
     Str ".akamaized.net" ;; Star false Dot ;; Lit "/" ;;
     Group 1 (Plus true (Chr (fun c => is_digit c || Ascii.eqb c "/")) ;;
              Dot ;; Str "mp4") ;;
     Eol)
    (MState b w2 []) Some
  = Some res ->
  after res = [] /\ caps res = [(1, w ++ list_ascii_of_string ".mp4")].
Proof.
  intros Hdot Hz Hne Hw Hs Hm.
  change (m (?r1 ;; ?r2 ;; ?r3) ?st Some)
    with (m r1 st (fun st1 => m r2 st1 (fun st2 => m r3 st2 Some))) in Hm.
  apply m_sound in Hm. destruct Hm as (st1 & H1 & Hm).
  apply m_sound in Hm. destruct Hm as (st2 & H2 & Hm).
  apply Matches_cdn_host in H1. destruct H1 as [(X & HX) C1].
  apply (Matches_Str_inv ".akamaized.net") in H2. destruct H2 as [H2 C2].
  destruct st1 as [b1 a1 cs1]. destruct st2 as [b2 T cs2].
  cbn [after caps] in HX, C1, H2, C2. subst cs1 cs2 w2 a1.
  assert (HT : exists t1,
             T = t1 ++ "/"%char :: w ++ list_ascii_of_string ".mp4"
             /\ forallb (fun c => negb (is_line_terminator c)) t1 = true
             /\ (t1 = []
                 \/ exists t1' z', t1 = t1' ++ [z']
                      /\ is_digit z' || Ascii.eqb z' "/" = false)).
  { replace (w1 ++ X ++ list_ascii_of_string ".akamaized.net" ++ T)
      with ((w1 ++ X ++ list_ascii_of_string ".akamaized.ne" ++ ["t"%char])
              ++ T) in Hs
      by (rewrite <- !app_assoc; reflexivity).
    apply app_eq_app in Hs. destruct Hs as (l & [[Ha Hb] | [Ha Hb]]).
    - exists l. split; [exact Hb|]. split.
      + rewrite Ha, forallb_app in Hdot.
        apply andb_true_iff in Hdot. tauto.
      + destruct l as [|a l]; [left; reflexivity|]. right.
        destruct (@exists_last _ (a :: l)) as (l' & z' & Hl);
          [discriminate|].
        rewrite Hl in Ha. rewrite app_assoc in Ha.
        apply app_inj_tail in Ha. destruct Ha as [_ ->].
        exists l', z'. split; [exact Hl | exact Hz].
    - destruct l as [|a l].
      + exists []. rewrite app_nil_l in Hb. split; [symmetry; exact Hb|].
        split; [reflexivity | left; reflexivity].
      + exfalso.
        destruct (@exists_last _ (a :: l)) as (l' & c & Hl);
          [discriminate|].
        rewrite Hl in Ha, Hb. rewrite !app_assoc in Ha.
        apply app_inj_tail in Ha. destruct Ha as [_ <-].
        assert (Hin : In "t"%char
                        ("/"%char :: w ++ list_ascii_of_string ".mp4")).
        { rewrite Hb. apply in_or_app. left. apply in_or_app. right.
          left. reflexivity. }
        revert Hin. apply not_in_cons; [discriminate|].
        apply not_in_app; [|apply mem_not_in; reflexivity].
        apply (forallb_not_in (fun c => is_digit c || Ascii.eqb c "/"));
          [exact Hw | reflexivity]. }
  destruct HT as (t1 & -> & Ht1 & Hend).
  rewrite (cdn_lazy b2 t1 w [] Ht1 Hend Hne Hw) in Hm.
  injection Hm as <-. split; reflexivity.
Qed.

Lemma rule7_at_start h (host : string) mid w :
  In host cdn_hosts ->
  forallb (fun c => negb (is_line_terminator c)) h = true ->
  forallb (fun c => negb (is_line_terminator c)) mid = true ->
  (mid = []
   \/ exists mid' z, mid = mid' ++ [z]
                     /\ is_digit z || Ascii.eqb z "/" = false) ->
  w <> [] -> forallb (fun c => is_digit c || Ascii.eqb c "/") w = true ->
  exists res,
    m (rmatch rule7)
      (MState []
         (h ++ list_ascii_of_string (host ++ ".akamaized.net")
            ++ mid ++ "/"%char :: w ++ list_ascii_of_string ".mp4") []) Some
    = Some res
    /\ after res = []
    /\ caps res = [(1, w ++ list_ascii_of_string ".mp4")].
Proof.
  intros Hhost Hh Hmid Hend Hne Hw. unfold rule7, rmatch.
  change (m (Star true Dot ;; ?r) ?st Some)
    with (m (Star true Dot) st (fun st1 => m r st1 Some)).
  match goal with
  | |- exists res, ?X = Some res /\ _ => destruct X as [res|] eqn:Hm
  end.
  - exists res. split; [reflexivity|].
    apply m_sound in Hm. destruct Hm as (st1 & H1 & Hm).
    apply Matches_star_chr_inv in H1.
    destruct H1 as (w1 & _ & Ha & _ & Hc).
    destruct st1 as [b1 w2 cs1]. cbn [after caps] in Ha, Hc. subst cs1.
    assert (Hhd : forallb (fun c => negb (is_line_terminator c))
                    (list_ascii_of_string (host ++ ".akamaized.net"))
                  = true).
    { simpl in Hhost. destruct Hhost as [<-|[<-|[<-|[]]]]; reflexivity. }
    destruct Hend as [-> | (mid' & z & -> & Hz)].
    + apply (cdn_body_result
               (h ++ list_ascii_of_string (host ++ ".akamaized.ne"))
               "t"%char w w1 w2 b1 res); try assumption.
      * rewrite list_of_append in Hhd. rewrite !forallb_app.
        rewrite list_of_append, forallb_app, Hh.
        rewrite forallb_app in Hhd. apply andb_true_iff in Hhd.
        destruct Hhd as [-> _]. reflexivity.
      * reflexivity.
      * rewrite <- Ha. rewrite !list_of_append. rewrite <- !app_assoc.
        reflexivity.
    + apply (cdn_body_result
               (h ++ list_ascii_of_string (host ++ ".akamaized.net") ++ mid')
               z w w1 w2 b1 res); try assumption.
      * rewrite <- !app_assoc. rewrite !forallb_app in *.
        rewrite Hh, Hhd. exact Hmid.
      * rewrite <- Ha. rewrite <- !app_assoc. reflexivity.
  - exfalso. revert Hm.
    apply (m_complete _ _ _
             (Matches_star_chr_intro true _ h []
                (list_ascii_of_string (host ++ ".akamaized.net")
                   ++ mid ++ "/"%char :: w ++ list_ascii_of_string ".mp4")
                [] Hh)).
    rewrite (cdn_host_here _ host _ _ _ _ _ Hhost
               (cdn_lazy _ mid w [] Hmid Hend Hne Hw)).
    discriminate.
Qed.

Lemma get_substitution_cdn res :
  get_substitution 1 res (list_ascii_of_string (rreplace rule7))
  = list_ascii_of_string cdn_canon ++ cap_or_empty 1 res.
Proof. reflexivity. Qed.

Lemma ends_outside_number_chars s :
  ends_outside_number s ->
  list_ascii_of_string s = []
  \/ exists mid' z, list_ascii_of_string s = mid' ++ [z]
                    /\ is_digit z || Ascii.eqb z "/" = false.
Proof.
  intros [-> | (s' & z & -> & Hz)]; [left; reflexivity|].
  right. exists (list_ascii_of_string s'), z. split; [|exact Hz].
  apply list_of_append.
Qed.

(** What rule 7 writes for a vimeo file. *)
Lemma rule7_apply (h host mid w : string) :
  In host cdn_hosts ->
  string_forall no_query_char h = true ->
  string_forall no_query_char mid = true -> ends_outside_number mid ->
  w <> ""%string -> string_forall digit_or_slash w = true ->
  apply_rule rule7 (h ++ host ++ ".akamaized.net" ++ mid ++ "/" ++ w ++ ".mp4")
  = (cdn_canon ++ w ++ ".mp4")%string.
Proof.
  intros Hhost Hh Hmid Hend Hne Hw.
  destruct (rule7_at_start (list_ascii_of_string h) host
              (list_ascii_of_string mid) (list_ascii_of_string w)
              Hhost (no_query_dot _ Hh) (no_query_dot _ Hmid)
              (ends_outside_number_chars _ Hend)
              (string_neq_nil w Hne) Hw) as (res & Hm & Hafter & Hcaps).
  unfold apply_rule, replace, replace_chars, exec.
  replace (list_ascii_of_string
             (h ++ host ++ ".akamaized.net" ++ mid ++ "/" ++ w ++ ".mp4"))
    with (list_ascii_of_string h
            ++ list_ascii_of_string (host ++ ".akamaized.net")
            ++ list_ascii_of_string mid
            ++ "/"%char :: list_ascii_of_string w
            ++ list_ascii_of_string ".mp4").
  2:{ rewrite !list_of_append. rewrite <- !app_assoc. reflexivity. }
  rewrite (exec_from_here _ _ _ _ Hm).
  change (ngroups (rmatch rule7)) with 1.
  rewrite get_substitution_cdn. unfold cap_or_empty. cbn [mr_caps mr_post mr_pre].
  rewrite Hcaps, Hafter. simpl get_cap. simpl rev.
  rewrite app_nil_r, app_nil_l.
  rewrite !string_of_app, !string_of_list_ascii_of_string. reflexivity.
Qed.

Lemma digit_or_slash_chars (set : string) :
  forallb (fun c => negb (digit_or_slash c) || noneof set c) all_ascii = true ->
  forall l, forallb digit_or_slash l = true -> forallb (noneof set) l = true.
Proof.
  intros H l. apply forallb_weaken. intros c Hc.
  pose proof (ascii_forall _ H c) as A. cbv beta in A.
  rewrite Hc in A. exact A.
Qed.

(** X20: the address of a vimeo file on one of the three akamaized host
    names is reduced to the canonical vimeo-cdn form: only the trailing
    run of digits and [/] with its [.mp4] is kept; what stands before
    the host name and between the host name and that run is dropped.
    The address has no [?] and no line terminator and does not contain
    [youtube]; the text between the host name and the [/] before the
    run is empty or ends in a character that is neither a digit nor a
    [/]; the run is not empty. *)
Theorem reduce_vimeo_file (h host mid w : string) :
  In host cdn_hosts ->
  string_forall no_query_char h = true ->
  string_forall no_query_char mid = true -> ends_outside_number mid ->
  w <> ""%string -> string_forall digit_or_slash w = true ->
  occurs (list_ascii_of_string "youtube")
    (list_ascii_of_string
       (h ++ host ++ ".akamaized.net" ++ mid ++ "/" ++ w ++ ".mp4"))
  = false ->
  reduce (h ++ host ++ ".akamaized.net" ++ mid ++ "/" ++ w ++ ".mp4")
  = (cdn_canon ++ w ++ ".mp4")%string.
Proof.
  intros Hhost Hh Hmid Hend Hne Hw Hy.
  pose proof (rule7_apply h host mid w Hhost Hh Hmid Hend Hne Hw) as H7.
  assert (Hq : forall s, string_forall no_query_char s = true ->
               string_forall (noneof "?") s = true).
  { intros s. apply forallb_weaken. intros c Hc.
    apply andb_true_iff in Hc. tauto. }
  assert (Hp : string_forall (noneof "?")
                 (h ++ host ++ ".akamaized.net" ++ mid ++ "/" ++ w ++ ".mp4")
               = true).
  { rewrite !string_forall_app.
    apply andb_true_iff; split; [apply Hq; exact Hh|].
    apply andb_true_iff; split.
    { simpl in Hhost. destruct Hhost as [<-|[<-|[<-|[]]]]; reflexivity. }
    apply andb_true_iff; split; [reflexivity|].
    apply andb_true_iff; split; [apply Hq; exact Hmid|].
    apply andb_true_iff; split; [reflexivity|].
    apply andb_true_iff; split; [|reflexivity].
    apply (digit_or_slash_chars "?"); [vm_compute; reflexivity | exact Hw]. }
  assert (Hyt : forall r, In r [rule4; rule5; rule6] ->
            apply_rule r
              (h ++ host ++ ".akamaized.net" ++ mid ++ "/" ++ w ++ ".mp4")
            = (h ++ host ++ ".akamaized.net" ++ mid ++ "/" ++ w
                 ++ ".mp4")%string).
  { intros r Hr. apply apply_rule_no_match. apply exec_no_match.
    intros w1 w2 st' Hs Hm. apply (youtube_text r) in Hm; [|exact Hr].
    destruct Hm as (a0 & a & Ha). simpl after in Ha.
    rewrite Hs, Ha, app_assoc, occurs_intro in Hy. discriminate. }
  unfold reduce.
  change fuzzy_rules
    with ([rule1; rule2; rule3; rule4; rule5; rule6] ++ rule7 :: [rule8]).
  rewrite reduce_with_first_change; [exact H7| |].
  - intros r Hr. simpl in Hr.
    destruct Hr as [<-|[<-|[<-|[<-|[<-|[<-|[]]]]]]].
    + apply (no_match_without _ "?"%char "?"); [vm_compute| |exact Hp];
        reflexivity.
    + apply (no_match_without _ "?"%char "?"); [vm_compute| |exact Hp];
        reflexivity.
    + apply (no_match_without _ "?"%char "?"); [vm_compute| |exact Hp];
        reflexivity.
    + apply Hyt. simpl. tauto.
    + apply Hyt. simpl. tauto.
    + apply Hyt. simpl. tauto.
  - rewrite H7. intros H.
    assert (Hk : In "k"%char
                   (list_ascii_of_string
                      (h ++ host ++ ".akamaized.net" ++ mid ++ "/" ++ w
                         ++ ".mp4"))).
    { rewrite !list_of_append. apply in_or_app. right.
      apply in_or_app. right. apply in_or_app. left.
      simpl. tauto. }
    rewrite <- H in Hk. revert Hk. rewrite !list_of_append.
    apply not_in_app; [apply mem_not_in; reflexivity|].
    apply not_in_app; [|apply mem_not_in; reflexivity].
    apply (noneof_not_in "k"); [|reflexivity].
    apply (digit_or_slash_chars "k"); [vm_compute; reflexivity | exact Hw].
Qed.

Lemma reduce_vimeo_file_witness :
  reduce ("" ++ "vod-progressive" ++ ".akamaized.net"
            ++ "/exp=1700000000~hmac=0a1b2c/vimeo-prod-skyfire-std-us" ++ "/"
            ++ "01/2969/14/364847441/1559563629" ++ ".mp4")
  = "vimeo-cdn.fuzzy.replayweb.page/01/2969/14/364847441/1559563629.mp4"%string.
Proof.
  apply (reduce_vimeo_file "" "vod-progressive"
           "/exp=1700000000~hmac=0a1b2c/vimeo-prod-skyfire-std-us"
           "01/2969/14/364847441/1559563629");
    try reflexivity.
  - simpl. tauto.
  - right.
    exists "/exp=1700000000~hmac=0a1b2c/vimeo-prod-skyfire-std-u", "s"%char.
    split; reflexivity.
  - discriminate.
Defined.

(** ** An absolute input in serialised form *)

(** X21: for an input that is an absolute url in serialised form (it
    parses and serialises to itself), with a scheme made of letters,
    digits and underscores, not under the serving prefix, the call is
    the reassembly of the reduction of what follows [scheme://]: the
    base is not looked at and the resolution changes nothing. *)
Theorem serialised_absolute_input (ctx : context) (sch rest : string)
  (b u : URL.t) (useRel mod_ doc : js_value) :
  passthrough ctx (sch ++ "://" ++ rest) = false ->
  new_URL (current_url ctx) None = Return b ->
  new_URL (sch ++ "://" ++ rest) None = Return u ->
  toString u = (sch ++ "://" ++ rest)%string ->
  sch <> ""%string -> string_forall is_word sch = true ->
  startsWith (sch ++ "://" ++ rest) (prefix ctx) = false ->
  urlRewriteFunction ctx (JString (sch ++ "://" ++ rest)) useRel mod_ doc
  = let* r := reassemble ctx (reduce rest) in Return (JString r).
Proof.
  intros Hp Hb Hu Hs Hne Hw Hpre.
  rewrite rewrite_not_passthrough by exact Hp.
  pose proof (new_URL_not_slash _ _ Hu) as Hslash.
  assert (Hslashes : startsWith (sch ++ "://" ++ rest) "//" = false).
  { destruct (startsWith (sch ++ "://" ++ rest) "//") eqn:H; [|reflexivity].
    apply startsWith_slashes in H. congruence. }
  unfold rewrite_string, absolute_url. rewrite Hslashes, Hslash.
  rewrite (new_URL_serialised _ _ b u Hb Hu Hs). cbn [bind].
  rewrite Hs. unfold from_absolute.
  rewrite (entry_path_scheme ctx true sch rest Hne Hw Hpre).
  reflexivity.
Qed.

Lemma serialised_absolute_input_witness :
  urlRewriteFunction ctx_absolute_prefix
    (JString ("https" ++ "://" ++ "player.vimeo.com/video/76979871?h=8272103f6e"))
    JUndefined JUndefined JUndefined
  = Return
      (JString
         "https://replay.example/archive/20230101/vimeo.fuzzy.replayweb.page/video/76979871").
Proof.
  destruct (new_URL (current_url ctx_absolute_prefix) None) as [b|e] eqn:Hb;
    [|vm_compute in Hb; discriminate].
  destruct (new_URL ("https" ++ "://"
                       ++ "player.vimeo.com/video/76979871?h=8272103f6e")
              None) as [u|e] eqn:Hu;
    [|vm_compute in Hu; discriminate].
  rewrite (serialised_absolute_input ctx_absolute_prefix "https"
             "player.vimeo.com/video/76979871?h=8272103f6e" b u
             JUndefined JUndefined JUndefined).
  - vm_compute. reflexivity.
  - vm_compute. reflexivity.
  - exact Hb.
  - exact Hu.
  - vm_compute in Hu. injection Hu as <-. vm_compute. reflexivity.
  - discriminate.
  - reflexivity.
  - vm_compute. reflexivity.
Defined.
